(** * Verification of parts of the dynarmic dynamic binary translator

    The development embeds, function by function, the code of

    - the x64 saturating-arithmetic emitter (signed/unsigned saturated
      add and sub, doubling multiply return high, arbitrary-width
      saturation),
    - the decoder's [Matcher],
    - the A64 backend's fastmem book-keeping and block-link terminal,
    - the A64 backend's accessors of the A32 guest state (flags, GE
      flags, extended registers, [BXWritePC], the local exclusive
      monitor), its terminals and the handler of the return stack
      buffer,
    - the x64 AES lowering,
    - the global [ExclusiveMonitor],
    - the type list [drop] and the metavalue [conjunction] and
      [disjunction] of the [mp] library,

    and proves properties of these embeddings.

    An emitter function is embedded as the function its emitted host
    instructions compute: every host instruction is a pure function on
    the registers it touches (and the flags), and an [Emit...] routine is
    the composition of its instructions, in the order of the source. *)

From Stdlib Require Import ZArith List Bool Lia.
From stdpp Require Import base option list gmap sets.

Local Open Scope Z_scope.

(* ===================================================================== *)
(** * Part I: definitions *)
(* ===================================================================== *)

(** ** A model of the x86-64 instructions the emitter uses *)

Module X64.

(** A general purpose register holds a 64-bit word, kept as a [Z].  The view
    of a register at [s] bits ([cvt8], [cvt16], [cvt32], [changeBit]) reads
    the low [s] bits. *)
Definition rd (s : Z) (r : Z) : Z := r mod 2 ^ s.

(** Two's complement reading of the low [s] bits. *)
Definition signed (s : Z) (r : Z) : Z :=
  if rd s r <? 2 ^ (s - 1) then rd s r else rd s r - 2 ^ s.

(** Writing [v] to the [s]-bit view of a register holding [r]: a 64-bit write
    replaces the register, a 32-bit write zero-extends, 16- and 8-bit writes
    keep the upper bits. *)
Definition wr (s : Z) (r v : Z) : Z :=
  if 32 <=? s then v mod 2 ^ s else r - r mod 2 ^ s + v mod 2 ^ s.

Record Flags := mkFlags { CF : bool; ZF : bool; SF : bool; OF : bool }.

(** Flags of a logical or arithmetic result [res] at [s] bits. *)
Definition flags_of (s : Z) (res : Z) (cf of_ : bool) : Flags :=
  {| CF := cf; ZF := rd s res =? 0; SF := 2 ^ (s - 1) <=? rd s res; OF := of_ |}.

(** [fits s v]: the integer [v] is representable as a signed [s]-bit number. *)
Definition fits (s : Z) (v : Z) : bool :=
  (- 2 ^ (s - 1) <=? v) && (v <? 2 ^ (s - 1)).

(** [add dst, src]: carry out of the unsigned sum, overflow of the signed one. *)
Definition add (s : Z) (dst src : Z) : Z * Flags :=
  let res := rd s dst + rd s src in
  (wr s dst res,
   flags_of s res (2 ^ s <=? res) (negb (fits s (signed s dst + signed s src)))).

(** [sub dst, src]: borrow of the unsigned difference, overflow of the signed one. *)
Definition sub (s : Z) (dst src : Z) : Z * Flags :=
  let res := rd s dst - rd s src in
  (wr s dst res,
   flags_of s res (rd s dst <? rd s src) (negb (fits s (signed s dst - signed s src)))).

(** [cmp a, b] is [sub] without the write. *)
Definition cmp (s : Z) (a b : Z) : Flags := snd (sub s a b).

(** [adc dst, src] with the incoming carry. Its flags are dead at every use
    in the emitter (an [add], [sub] follows), so only the value is kept. *)
Definition adc (s : Z) (dst src : Z) (cf : bool) : Z :=
  wr s dst (rd s dst + rd s src + Z.b2z cf).

(** [bt r, i]: the carry flag receives bit [i]. *)
Definition bt (r : Z) (i : Z) : bool := Z.testbit r i.

(** [xor dst, src]. *)
Definition xor_ (s : Z) (dst src : Z) : Z * Flags :=
  let res := Z.lxor (rd s dst) (rd s src) in
  (wr s dst res, flags_of s res false false).

(** [mov dst, src]: no flag changes. *)
Definition mov (s : Z) (dst src : Z) : Z := wr s dst src.

(** [movsx r32, r16] and [movsxd r64, r32]: sign extension from [from] bits
    into the [to]-bit view. *)
Definition movsx (to from : Z) (dst src : Z) : Z := wr to dst (signed from src).

(** Two operand [imul dst, src]: the truncated product. Flags dead. *)
Definition imul (s : Z) (dst src : Z) : Z := wr s dst (signed s dst * signed s src).

(** [lea dst, [base + index]] and [lea dst, [base + disp]]: the 64-bit address
    sum written to the [s]-bit view. No flag changes. *)
Definition lea (s : Z) (dst base off : Z) : Z := wr s dst (rd 64 base + off).

(** [shr dst, n]: logical right shift. Flags dead at every use. *)
Definition shr (s : Z) (dst n : Z) : Z := wr s dst (Z.shiftr (rd s dst) n).

(** [sar dst, n]: arithmetic right shift. Flags dead at every use. *)
Definition sar (s : Z) (dst n : Z) : Z := wr s dst (Z.shiftr (signed s dst) n).

(** Condition codes. *)
Inductive Cond := cO | cAE | cB | cNS | cS | cBE | cA | cLE.

Definition holds (c : Cond) (f : Flags) : bool :=
  match c with
  | cO => OF f
  | cAE => negb (CF f)
  | cB => CF f
  | cNS => negb (SF f)
  | cS => SF f
  | cBE => CF f || ZF f
  | cA => negb (CF f) && negb (ZF f)
  | cLE => ZF f || negb (Bool.eqb (SF f) (OF f))
  end.

(** [cmovcc dst, src]. The 32-bit form zero-extends also when the condition
    fails. *)
Definition cmov (c : Cond) (s : Z) (dst src : Z) (f : Flags) : Z :=
  wr s dst (if holds c f then src else dst).

(** [setcc dst8]. *)
Definition set (c : Cond) (dst : Z) (f : Flags) : Z :=
  wr 8 dst (Z.b2z (holds c f)).

End X64.

(** ** The saturating-arithmetic emitter (x64 backend) *)

Module Saturation.
Import X64.

Inductive Op := Add | Sub.

(** [std::numeric_limits<mp::signed_integer_of_size<size>>::max()] and
    [std::numeric_limits<mp::unsigned_integer_of_size<size>>::max()]. *)
Definition signed_max (size : Z) : Z := 2 ^ (size - 1) - 1.
Definition signed_min (size : Z) : Z := - 2 ^ (size - 1).
Definition unsigned_max (size : Z) : Z := 2 ^ size - 1.

(** [u32] arithmetic of the emitter itself (not of the emitted code). *)
Definition u32 (v : Z) : Z := v mod 2 ^ 32.

(** An emitter routine receives the registers the allocator hands out:
    [arg0], [arg1] hold the IR arguments (in their low [size] bits; above
    them anything), [scratch] registers hold anything.  It returns the
    register defined for [inst] and, when the instruction has an associated
    [GetOverflowFromOp] pseudo-operation ([overflow_inst]), the register
    defined for that one. *)
Definition EmitSignedSaturatedOp (op : Op) (size : Z) (overflow_inst : bool)
    (arg0 arg1 scratch : Z) : Z * option Z :=
  let result := arg0 in
  let addend := arg1 in
  let overflow := scratch in
  let int_max := signed_max size in
  let overflow :=
    if size <? 64 then
      let overflow := fst (xor_ 32 overflow overflow) in
      let cf := bt (rd 32 result) (size - 1) in
      adc 32 overflow int_max cf
    else
      let overflow := mov 64 overflow int_max in
      let cf := bt (rd 64 result) 63 in
      adc 64 overflow 0 cf in
  (* overflow now contains 0x7F... if a was positive, or 0x80... if a was negative *)
  let '(result, fl) :=
    match op with
    | Add => add size result addend
    | Sub => sub size result addend
    end in
  let result :=
    if size =? 8 then cmov cO 32 result overflow fl
    else cmov cO size result overflow fl in
  let overflow_def :=
    if overflow_inst then Some (set cO overflow fl) else None in
  (result, overflow_def).

Definition EmitUnsignedSaturatedOp (op : Op) (size : Z) (overflow_inst : bool)
    (arg0 arg1 scratch : Z) : Z * option Z :=
  let op_result := arg0 in
  let addend := arg1 in
  let boundary := match op with Add => unsigned_max size | Sub => 0 end in
  let '(op_result, fl) :=
    match op with
    | Add => add size op_result addend
    | Sub => sub size op_result addend
    end in
  let addend := mov size addend boundary in
  let addend :=
    if size =? 8 then cmov cAE 32 addend op_result fl
    else cmov cAE size addend op_result fl in
  let overflow_def :=
    if overflow_inst then
      let overflow := scratch in
      Some (set cB overflow fl)
    else None in
  (addend, overflow_def).

Definition EmitSignedSaturatedAdd8 := EmitSignedSaturatedOp Add 8.
Definition EmitSignedSaturatedAdd16 := EmitSignedSaturatedOp Add 16.
Definition EmitSignedSaturatedAdd32 := EmitSignedSaturatedOp Add 32.
Definition EmitSignedSaturatedAdd64 := EmitSignedSaturatedOp Add 64.
Definition EmitSignedSaturatedSub8 := EmitSignedSaturatedOp Sub 8.
Definition EmitSignedSaturatedSub16 := EmitSignedSaturatedOp Sub 16.
Definition EmitSignedSaturatedSub32 := EmitSignedSaturatedOp Sub 32.
Definition EmitSignedSaturatedSub64 := EmitSignedSaturatedOp Sub 64.
Definition EmitUnsignedSaturatedAdd8 := EmitUnsignedSaturatedOp Add 8.
Definition EmitUnsignedSaturatedAdd16 := EmitUnsignedSaturatedOp Add 16.
Definition EmitUnsignedSaturatedAdd32 := EmitUnsignedSaturatedOp Add 32.
Definition EmitUnsignedSaturatedAdd64 := EmitUnsignedSaturatedOp Add 64.
Definition EmitUnsignedSaturatedSub8 := EmitUnsignedSaturatedOp Sub 8.
Definition EmitUnsignedSaturatedSub16 := EmitUnsignedSaturatedOp Sub 16.
Definition EmitUnsignedSaturatedSub32 := EmitUnsignedSaturatedOp Sub 32.
Definition EmitUnsignedSaturatedSub64 := EmitUnsignedSaturatedOp Sub 64.

(** The sixteen IR opcodes above, indexed by signedness, operation and
    width, as the emitter's opcode switch selects them. *)
Inductive Width := W8 | W16 | W32 | W64.

Definition bits (w : Width) : Z :=
  match w with W8 => 8 | W16 => 16 | W32 => 32 | W64 => 64 end.

Definition EmitSignedSaturated (op : Op) (w : Width) :=
  match op, w with
  | Add, W8 => EmitSignedSaturatedAdd8
  | Add, W16 => EmitSignedSaturatedAdd16
  | Add, W32 => EmitSignedSaturatedAdd32
  | Add, W64 => EmitSignedSaturatedAdd64
  | Sub, W8 => EmitSignedSaturatedSub8
  | Sub, W16 => EmitSignedSaturatedSub16
  | Sub, W32 => EmitSignedSaturatedSub32
  | Sub, W64 => EmitSignedSaturatedSub64
  end.

Definition EmitUnsignedSaturated (op : Op) (w : Width) :=
  match op, w with
  | Add, W8 => EmitUnsignedSaturatedAdd8
  | Add, W16 => EmitUnsignedSaturatedAdd16
  | Add, W32 => EmitUnsignedSaturatedAdd32
  | Add, W64 => EmitUnsignedSaturatedAdd64
  | Sub, W8 => EmitUnsignedSaturatedSub8
  | Sub, W16 => EmitUnsignedSaturatedSub16
  | Sub, W32 => EmitUnsignedSaturatedSub32
  | Sub, W64 => EmitUnsignedSaturatedSub64
  end.

Definition EmitSignedSaturatedDoublingMultiplyReturnHigh16 (overflow_inst : bool)
    (arg0 arg1 scratch : Z) : Z * option Z :=
  let x := arg0 in
  let y := arg1 in
  let tmp := scratch in
  let x := movsx 32 16 x x in
  let y := movsx 32 16 y y in
  let x := imul 32 x y in
  let y := lea 32 y x (rd 64 x) in
  let tmp := mov 32 tmp x in
  let tmp := shr 32 tmp 15 in
  let '(y, fl) := xor_ 32 y x in
  let y := mov 32 y 0x7FFF in
  let y := cmov cNS 32 y tmp fl in
  let overflow_def :=
    if overflow_inst then Some (set cS tmp fl) else None in
  (y, overflow_def).

Definition EmitSignedSaturatedDoublingMultiplyReturnHigh32 (overflow_inst : bool)
    (arg0 arg1 scratch : Z) : Z * option Z :=
  let x := arg0 in
  let y := arg1 in
  let tmp := scratch in
  let x := movsx 64 32 x x in
  let y := movsx 64 32 y y in
  let x := imul 64 x y in
  let y := lea 64 y x (rd 64 x) in
  let tmp := mov 64 tmp x in
  let tmp := shr 64 tmp 31 in
  let '(y, fl) := xor_ 64 y x in
  let y := mov 32 y 0x7FFFFFFF in
  let y := cmov cNS 32 y tmp fl in
  let overflow_def :=
    if overflow_inst then Some (set cS tmp fl) else None in
  (y, overflow_def).

(** [EmitSignedSaturation]: [N] is the immediate [args[1].GetImmediateU8()];
    a failed [ASSERT] is [None].  For [N = 32] no code is emitted: the
    instruction's value is its argument and the uses of the overflow
    pseudo-operation are replaced by the constant [false]. *)
Definition EmitSignedSaturation (overflow_inst : bool) (arg0 N : Z)
    (scratch1 scratch2 : Z) : option (Z * option Z) :=
  if negb ((1 <=? N) && (N <=? 32)) then None
  else if N =? 32 then
    Some (arg0, if overflow_inst then Some (Z.b2z false) else None)
  else
    let mask := u32 (Z.shiftl 1 N - 1) in
    let positive_saturated_value := u32 (Z.shiftl 1 (N - 1) - 1) in
    let negative_saturated_value := u32 (Z.shiftl 1 (N - 1)) in
    let result := scratch1 in
    let reg_a := arg0 in
    let overflow := scratch2 in
    (* overflow now contains a value between 0 and mask if it was originally
       between {negative,positive}_saturated_value. *)
    let overflow := lea 32 overflow reg_a negative_saturated_value in
    (* Put the appropriate saturated value in result *)
    let result := mov 32 result reg_a in
    let result := sar 32 result 31 in
    let result := fst (xor_ 32 result positive_saturated_value) in
    (* Do the saturation *)
    let fl := cmp 32 overflow mask in
    let result := cmov cBE 32 result reg_a fl in
    let overflow_def :=
      if overflow_inst then Some (set cA overflow fl) else None in
    Some (result, overflow_def).

Definition EmitUnsignedSaturation (overflow_inst : bool) (arg0 N : Z)
    (scratch1 scratch2 : Z) : option (Z * option Z) :=
  if negb (N <=? 31) then None
  else
    let saturated_value := u32 (Z.shiftl 1 N - 1) in
    let result := scratch1 in
    let reg_a := arg0 in
    let overflow := scratch2 in
    (* Pseudocode: result = clamp(reg_a, 0, saturated_value); *)
    let overflow := fst (xor_ 32 overflow overflow) in
    let fl := cmp 32 reg_a saturated_value in
    let result := mov 32 result saturated_value in
    let result := cmov cLE 32 result overflow fl in
    let result := cmov cBE 32 result reg_a fl in
    let overflow_def :=
      if overflow_inst then Some (set cA overflow fl) else None in
    Some (result, overflow_def).

(** Clamping of an exact integer to an interval, and the [U1] value read
    from the register defined for the overflow pseudo-operation (its
    [cvt8] view). *)
Definition clamp (lo hi v : Z) : Z := Z.max lo (Z.min hi v).

Definition flag_of (r : option Z) : option bool :=
  match r with
  | Some q => Some (negb (rd 8 q =? 0))
  | None => None
  end.

(** The exact (unbounded) result of the operation on two integers. *)
Definition exact_result (op : Op) (x y : Z) : Z :=
  match op with Add => x + y | Sub => x - y end.

(** The doubling multiply returning the high half, before saturation: the
    product of two [width]-bit numbers, doubled, shifted right by [shift]. *)
Definition doubling_multiply_high (shift : Z) (x y : Z) : Z :=
  Z.shiftr (2 * (x * y)) shift.

(** The formula as the specification words it, [sat((2*x*y) >> (2*width - 1))],
    for comparison with what the emitted code computes. *)
Definition specified_doubling_multiply_high (width : Z) (x y : Z) : Z :=
  clamp (signed_min width) (signed_max width)
    (doubling_multiply_high (2 * width - 1) x y).

End Saturation.

(** ** The decoder's matcher *)

Module Decoder.

Section Matcher.

(** [Visitor] is the visitor type; [instruction_return_type] is
    [Visitor::instruction_return_type].  The opcode type is an unsigned
    integer type ([u16] or [u32]), kept as a [Z].  A handler receives the
    visitor by reference: it returns its result and the visitor it leaves. *)
Context {Visitor instruction_return_type : Type}.

Definition opcode_type := Z.
Definition handler_function :=
  Visitor -> opcode_type -> instruction_return_type * Visitor.

Record Matcher := mkMatcher {
  name : String.string;
  mask : opcode_type;
  expected : opcode_type;
  fn : handler_function;
}.

Definition GetName (m : Matcher) : String.string := name m.
Definition GetMask (m : Matcher) : opcode_type := mask m.
Definition GetExpected (m : Matcher) : opcode_type := expected m.

(** Tests to see if the given instruction is the instruction this matcher
    represents. *)
Definition Matches (m : Matcher) (instruction : opcode_type) : bool :=
  Z.land instruction (mask m) =? expected m.

(** Calls the corresponding instruction handler on visitor for this type of
    instruction; [None] is the failed [ASSERT]. *)
Definition call (m : Matcher) (v : Visitor) (instruction : opcode_type)
    : option (instruction_return_type * Visitor) :=
  if Matches m instruction then Some (fn m v instruction) else None.

(** Modelled from the spec: the decoder's search of its matcher table (the
    [Decode...] functions and the tables are not among the sources).  "The
    decoder searches the table in declaration order and invokes the first
    matching handler on a Visitor"; with no match there is no matcher (the
    caller lifts an undefined instruction). *)
Definition Decode (table : list Matcher) (instruction : opcode_type)
    : option Matcher :=
  List.find (fun m => Matches m instruction) table.

(** Modelled from the spec: decoding a word and invoking the handler found. *)
Definition DecodeAndCall (table : list Matcher) (v : Visitor)
    (instruction : opcode_type)
    : option (instruction_return_type * Visitor) :=
  match Decode table instruction with
  | Some m => call m v instruction
  | None => None
  end.

End Matcher.

Arguments Matcher : clear implicits.

End Decoder.

(** ** The A64 backend: fastmem book-keeping of [A32EmitA64] *)

Module BackendA64.

(** [IR::LocationDescriptor] is a 64-bit value, [CodePtr] a host address. *)
Abbreviation LocationDescriptor := Z (only parsing).
Abbreviation CodePtr := Z (only parsing).

(** [DoNotFastmemMarker] is [std::tuple<LocationDescriptor, ptrdiff_t>]: the
    block's location and the offset of the instruction in the block. *)
Abbreviation DoNotFastmemMarker := (Z * Z)%type (only parsing).

(** The three host code forms [ReadMemory] and [WriteMemory] emit for a
    guest memory access. *)
Inductive AccessForm :=
| FastmemAccess (patch_location : CodePtr)
| CallbackAccess
| PageTableAccess.

Definition is_fastmem (f : AccessForm) : bool :=
  match f with FastmemAccess _ => true | _ => false end.

(** The closure stored in [fastmem_patch_info]: what it captured. *)
Record FastmemPatchInfo := mkFastmemPatchInfo {
  patch_marker : DoNotFastmemMarker;
  patch_bit_size : Z;
  patch_is_read : bool;
}.

(** A block in the cache.  Next to [entrypoint] and [size] the model keeps
    what the host code at the entrypoint is, as far as memory accesses go:
    for the instruction at each offset, the form emitted for it ([None] for
    an instruction that is no memory access). *)
Record BlockDescriptor := mkBlockDescriptor {
  entrypoint : CodePtr;
  size : Z;
  host_accesses : list (option AccessForm);
}.

(** The IR of a block, as far as [Emit] looks at it here: the memory access
    opcodes with their width; any other opcode with the number of host bytes
    its emission routine produces; the bytes of the condition prelude and of
    the cycle update and terminal. *)
Inductive Inst :=
| A32ReadMemory (bit_size : Z)
| A32WriteMemory (bit_size : Z)
| OtherInst (host_size : Z).

Record Block := mkBlock {
  Location : LocationDescriptor;
  instructions : list Inst;
  prelude_size : Z;
  terminal_size : Z;
}.

(** The patch sites that refer to a block: [EmitA64::PatchInformation]. *)
Record PatchInformation := mkPatchInformation {
  jg : list CodePtr;
  jmp : list CodePtr;
  mov_x0 : list CodePtr;
}.

(** The members of [A32EmitA64] (and of its base [EmitA64]) that the
    functions below read or write. *)
Record A32EmitA64 := mkA32EmitA64 {
  fastmem_pointer : option Z;  (* config.fastmem_pointer *)
  page_table : option Z;  (* config.page_table *)
  enable_optimizations : bool;  (* config.enable_optimizations *)
  always_little_endian : bool;  (* config.always_little_endian *)
  SupportsFastmem : bool;  (* exception_handler.SupportsFastmem() *)
  code_ptr : CodePtr;  (* code.GetCodePtr() in near code *)
  far_code_ptr : CodePtr;  (* code.GetCodePtr() in far code *)
  patched_sites : gset Z;  (* fastmem sites rewritten to branch to a thunk *)
  do_not_fastmem : gset (Z * Z);
  fastmem_patch_info : gmap Z FastmemPatchInfo;
  block_descriptors : gmap Z BlockDescriptor;  (* EmitA64::block_descriptors *)
  patch_information : gmap Z PatchInformation;  (* EmitA64::patch_information *)
}.

Definition set_code_ptr (x : CodePtr) (e : A32EmitA64) : A32EmitA64 :=
  mkA32EmitA64 (fastmem_pointer e) (page_table e) (enable_optimizations e)
    (always_little_endian e) (SupportsFastmem e) x (far_code_ptr e)
    (patched_sites e) (do_not_fastmem e) (fastmem_patch_info e)
    (block_descriptors e) (patch_information e).

Definition set_far_code_ptr (x : CodePtr) (e : A32EmitA64) : A32EmitA64 :=
  mkA32EmitA64 (fastmem_pointer e) (page_table e) (enable_optimizations e)
    (always_little_endian e) (SupportsFastmem e) (code_ptr e) x
    (patched_sites e) (do_not_fastmem e) (fastmem_patch_info e)
    (block_descriptors e) (patch_information e).

Definition set_patched_sites (x : gset Z) (e : A32EmitA64) : A32EmitA64 :=
  mkA32EmitA64 (fastmem_pointer e) (page_table e) (enable_optimizations e)
    (always_little_endian e) (SupportsFastmem e) (code_ptr e) (far_code_ptr e)
    x (do_not_fastmem e) (fastmem_patch_info e) (block_descriptors e)
    (patch_information e).

Definition set_do_not_fastmem (x : gset (Z * Z)) (e : A32EmitA64) : A32EmitA64 :=
  mkA32EmitA64 (fastmem_pointer e) (page_table e) (enable_optimizations e)
    (always_little_endian e) (SupportsFastmem e) (code_ptr e) (far_code_ptr e)
    (patched_sites e) x (fastmem_patch_info e) (block_descriptors e)
    (patch_information e).

Definition set_fastmem_patch_info (x : gmap Z FastmemPatchInfo) (e : A32EmitA64) : A32EmitA64 :=
  mkA32EmitA64 (fastmem_pointer e) (page_table e) (enable_optimizations e)
    (always_little_endian e) (SupportsFastmem e) (code_ptr e) (far_code_ptr e)
    (patched_sites e) (do_not_fastmem e) x (block_descriptors e)
    (patch_information e).

Definition set_block_descriptors (x : gmap Z BlockDescriptor) (e : A32EmitA64) : A32EmitA64 :=
  mkA32EmitA64 (fastmem_pointer e) (page_table e) (enable_optimizations e)
    (always_little_endian e) (SupportsFastmem e) (code_ptr e) (far_code_ptr e)
    (patched_sites e) (do_not_fastmem e) (fastmem_patch_info e) x
    (patch_information e).

Definition set_patch_information (x : gmap Z PatchInformation) (e : A32EmitA64) : A32EmitA64 :=
  mkA32EmitA64 (fastmem_pointer e) (page_table e) (enable_optimizations e)
    (always_little_endian e) (SupportsFastmem e) (code_ptr e) (far_code_ptr e)
    (patched_sites e) (do_not_fastmem e) (fastmem_patch_info e)
    (block_descriptors e) x.

(** Emitting [n] bytes of near code, resp. of far code. *)
Definition emit (n : Z) (e : A32EmitA64) : A32EmitA64 :=
  set_code_ptr (code_ptr e + n) e.
Definition emit_far (n : Z) (e : A32EmitA64) : A32EmitA64 :=
  set_far_code_ptr (far_code_ptr e + n) e.

(** [std::unordered_map::emplace]: an existing key keeps its value. *)
Definition emplace {V : Type} (k : Z) (v : V) (m : gmap Z V) : gmap Z V :=
  match m !! k with
  | Some _ => m
  | None => <[k := v]> m
  end.

(** The emission context of a block: [ctx.Location()] is the block's
    location, [ctx.GetInstOffset(inst)] the distance of [inst] from the
    block's first instruction; an instruction is named by that offset. *)
Definition GenerateDoNotFastmemMarker (ctx : Block) (inst : Z) : DoNotFastmemMarker :=
  (Location ctx, inst).

Definition ShouldFastmem (e : A32EmitA64) (marker : DoNotFastmemMarker) : bool :=
  bool_decide (is_Some (fastmem_pointer e)) && SupportsFastmem e &&
  bool_decide (marker ∉ do_not_fastmem e).

(** Modelled from the spec: [EmitA64::InvalidateBasicBlocks] (the base class
    is not among the sources) removes the given descriptors from the block
    cache ("enumerates all descriptors ..., removes them"). *)
Definition InvalidateBasicBlocks (locations : gset Z) (e : A32EmitA64) : A32EmitA64 :=
  set_block_descriptors
    (filter (fun kv => kv.1 ∉ locations) (block_descriptors e)) e.

(** Modelled from the spec: [EmitA64::RegisterBlock] (base class) records the
    block under its descriptor ("a mapping LocationDescriptor -> BlockDescriptor"),
    as the maps of this class are filled: a descriptor that is present keeps
    its block. *)
Definition RegisterBlock (descriptor : LocationDescriptor) (bd : BlockDescriptor)
    (e : A32EmitA64) : A32EmitA64 :=
  set_block_descriptors (emplace descriptor bd (block_descriptors e)) e.

(** Modelled from the spec: [EmitA64::ClearCache] (base class) empties the
    block cache and forgets the patch sites. *)
Definition EmitA64_ClearCache (e : A32EmitA64) : A32EmitA64 :=
  set_patch_information ∅ (set_block_descriptors ∅ e).

(** Modelled from the spec: [EmitA64::GetBasicBlock] (base class) looks the
    descriptor up in the block cache. *)
Definition GetBasicBlock (e : A32EmitA64) (descriptor : LocationDescriptor)
    : option BlockDescriptor :=
  block_descriptors e !! descriptor.

Definition DoNotFastmem (marker : DoNotFastmemMarker) (e : A32EmitA64) : A32EmitA64 :=
  let e := set_do_not_fastmem ({[marker]} ∪ do_not_fastmem e) e in
  InvalidateBasicBlocks {[marker.1]} e.

Section Emission.

(** Host bytes of the page table lookup sequence and of a patch thunk; they
    depend on the constants materialised ([MOVP2R], [ANDI2R]) and are left
    open. *)
Variable page_table_lookup_size : Z.
Variable thunk_size : Z.

(** [ReadMemory<T>] and [WriteMemory<T>] differ in the host instructions
    ([LDR]/[STR], the move of the result); their control flow, modelled here,
    is the same.  [is_read] tells them apart. *)
Definition AccessMemory (is_read : bool) (bit_size : Z) (ctx : Block) (inst : Z)
    (e : A32EmitA64) : A32EmitA64 * AccessForm :=
  let do_not_fastmem_marker := GenerateDoNotFastmemMarker ctx inst in
  if ShouldFastmem e do_not_fastmem_marker then
    let patch_location := code_ptr e in
    let e := emit 4 e in
    let e :=
      set_fastmem_patch_info
        (emplace patch_location
           (mkFastmemPatchInfo do_not_fastmem_marker bit_size is_read)
           (fastmem_patch_info e)) e in
    (e, FastmemAccess patch_location)
  else if negb (bool_decide (is_Some (page_table e))) then
    (emit (if is_read then 8 else 4) e, CallbackAccess)
  else
    (emit page_table_lookup_size e, PageTableAccess).

Definition ReadMemory := AccessMemory true.
Definition WriteMemory := AccessMemory false.

(** The body of the closure a fastmem site registers: rewrite the site to a
    branch to a thunk in far code, emit the thunk, and demote the site. *)
Definition FastmemPatch (patch_location : CodePtr) (info : FastmemPatchInfo)
    (e : A32EmitA64) : A32EmitA64 :=
  let e := set_patched_sites ({[patch_location]} ∪ patched_sites e) e in
  let e := emit_far thunk_size e in
  DoNotFastmem (patch_marker info) e.

(** [FastmemCallback]: [None] is the failed [ASSERT]. *)
Definition FastmemCallback (PC : CodePtr) (e : A32EmitA64) : option A32EmitA64 :=
  match fastmem_patch_info e !! PC with
  | None => None
  | Some info =>
      let e := FastmemPatch PC info e in
      Some (set_fastmem_patch_info (delete PC (fastmem_patch_info e)) e)
  end.

(** The instruction loop of [Emit]: every instruction is emitted by the
    routine of its opcode; the forms of the memory accesses are collected. *)
Fixpoint EmitInstructions (ctx : Block) (insts : list Inst) (inst : Z)
    (e : A32EmitA64) : A32EmitA64 * list (option AccessForm) :=
  match insts with
  | [] => (e, [])
  | i :: rest =>
      let '(e, form) :=
        match i with
        | A32ReadMemory bit_size =>
            let '(e, f) := ReadMemory bit_size ctx inst e in (e, Some f)
        | A32WriteMemory bit_size =>
            let '(e, f) := WriteMemory bit_size ctx inst e in (e, Some f)
        | OtherInst host_size => (emit host_size e, None)
        end in
      let '(e, forms) := EmitInstructions ctx rest (inst + 1) e in
      (e, form :: forms)
  end.

Definition AlignCode16 (e : A32EmitA64) : A32EmitA64 :=
  set_code_ptr (code_ptr e + (- code_ptr e) mod 16) e.

Definition Emit (block : Block) (e : A32EmitA64) : A32EmitA64 * BlockDescriptor :=
  let e := AlignCode16 e in
  let entrypoint := code_ptr e in
  let e := emit (prelude_size block) e in
  let '(e, forms) := EmitInstructions block (instructions block) 0 e in
  let e := emit (terminal_size block) e in
  let size := code_ptr e - entrypoint in
  let bd := mkBlockDescriptor entrypoint size forms in
  (RegisterBlock (Location block) bd e, bd).

(** [ClearCache]; the range map and the fast dispatch table, which it also
    clears, are not modelled. *)
Definition ClearCache (e : A32EmitA64) : A32EmitA64 :=
  let e := EmitA64_ClearCache e in
  set_fastmem_patch_info ∅ e.

(** [InvalidateCacheRanges]: [locations] is what
    [block_ranges.InvalidateRanges(ranges)] answers (the range map is not
    among the sources). *)
Definition InvalidateCacheRanges (locations : gset Z) (e : A32EmitA64) : A32EmitA64 :=
  InvalidateBasicBlocks locations e.

(** What can happen to an emitter after its construction. *)
Inductive Operation :=
| OpEmit (block : Block)
| OpClearCache
| OpInvalidateCacheRanges (locations : gset Z)
| OpFastmemCallback (PC : CodePtr).

Definition perform (op : Operation) (e : A32EmitA64) : option A32EmitA64 :=
  match op with
  | OpEmit block => Some (Emit block e).1
  | OpClearCache => Some (ClearCache e)
  | OpInvalidateCacheRanges locations => Some (InvalidateCacheRanges locations e)
  | OpFastmemCallback PC => FastmemCallback PC e
  end.

(** A run of operations; a failed assertion ends the process. *)
Fixpoint run (ops : list Operation) (e : A32EmitA64) : option A32EmitA64 :=
  match ops with
  | [] => Some e
  | op :: rest =>
      match perform op e with
      | Some e' => run rest e'
      | None => None
      end
  end.

(** The form of the access at [marker] in the block the cache holds for the
    marker's location, if there is one. *)
Definition cached_form (e : A32EmitA64) (marker : DoNotFastmemMarker)
    : option AccessForm :=
  match block_descriptors e !! marker.1 with
  | Some bd =>
      if 0 <=? marker.2 then
        match host_accesses bd !! Z.to_nat marker.2 with
        | Some (Some f) => Some f
        | _ => None
        end
      else None
  | None => None
  end.

End Emission.

(** A site is settled when its marker is recorded and the block the cache
    holds for its location, if any, has no fastmem form at its offset. *)
Definition settled (e : A32EmitA64) (marker : DoNotFastmemMarker) : Prop :=
  marker ∈ do_not_fastmem e /\
  forall f, cached_form e marker = Some f -> is_fastmem f = false.

(** *** The [LinkBlock] terminal *)

(** The part of [A32JitState] the terminal's code touches. *)
Record A32JitState := mkA32JitState {
  Reg_PC : Z;
  upper_location_descriptor : Z;
  rsb_ptr : Z;
  rsb_location_descriptors : list Z;
  rsb_codeptrs : list Z;
}.

(** The A64 condition flags, and the host state at the end of a block:
    [X26] holds the remaining cycles, [SCRATCH1] is [ABI_SCRATCH1], [X28]
    points to the [A32JitState] kept here. *)
Record NZCV := mkNZCV { flagN : bool; flagZ : bool; flagC : bool; flagV : bool }.

Record Host := mkHost {
  X26 : Z;
  SCRATCH1 : Z;
  nzcv : NZCV;
  jit : A32JitState;
}.

(** Emitted code is embedded as the function it computes: it leaves through
    a branch to a host address, with the host state of that moment. *)
Inductive Outcome := Exit (target : CodePtr) (h : Host).
Definition Code := Host -> Outcome.

Inductive CCFlags := CC_GT | CC_LE.

Definition cond_holds (c : CCFlags) (f : NZCV) : bool :=
  match c with
  | CC_GT => negb (flagZ f) && Bool.eqb (flagN f) (flagV f)
  | CC_LE => flagZ f || negb (Bool.eqb (flagN f) (flagV f))
  end.

(** [CMP Xn, Xm] on 64-bit registers: the flags of [Xn - Xm]. *)
Definition CMP (xn xm : Z) (h : Host) : Host :=
  let a := X64.rd 64 xn in
  let b := X64.rd 64 xm in
  let res := X64.rd 64 (a - b) in
  mkHost (X26 h) (SCRATCH1 h)
    (mkNZCV (2 ^ 63 <=? res) (res =? 0) (b <=? a)
       (negb (X64.fits 64 (X64.signed 64 xn - X64.signed 64 xm))))
    (jit h).

(** [MOVI2R(DecodeReg(ABI_SCRATCH1), imm)]: the 32-bit view is written, the
    upper half cleared. *)
Definition MOVI2R_SCRATCH1 (imm : Z) (h : Host) : Host :=
  mkHost (X26 h) (X64.rd 32 imm) (nzcv h) (jit h).

(** [STR(INDEX_UNSIGNED, DecodeReg(ABI_SCRATCH1), X28, MJitStateReg(A32::Reg::PC))]. *)
Definition STR_SCRATCH1_PC (h : Host) : Host :=
  let j := jit h in
  mkHost (X26 h) (SCRATCH1 h) (nzcv h)
    (mkA32JitState (X64.rd 32 (SCRATCH1 h)) (upper_location_descriptor j)
       (rsb_ptr j) (rsb_location_descriptors j) (rsb_codeptrs j)).

(** [STR(INDEX_UNSIGNED, DecodeReg(ABI_SCRATCH1), X28,
    offsetof(A32JitState, upper_location_descriptor))]. *)
Definition STR_SCRATCH1_upper (h : Host) : Host :=
  let j := jit h in
  mkHost (X26 h) (SCRATCH1 h) (nzcv h)
    (mkA32JitState (Reg_PC j) (X64.rd 32 (SCRATCH1 h))
       (rsb_ptr j) (rsb_location_descriptors j) (rsb_codeptrs j)).

Section Terminal.

(** Declarations that are not among the sources: the guest PC of a
    descriptor ([A32::LocationDescriptor{desc}.PC()]), its upper half with
    the single stepping bit cleared
    ([A32::LocationDescriptor{desc}.SetSingleStepping(false).UniqueHash() >> 32]),
    the dispatcher's two return addresses, the RSB index mask and the host
    bytes [MOVI2R] takes for a constant. *)
Variable PC : LocationDescriptor -> Z.
Variable UniqueHash_upper : LocationDescriptor -> Z.
Variable ReturnFromRunCodeAddress : CodePtr.
Variable ForceReturnFromRunCodeAddress : CodePtr.
Variable RSBPtrMask : Z.
Variable MOVI2R_size : Z -> Z.
Variable PushRSBHelper_size : Z.

(** [code.ReturnFromRunCode()] and [code.ForceReturnFromRunCode()]: a branch
    to the dispatcher's return sequence. *)
Definition ReturnFromRunCode : Code := Exit ReturnFromRunCodeAddress.
Definition ForceReturnFromRunCode : Code := Exit ForceReturnFromRunCodeAddress.

(** Modelled from the spec: [EmitA64::PushRSBHelper] (base class). "A
    fixed-size circular buffer of (descriptor, codeptr) pairs indexed by
    rsb_ptr masked with RSBPtrMask. Calls push".  The code pointer pushed is
    the target's entrypoint, or the return address when the target is not
    compiled (as [EmitPatchMovX0] materialises it). *)
Definition PushRSBHelper (e : A32EmitA64) (target : LocationDescriptor) (h : Host)
    : Host :=
  let target_code_ptr :=
    match GetBasicBlock e target with
    | Some bb => entrypoint bb
    | None => ReturnFromRunCodeAddress
    end in
  let j := jit h in
  let index := Z.to_nat (rsb_ptr j) in
  mkHost (X26 h) (SCRATCH1 h) (nzcv h)
    (mkA32JitState (Reg_PC j) (upper_location_descriptor j)
       (Z.land (rsb_ptr j + 1) RSBPtrMask)
       (<[index := target]> (rsb_location_descriptors j))
       (<[index := target_code_ptr]> (rsb_codeptrs j))).

(** [code.EnsurePatchLocationSize(patch_location, size)] (not among the
    sources): the site is padded with no-ops to [size] bytes. *)
Definition EnsurePatchLocationSize (patch_location : CodePtr) (size : Z)
    (e : A32EmitA64) : A32EmitA64 :=
  set_code_ptr (patch_location + size) e.

Definition EmitSetUpperLocationDescriptor (new_location old_location : LocationDescriptor)
    (e : A32EmitA64) : A32EmitA64 * (Host -> Host) :=
  let get_upper := fun desc => X64.rd 32 (UniqueHash_upper desc) in
  let old_upper := get_upper old_location in
  let new_upper :=
    let mask := X64.rd 32 (Z.lnot (if always_little_endian e then 2 else 0)) in
    Z.land (get_upper new_location) mask in
  if negb (old_upper =? new_upper) then
    (emit (MOVI2R_size new_upper + 4) e,
     fun h => STR_SCRATCH1_upper (MOVI2R_SCRATCH1 new_upper h))
  else (e, fun h => h).

(** The closure [long_branch_gt] of [EmitPatchJg]: given the code that
    follows, the code of the branch. *)
Definition long_branch_gt (ptr : CodePtr) (e : A32EmitA64)
    : A32EmitA64 * (Code -> Code) :=
  let distance := ptr - code_ptr e in
  if (- 0x40000 <=? Z.shiftr distance 2) && (Z.shiftr distance 2 <=? 0x3FFFF) then
    (emit 4 e,
     fun next h => if cond_holds CC_GT (nzcv h) then Exit ptr h else next h)
  else
    (emit 8 e,
     fun next h => if cond_holds CC_LE (nzcv h) then next h else Exit ptr h).

(** [EmitPatchJg]; a null [target_code_ptr] (the default argument) is [0]. *)
Definition EmitPatchJg (target_desc : LocationDescriptor) (target_code_ptr : CodePtr)
    (e : A32EmitA64) : A32EmitA64 * (Code -> Code) :=
  let patch_location := code_ptr e in
  let '(e, site) :=
    if negb (target_code_ptr =? 0) then
      long_branch_gt target_code_ptr e
    else
      let e := emit (MOVI2R_size (PC target_desc)) e in
      let e := emit 4 e in
      let '(e, branch) := long_branch_gt ReturnFromRunCodeAddress e in
      (e, fun next h =>
            branch next (STR_SCRATCH1_PC (MOVI2R_SCRATCH1 (PC target_desc) h))) in
  (EnsurePatchLocationSize patch_location 24 e, site).

(** [patch_information[target].jg.emplace_back(location)]. *)
Definition record_jg (target : LocationDescriptor) (location : CodePtr)
    (e : A32EmitA64) : A32EmitA64 :=
  let info := default (mkPatchInformation [] [] []) (patch_information e !! target) in
  set_patch_information
    (<[target := mkPatchInformation (jg info ++ [location]) (jmp info) (mov_x0 info)]>
       (patch_information e)) e.

Definition AlignFarCode16 (e : A32EmitA64) : A32EmitA64 :=
  set_far_code_ptr (far_code_ptr e + (- far_code_ptr e) mod 16) e.

(** [EmitTerminalImpl(IR::Term::LinkBlock terminal, initial_location,
    is_single_step)], with [next] for [terminal.next]. *)
Definition EmitTerminalImpl_LinkBlock (next initial_location : LocationDescriptor)
    (is_single_step : bool) (e : A32EmitA64) : A32EmitA64 * Code :=
  let '(e, set_upper) := EmitSetUpperLocationDescriptor next initial_location e in
  if negb (enable_optimizations e) || is_single_step then
    let e := emit (MOVI2R_size (PC next)) e in
    let e := emit 4 e in
    let e := emit 4 e in
    (e, fun h =>
          ReturnFromRunCode (STR_SCRATCH1_PC (MOVI2R_SCRATCH1 (PC next) (set_upper h))))
  else
    let e := emit 4 e in
    let e := record_jg next (code_ptr e) e in
    let '(e, patch_site) :=
      match GetBasicBlock e next with
      | Some next_bb => EmitPatchJg next (entrypoint next_bb) e
      | None => EmitPatchJg next 0 e
      end in
    let e := emit 4 e in
    (* far code *)
    let e_at_far := e in
    let e := AlignFarCode16 e in
    let e := emit_far (MOVI2R_size (PC next)) e in
    let e := emit_far 4 e in
    let e := emit_far PushRSBHelper_size e in
    let e := emit_far 4 e in
    let dest : Code := fun h =>
      ForceReturnFromRunCode
        (PushRSBHelper e_at_far next
           (STR_SCRATCH1_PC (MOVI2R_SCRATCH1 (PC next) h))) in
    (e, fun h => let h := set_upper h in patch_site dest (CMP (X26 h) 0 h)).

End Terminal.

End BackendA64.

(** ** The x64 AES lowering *)

Module AES.

(** [AES::State] is [std::array<u8, 16>]; an XMM register holds a state,
    byte [i] of the register (counting from the least significant) being
    [state[i]], which is how [movaps] lays a register out in memory. *)
Definition State := vec Byte.byte 16.

(** The software routines [void(AES::State&, const AES::State&)]. *)
Inductive AESFn :=
| DecryptSingleRound
| EncryptSingleRound
| InverseMixColumns
| MixColumns.

Inductive Gpr := ABI_PARAM1 | ABI_PARAM2.

(** The host instructions of the AES lowering. Addresses are integers. *)
Inductive Instr :=
| sub_rsp (n : Z)
| add_rsp (n : Z)
| lea_rsp (dst : Gpr) (disp : Z)
| movaps_store (base : Gpr) (src : nat)
| movaps_load_rsp (dst : nat) (disp : Z)
| CallFunction (fn : AESFn)
| aesimc (dst src : nat).

Record Machine := mkMachine {
  rsp : Z;
  param1 : Z;
  param2 : Z;
  xmm : nat -> State;
  mem : Z -> Byte.byte;
}.

Definition load16 (m : Z -> Byte.byte) (addr : Z) : State :=
  fun_to_vec (fun i : fin 16 => m (addr + Z.of_nat (fin_to_nat i))).

Definition store16 (m : Z -> Byte.byte) (addr : Z) (s : State) : Z -> Byte.byte :=
  fun a =>
    if (addr <=? a) && (a <? addr + 16) then
      default Byte.x00 (vec_to_list s !! Z.to_nat (a - addr))
    else m a.

Definition set_xmm (r : nat) (s : State) (f : nat -> State) : nat -> State :=
  fun r' => if Nat.eqb r' r then s else f r'.

(** *** What [aesimc] computes

    [aesimc xmm1, xmm2] performs the InvMixColumns transformation of
    FIPS-197 (section 5.3.3) on the state in its source: every column
    [s0, s1, s2, s3] of the state is multiplied by the matrix of rows
    [0e 0b 0d 09], [09 0e 0b 0d], [0d 09 0e 0b], [0b 0d 09 0e] over
    GF(2^8), whose multiplication is that of polynomials over GF(2) modulo
    [x^8 + x^4 + x^3 + x + 1] (section 4.2). *)
Definition byte_to_Z (b : Byte.byte) : Z := Z.of_N (Byte.to_N b).

Definition Z_to_byte (z : Z) : Byte.byte :=
  default Byte.x00 (Byte.of_N (Z.to_N (z mod 2 ^ 8))).

(** The product of the polynomial [a] with the low [n] coefficients of
    [b], over GF(2). *)
Fixpoint clmul (n : nat) (a b : Z) : Z :=
  match n with
  | O => 0
  | S n =>
      Z.lxor (clmul n a b)
        (if Z.testbit b (Z.of_nat n) then Z.shiftl a (Z.of_nat n) else 0)
  end.

(** The remainder modulo [x^8 + x^4 + x^3 + x + 1] of a polynomial of
    degree below [8 + n]. *)
Fixpoint reduce (n : nat) (p : Z) : Z :=
  match n with
  | O => p
  | S n =>
      reduce n
        (if Z.testbit p (8 + Z.of_nat n)
         then Z.lxor p (Z.shiftl 0x11B (Z.of_nat n)) else p)
  end.

Definition gf_mul (a b : Z) : Z := reduce 7 (clmul 8 a b).

Definition state_byte (s : State) (i : nat) : Z :=
  byte_to_Z (default Byte.x00 (vec_to_list s !! i)).

(** The matrix product, for a multiplication [mul] of a coefficient with a
    byte; byte [4 c + r] of a state is row [r] of column [c]. *)
Definition inverse_mix_columns (mul : Z -> Z -> Z) (s : State) : State :=
  fun_to_vec (fun i : fin 16 =>
    let c := (4 * (fin_to_nat i / 4))%nat in
    let s0 := state_byte s c in
    let s1 := state_byte s (c + 1) in
    let s2 := state_byte s (c + 2) in
    let s3 := state_byte s (c + 3) in
    let xor4 (a b c d : Z) := Z.lxor (Z.lxor (Z.lxor a b) c) d in
    Z_to_byte
      match (fin_to_nat i mod 4)%nat with
      | 0%nat => xor4 (mul 0x0E s0) (mul 0x0B s1) (mul 0x0D s2) (mul 0x09 s3)
      | 1%nat => xor4 (mul 0x09 s0) (mul 0x0E s1) (mul 0x0B s2) (mul 0x0D s3)
      | 2%nat => xor4 (mul 0x0D s0) (mul 0x09 s1) (mul 0x0E s2) (mul 0x0B s3)
      | _ => xor4 (mul 0x0B s0) (mul 0x0D s1) (mul 0x09 s2) (mul 0x0E s3)
      end).

Definition InvMixColumns : State -> State := inverse_mix_columns gf_mul.

Section Lowering.

(** The software routines of [common/crypto/aes] are an external
    collaborator and not among the sources: [aes_fn fn] is the state
    transformation the routine [fn] computes, whatever it is. *)
Variable aes_fn : AESFn -> State -> State.

(** [ABI_SHADOW_SPACE] (the ABI header is not among the sources). *)
Variable ABI_SHADOW_SPACE : Z.

(** What a called routine leaves in the memory it owns (its frame below the
    stack pointer and the shadow space), in the caller-saved XMM registers
    and in the parameter registers. *)
Variable junk_mem : Z -> Byte.byte.
Variable junk_xmm : nat -> State.
Variable junk_gpr : Z.

Definition exec (i : Instr) (m : Machine) : Machine :=
  match i with
  | sub_rsp n => mkMachine (rsp m - n) (param1 m) (param2 m) (xmm m) (mem m)
  | add_rsp n => mkMachine (rsp m + n) (param1 m) (param2 m) (xmm m) (mem m)
  | lea_rsp ABI_PARAM1 disp =>
      mkMachine (rsp m) (rsp m + disp) (param2 m) (xmm m) (mem m)
  | lea_rsp ABI_PARAM2 disp =>
      mkMachine (rsp m) (param1 m) (rsp m + disp) (xmm m) (mem m)
  | movaps_store base src =>
      let addr := match base with ABI_PARAM1 => param1 m | ABI_PARAM2 => param2 m end in
      mkMachine (rsp m) (param1 m) (param2 m) (xmm m)
        (store16 (mem m) addr (xmm m src))
  | movaps_load_rsp dst disp =>
      mkMachine (rsp m) (param1 m) (param2 m)
        (set_xmm dst (load16 (mem m) (rsp m + disp)) (xmm m)) (mem m)
  | CallFunction fn =>
      (* fn(out_state = *param1, state = *param2) *)
      let out_state := aes_fn fn (load16 (mem m) (param2 m)) in
      let written := store16 (mem m) (param1 m) out_state in
      mkMachine (rsp m) junk_gpr junk_gpr junk_xmm
        (fun a => if a <? rsp m + ABI_SHADOW_SPACE then junk_mem a else written a)
  | aesimc dst src =>
      mkMachine (rsp m) (param1 m) (param2 m)
        (set_xmm dst (InvMixColumns (xmm m src)) (xmm m)) (mem m)
  end.

Definition run (code : list Instr) (m : Machine) : Machine :=
  fold_left (fun m i => exec i m) code m.

(** [EmitAESFunction]: [input] is the register [UseXmm(args[0])] answers,
    [result] the one [ScratchXmm()] answers; the routine returns the code
    and the register defined for [inst].  The register moves of
    [HostCall(nullptr)] (spills of live caller-saved registers to their
    slots) are the allocator's and leave [input] alone. *)
Definition EmitAESFunction (input result : nat) (fn : AESFn) : list Instr * nat :=
  let stack_space := 16 * 2 in
  ([ sub_rsp (stack_space + ABI_SHADOW_SPACE);
     lea_rsp ABI_PARAM1 ABI_SHADOW_SPACE;
     lea_rsp ABI_PARAM2 (ABI_SHADOW_SPACE + 16);
     movaps_store ABI_PARAM2 input;
     CallFunction fn;
     movaps_load_rsp result ABI_SHADOW_SPACE;
     (* Free memory *)
     add_rsp (stack_space + ABI_SHADOW_SPACE) ],
   result).

Definition EmitAESDecryptSingleRound (input result : nat) :=
  EmitAESFunction input result DecryptSingleRound.

Definition EmitAESEncryptSingleRound (input result : nat) :=
  EmitAESFunction input result EncryptSingleRound.

(** [EmitAESInverseMixColumns]: with AES-NI, [input] is the register
    [UseScratchXmm(args[0])] answers and [result] is not asked for. *)
Definition EmitAESInverseMixColumns (HasAESNI : bool) (input result : nat)
    : list Instr * nat :=
  if HasAESNI then
    let data := input in
    ([aesimc data data], data)
  else
    EmitAESFunction input result InverseMixColumns.

Definition EmitAESMixColumns (input result : nat) :=
  EmitAESFunction input result MixColumns.

End Lowering.

(** *** A scalar routine, for a run

    A routine for InverseMixColumns that works byte by byte, with the
    multiplication by [x] ([xtime], FIPS-197 section 4.2.1) in place of the
    division of polynomials; the other routines are not looked at by the
    run and leave the state as it is. *)
Definition xtime (x : Z) : Z :=
  Z.lxor (Z.shiftl x 1 mod 2 ^ 8) (Z.land (Z.shiftr x 7) 1 * 0x1B).

Definition Multiply (y x : Z) : Z :=
  Z.lxor
    (Z.lxor
       (Z.lxor (Z.land y 1 * x) (Z.land (Z.shiftr y 1) 1 * xtime x))
       (Z.land (Z.shiftr y 2) 1 * xtime (xtime x)))
    (Z.land (Z.shiftr y 3) 1 * xtime (xtime (xtime x))).

Definition example_aes_fn (fn : AESFn) (s : State) : State :=
  match fn with
  | InverseMixColumns => inverse_mix_columns Multiply s
  | _ => s
  end.

Definition example_state : State :=
  fun_to_vec (fun i : fin 16 =>
    Z_to_byte
      (nth (fin_to_nat i)
         [0x8E; 0x4D; 0xA1; 0xBC; 0x9F; 0xDC; 0x58; 0x9D;
          0x01; 0x01; 0x01; 0x01; 0xD5; 0xD5; 0xD7; 0xD6] 0)).

Definition example_machine : Machine :=
  mkMachine 0x8000 0 0 (fun _ => example_state) (fun _ => Byte.x00).

End AES.

(** ** The global exclusive monitor *)

Module ExclusiveMonitor.

Abbreviation VAddr := Z (only parsing).

Definition RESERVATION_GRANULE_MASK : VAddr := 0xFFFFFFFFFFFFFFFF.
Definition INVALID_EXCLUSIVE_ADDRESS : VAddr := 0xDEADDEADDEADDEAD.

(** [Vector] is [std::array<std::uint64_t, 2>], 16 bytes, kept as the
    128-bit number it is in (little endian) memory. *)
Abbreviation Vector := Z (only parsing).

Record Monitor := mkMonitor {
  is_locked : bool;
  exclusive_addresses : list VAddr;
  exclusive_values : list Vector;
}.

(** [std::memcpy(dst.data(), &value, size)]: the low [size] bytes of the
    vector are replaced; [std::memcpy(&saved, src.data(), size)] reads them. *)
Definition memcpy_to (dst : Vector) (value : Z) (size : Z) : Vector :=
  dst - dst mod 2 ^ (8 * size) + value mod 2 ^ (8 * size).

Definition memcpy_from (src : Vector) (size : Z) : Z :=
  src mod 2 ^ (8 * size).

(** Modelled from the spec: the constructor, [Lock], [Unlock],
    [CheckAndClear], [Clear] and [ClearProcessor] are declared in the header
    and defined in a file that is not among the sources.  "Operations are
    serialized by a single spinlock flag"; a processor without reservation
    has the address [INVALID_EXCLUSIVE_ADDRESS]. *)
Definition new (processor_count : nat) : Monitor :=
  mkMonitor false (replicate processor_count INVALID_EXCLUSIVE_ADDRESS)
    (replicate processor_count 0).

(** Modelled from the spec: [GetProcessorCount]. *)
Definition GetProcessorCount (m : Monitor) : nat := length (exclusive_addresses m).

(** Modelled from the spec: [Lock] takes the test-and-set flag; on a flag
    that is taken it spins, which in a run of whole operations is no step
    ([None]). *)
Definition Lock (m : Monitor) : option Monitor :=
  if is_locked m then None
  else Some (mkMonitor true (exclusive_addresses m) (exclusive_values m)).

(** Modelled from the spec: [Unlock] clears the flag. *)
Definition Unlock (m : Monitor) : Monitor :=
  mkMonitor false (exclusive_addresses m) (exclusive_values m).

(** Modelled from the spec: [CheckAndClear]. "Checks to see if processor
    processor_id has exclusive access to the specified region. If it does,
    ... clears the exclusive state for processors if their exclusive
    region(s) contain [address, address+size)."  On success it returns with
    the lock held (the caller unlocks); on failure it unlocks.  An index
    past the vector is outside the behaviour of the program ([None]). *)
Definition CheckAndClear (m : Monitor) (processor_id : nat) (address : VAddr)
    : option (bool * Monitor) :=
  let masked_address := Z.land address RESERVATION_GRANULE_MASK in
  m ← Lock m;
  a ← exclusive_addresses m !! processor_id;
  if negb (a =? masked_address) then Some (false, Unlock m)
  else
    Some (true,
          mkMonitor (is_locked m)
            ((fun other_address =>
                if other_address =? masked_address
                then INVALID_EXCLUSIVE_ADDRESS else other_address)
               <$> exclusive_addresses m)
            (exclusive_values m)).

(** Modelled from the spec: [Clear], "unmark everything". *)
Definition Clear (m : Monitor) : option Monitor :=
  m ← Lock m;
  Some (Unlock
          (mkMonitor (is_locked m)
             ((fun _ => INVALID_EXCLUSIVE_ADDRESS) <$> exclusive_addresses m)
             (exclusive_values m))).

(** Modelled from the spec: [ClearProcessor], "unmark processor id". *)
Definition ClearProcessor (m : Monitor) (processor_id : nat) : option Monitor :=
  m ← Lock m;
  _ ← exclusive_addresses m !! processor_id;
  Some (Unlock
          (mkMonitor (is_locked m)
             (<[processor_id := INVALID_EXCLUSIVE_ADDRESS]> (exclusive_addresses m))
             (exclusive_values m))).

Section Operations.

(** What the supplied operations act on (guest memory). *)
Context {World : Type}.

(** [ReadAndMark<T>]: [size] is [sizeof(T)], [op] reads the value. *)
Definition ReadAndMark (size : Z) (m : Monitor) (w : World) (processor_id : nat)
    (address : VAddr) (op : World -> Z * World) : option (Z * Monitor * World) :=
  let masked_address := Z.land address RESERVATION_GRANULE_MASK in
  m ← Lock m;
  _ ← exclusive_addresses m !! processor_id;
  let m :=
    mkMonitor (is_locked m)
      (<[processor_id := masked_address]> (exclusive_addresses m))
      (exclusive_values m) in
  let '(value, w) := op w in
  old ← exclusive_values m !! processor_id;
  let m :=
    mkMonitor (is_locked m) (exclusive_addresses m)
      (<[processor_id := memcpy_to old value size]> (exclusive_values m)) in
  let m := Unlock m in
  Some (value, m, w).

(** [DoExclusiveOperation<T>]: [op] receives the saved value and says
    whether it stored. *)
Definition DoExclusiveOperation (size : Z) (m : Monitor) (w : World)
    (processor_id : nat) (address : VAddr) (op : Z -> World -> bool * World)
    : option (bool * Monitor * World) :=
  '(held, m) ← CheckAndClear m processor_id address;
  if negb held then Some (false, m, w)
  else
    saved ← exclusive_values m !! processor_id;
    let saved_value := memcpy_from saved size in
    let '(result, w) := op saved_value w in
    let m := Unlock m in
    Some (result, m, w).

Definition masked (address : VAddr) : VAddr :=
  Z.land address RESERVATION_GRANULE_MASK.

End Operations.

(** Two operations on a guest memory of words, for the runs below: a load,
    and a store that happens if the word still has the value read. *)
Definition load_word (address : VAddr) (w : gmap Z Z) : Z * gmap Z Z :=
  (default 0 (w !! address), w).

Definition store_word_if_unchanged (address : VAddr) (value : Z) (expected : Z)
    (w : gmap Z Z) : bool * gmap Z Z :=
  if default 0 (w !! address) =? expected then (true, <[address := value]> w)
  else (false, w).

End ExclusiveMonitor.

(** ** Processors that use the monitor concurrently *)

Module ConcurrentMonitor.

Import ExclusiveMonitor.

Section Processors.

(** What the supplied operations act on (guest memory). *)
Context {World : Type}.

(** What a processor does, one after the other: a [ReadAndMark] followed by
    a [DoExclusiveOperation] on the same address, or a store that does not
    go through the monitor. *)
Inductive Item :=
| Pair (address : VAddr) (size : Z) (read : World -> Z * World)
    (store : Z -> World -> bool * World)
| Write (address : VAddr) (store : World -> World).

(** Where a processor is in its pair: the statements of [ReadAndMark] and of
    [DoExclusiveOperation] (with those of [CheckAndClear], which it calls)
    that come next, with the local variables that are live. *)
Inductive Point :=
| ReadAndMark_Lock
| ReadAndMark_mark
| ReadAndMark_op
| ReadAndMark_memcpy (value : Z)
| ReadAndMark_Unlock (value : Z)
| CheckAndClear_Lock
| CheckAndClear_check
| CheckAndClear_Unlock
| DoExclusiveOperation_memcpy
| DoExclusiveOperation_op (saved_value : Z)
| DoExclusiveOperation_Unlock (result : bool).

(** A processor: what is left of its program (the head is in progress),
    where it is in the head, and how many items it has done. *)
Record Processor := mkProcessor {
  program : list Item;
  point : Point;
  finished : nat;
}.

(** The processors are numbered by their place in the list, which is their
    id in the monitor. *)
Record System := mkSystem {
  monitor : Monitor;
  world : World;
  processors : list Processor;
}.

(** What a step of a processor was; [n] is the number of the item in the
    processor's program. *)
Inductive Label :=
| Idle (p : nat)
| Undefined (p : nat)
| Spins (p : nat)
| Locks (p : nat)
| Marks (p n : nat) (address : VAddr)
| Reads (p n : nat) (value : Z)
| Saves (p n : nat)
| ReadAndMarkReturns (p n : nat) (value : Z)
| Checks (p n : nat) (address : VAddr) (held : bool)
| Loads (p n : nat)
| StoresExclusively (p n : nat) (address : VAddr) (result : bool)
| DoExclusiveOperationReturns (p n : nat) (address : VAddr) (result : bool)
| StoresPlainly (p n : nat) (address : VAddr).

Definition at_point (pt : Point) (pr : Processor) : Processor :=
  mkProcessor (program pr) pt (finished pr).

Definition next_item (pr : Processor) : Processor :=
  mkProcessor (tail (program pr)) ReadAndMark_Lock (S (finished pr)).

(** The body of [CheckAndClear] after its [Lock()], up to the [Unlock()] of
    the failing branch. *)
Definition CheckAndClear_locked (m : Monitor) (processor_id : nat) (address : VAddr)
    : option (bool * Monitor) :=
  let masked_address := Z.land address RESERVATION_GRANULE_MASK in
  a ← exclusive_addresses m !! processor_id;
  if negb (a =? masked_address) then Some (false, m)
  else
    Some (true,
          mkMonitor (is_locked m)
            ((fun other_address =>
                if other_address =? masked_address
                then INVALID_EXCLUSIVE_ADDRESS else other_address)
               <$> exclusive_addresses m)
            (exclusive_values m)).

(** One step of processor [p]: the statement at its point.  A processor
    that has nothing left is idle; one whose [Lock()] finds the flag taken
    spins ([Lock] is the test-and-set of the flag, one step); an index past
    the vectors of the monitor is outside the behaviour of the program.
    The comparison and the clearing loop of [CheckAndClear] are one step:
    they work on the vectors of the monitor, which the member functions
    touch between [Lock()] and [Unlock()] only. *)
Definition step (p : nat) (s : System) : System * Label :=
  match processors s !! p with
  | None => (s, Idle p)
  | Some pr =>
      let m := monitor s in
      let w := world s in
      let n := finished pr in
      let continue (m : Monitor) (w : World) (pr : Processor) (l : Label) :=
        (mkSystem m w (<[p := pr]> (processors s)), l) in
      match program pr with
      | [] => (s, Idle p)
      | Write address store :: _ =>
          continue m (store w) (next_item pr) (StoresPlainly p n address)
      | Pair address size read store :: _ =>
          match point pr with
          | ReadAndMark_Lock =>
              match Lock m with
              | None => (s, Spins p)
              | Some m => continue m w (at_point ReadAndMark_mark pr) (Locks p)
              end
          | ReadAndMark_mark =>
              (* exclusive_addresses[processor_id] = masked_address; *)
              match exclusive_addresses m !! p with
              | None => (s, Undefined p)
              | Some _ =>
                  let m :=
                    mkMonitor (is_locked m)
                      (<[p := Z.land address RESERVATION_GRANULE_MASK]>
                         (exclusive_addresses m))
                      (exclusive_values m) in
                  continue m w (at_point ReadAndMark_op pr) (Marks p n address)
              end
          | ReadAndMark_op =>
              (* const T value = op(); *)
              let '(value, w) := read w in
              continue m w (at_point (ReadAndMark_memcpy value) pr) (Reads p n value)
          | ReadAndMark_memcpy value =>
              (* std::memcpy(exclusive_values[processor_id].data(), &value, sizeof(T)); *)
              match exclusive_values m !! p with
              | None => (s, Undefined p)
              | Some old =>
                  let m :=
                    mkMonitor (is_locked m) (exclusive_addresses m)
                      (<[p := memcpy_to old value size]> (exclusive_values m)) in
                  continue m w (at_point (ReadAndMark_Unlock value) pr) (Saves p n)
              end
          | ReadAndMark_Unlock value =>
              (* Unlock(); return value; *)
              continue (Unlock m) w (at_point CheckAndClear_Lock pr)
                (ReadAndMarkReturns p n value)
          | CheckAndClear_Lock =>
              match Lock m with
              | None => (s, Spins p)
              | Some m => continue m w (at_point CheckAndClear_check pr) (Locks p)
              end
          | CheckAndClear_check =>
              match CheckAndClear_locked m p address with
              | None => (s, Undefined p)
              | Some (held, m) =>
                  continue m w
                    (at_point (if held then DoExclusiveOperation_memcpy
                               else CheckAndClear_Unlock) pr)
                    (Checks p n address held)
              end
          | CheckAndClear_Unlock =>
              (* Unlock(); return false;   and   if (!CheckAndClear(...)) return false; *)
              continue (Unlock m) w (next_item pr)
                (DoExclusiveOperationReturns p n address false)
          | DoExclusiveOperation_memcpy =>
              (* std::memcpy(&saved_value, exclusive_values[processor_id].data(), sizeof(T)); *)
              match exclusive_values m !! p with
              | None => (s, Undefined p)
              | Some saved =>
                  continue m w
                    (at_point (DoExclusiveOperation_op (memcpy_from saved size)) pr)
                    (Loads p n)
              end
          | DoExclusiveOperation_op saved_value =>
              (* const bool result = op(saved_value); *)
              let '(result, w) := store saved_value w in
              continue m w (at_point (DoExclusiveOperation_Unlock result) pr)
                (StoresExclusively p n address result)
          | DoExclusiveOperation_Unlock result =>
              (* Unlock(); return result; *)
              continue (Unlock m) w (next_item pr)
                (DoExclusiveOperationReturns p n address result)
          end
      end
  end.

(** A concurrent execution: the processors take their steps in the order of
    [schedule], which is any list of processor ids. *)
Fixpoint exec (schedule : list nat) (s : System) : System * list Label :=
  match schedule with
  | [] => (s, [])
  | p :: rest =>
      let '(s, l) := step p s in
      let '(s, ls) := exec rest s in
      (s, l :: ls)
  end.

(** The processors at the start of their programs, on a monitor made for
    them. *)
Definition init (w : World) (programs : list (list Item)) : System :=
  mkSystem (new (length programs)) w
    ((fun prog => mkProcessor prog ReadAndMark_Lock 0) <$> programs).

(** The points at which a processor holds the lock. *)
Definition holding (pt : Point) : bool :=
  match pt with
  | ReadAndMark_Lock | CheckAndClear_Lock => false
  | _ => true
  end.

(** The points after the mark of [ReadAndMark] and up to the check of
    [CheckAndClear]. *)
Definition marked (pt : Point) : bool :=
  match pt with
  | ReadAndMark_op | ReadAndMark_memcpy _ | ReadAndMark_Unlock _
  | CheckAndClear_Lock | CheckAndClear_check => true
  | _ => false
  end.

(** The points of [DoExclusiveOperation] after a check that passed. *)
Definition checked (pt : Point) : bool :=
  match pt with
  | DoExclusiveOperation_memcpy | DoExclusiveOperation_op _
  | DoExclusiveOperation_Unlock _ => true
  | _ => false
  end.

(** After position [i] of the labels [tr] and before position [j], no
    processor but [P] ran the operation of a [DoExclusiveOperation] on the
    granule of [address]. *)
Definition no_other_exclusive_store (tr : list Label) (i j P : nat) (address : VAddr)
    : Prop :=
  forall (k q n : nat) (address' : VAddr) (result : bool),
    (i < k < j)%nat ->
    tr !! k = Some (StoresExclusively q n address' result) ->
    masked address' = masked address ->
    q = P.

(** The [ReadAndMark] of item [n] of processor [P] is in [tr], and no other
    processor stored exclusively to the granule since. *)
Definition linked (tr : list Label) (P n : nat) (address : VAddr) : Prop :=
  exists i : nat,
    tr !! i = Some (Marks P n address) /\
    no_other_exclusive_store tr i (length tr) P address.

(** The lock is held by one processor at most, and by none when the flag is
    clear. *)
Definition lock_discipline (s : System) : Prop :=
  (is_locked (monitor s) = false ->
   forall p pr, processors s !! p = Some pr -> holding (point pr) = false) /\
  (forall p q pr pr',
     processors s !! p = Some pr -> processors s !! q = Some pr' ->
     holding (point pr) = true -> holding (point pr') = true -> p = q).

(** While a processor is past its check, no processor has the granule
    marked. *)
Definition checked_exclusive (s : System) : Prop :=
  forall p pr address size read store rest,
    processors s !! p = Some pr ->
    program pr = Pair address size read store :: rest ->
    checked (point pr) = true ->
    masked address <> INVALID_EXCLUSIVE_ADDRESS ->
    forall q, exclusive_addresses (monitor s) !! q <> Some (masked address).

(** A processor whose mark stands, or that is past its check, is linked to
    its [ReadAndMark]. *)
Definition reservations_linked (s : System) (tr : list Label) : Prop :=
  forall p pr address size read store rest,
    processors s !! p = Some pr ->
    program pr = Pair address size read store :: rest ->
    masked address <> INVALID_EXCLUSIVE_ADDRESS ->
    (marked (point pr) = true /\
     exclusive_addresses (monitor s) !! p = Some (masked address) \/
     checked (point pr) = true) ->
    linked tr p (finished pr) address.

(** What the claim says of the labels [tr] of an execution. *)
Definition exclusive_success_is_undisturbed (tr : list Label) : Prop :=
  forall (j P n : nat) (address : VAddr),
    tr !! j = Some (DoExclusiveOperationReturns P n address true) ->
    masked address <> INVALID_EXCLUSIVE_ADDRESS ->
    exists i : nat,
      (i < j)%nat /\
      tr !! i = Some (Marks P n address) /\
      no_other_exclusive_store tr i j P address.

(** What every concurrent execution keeps, [tr] being the labels of the
    steps taken. *)
Definition invariant (s : System) (tr : list Label) : Prop :=
  lock_discipline s /\ checked_exclusive s /\ reservations_linked s tr /\
  exclusive_success_is_undisturbed tr.

End Processors.

(** A store of a word that does not look at the value saved, for the runs
    below. *)
Definition store_word (address : VAddr) (value : Z) (saved_value : Z) (w : gmap Z Z)
    : bool * gmap Z Z :=
  (true, <[address := value]> w).

End ConcurrentMonitor.

(** ** The A64 backend: the guest state accessors of [A32EmitA64] *)

Module A32Guest.

(** An argument of an IR instruction as the register allocator presents it:
    an immediate, or a value held in a general purpose or in a floating
    point register (the 64 bits of the register).  [Imm] is the type of the
    immediate: [bool] for a [U1], [Z] for a [U32]. *)
Inductive Argument (Imm : Type) :=
| Immediate (imm : Imm)
| InGpr (value : Z)
| InFpr (value : Z).
Arguments Immediate {Imm}.
Arguments InGpr {Imm}.
Arguments InFpr {Imm}.

Definition IsImmediate {Imm : Type} (arg : Argument Imm) : bool :=
  match arg with Immediate _ => true | _ => false end.

Definition IsInFpr {Imm : Type} (arg : Argument Imm) : bool :=
  match arg with InFpr _ => true | _ => false end.

(** [UseGpr], [UseScratchGpr] and [UseFpr] answer a register that holds the
    argument: an immediate is loaded as the 64-bit constant it is. *)
Definition UseGprU1 (arg : Argument bool) : Z :=
  match arg with Immediate imm => Z.b2z imm | InGpr v | InFpr v => v end.

Definition UseGpr (arg : Argument Z) : Z :=
  match arg with Immediate imm => X64.rd 64 imm | InGpr v | InFpr v => v end.

(** *** The host instructions

    [DecodeReg] takes the 32-bit view [W] of a register; an instruction on
    [W] registers computes on the low 32 bits and clears the upper half of
    its destination.  [size] is the width of the destination. *)
Definition DecodeReg (x : Z) : Z := X64.rd 32 x.

Definition MOVI2R (size : Z) (imm : Z) : Z := X64.rd size imm.
Definition ANDI2R (size : Z) (rn imm : Z) : Z := Z.land (X64.rd size rn) (X64.rd size imm).
Definition ORRI2R (size : Z) (rn imm : Z) : Z := Z.lor (X64.rd size rn) (X64.rd size imm).
Definition AND (size : Z) (rn rm : Z) : Z := Z.land (X64.rd size rn) (X64.rd size rm).
Definition ORR (size : Z) (rn rm : Z) : Z := Z.lor (X64.rd size rn) (X64.rd size rm).
Definition EOR (size : Z) (rn rm : Z) : Z := Z.lxor (X64.rd size rn) (X64.rd size rm).
Definition ADD (size : Z) (rn rm : Z) : Z := X64.rd size (X64.rd size rn + X64.rd size rm).
Definition SUBI2R (size : Z) (rn imm : Z) : Z := X64.rd size (X64.rd size rn - imm).
Definition MUL (size : Z) (rn rm : Z) : Z := X64.rd size (X64.rd size rn * X64.rd size rm).
Definition LSL (size : Z) (rn shift : Z) : Z := X64.rd size (Z.shiftl (X64.rd size rn) shift).

(** [ORR Rd, Rn, Rm, LSL #shift]. *)
Definition ORR_LSL (size : Z) (rn rm shift : Z) : Z :=
  Z.lor (X64.rd size rn) (X64.rd size (Z.shiftl (X64.rd size rm) shift)).

(** [UBFX Rd, Rn, #lsb, #width]: the bit field, zero extended. *)
Definition UBFX (size : Z) (rn lsb width : Z) : Z :=
  Z.land (Z.shiftr (X64.rd size rn) lsb) (Z.ones width).

(** [BFI Rd, Rn, #lsb, #width]: the low [width] bits of [Rn] replace the
    bits of [Rd] from [lsb] on. *)
Definition BFI (size : Z) (rd_ rn lsb width : Z) : Z :=
  Z.lor (Z.land (X64.rd size rd_) (Z.lnot (Z.shiftl (Z.ones width) lsb)))
        (X64.rd size (Z.shiftl (Z.land rn (Z.ones width)) lsb)).

(** [TSTI2R Rn, imm] sets the flags of [Rn & imm]; [B(CC_NEQ)] is taken
    when the result is not zero. *)
Definition TSTI2R_NEQ (size : Z) (rn imm : Z) : bool :=
  negb (Z.land (X64.rd size rn) (X64.rd size imm) =? 0).

(** [CBZ Rt] is taken when the register is zero. *)
Definition CBZ (size : Z) (rt : Z) : bool := X64.rd size rt =? 0.

(** *** The guest state

    The fields of [A32JitState] the accessors below address through [X28]
    (the guest PC, the upper location descriptor and the return stack
    buffer are kept in [BackendA64.A32JitState]).  [ExtReg offset] is the
    32-bit word at [offset] bytes into the array [ExtReg]. *)
Inductive Field :=
| cpsr_nzcv
| cpsr_q
| cpsr_ge
| fpsr_nzcv
| check_bit
| halt_requested
| exclusive_state
| exclusive_address
| ExtReg (offset : Z).

#[global] Instance Field_eq_dec : EqDecision Field.
Proof. solve_decision. Defined.

(** The state maps a field to the word (for [check_bit] and
    [halt_requested], the byte) stored there. *)
Definition A32JitState := Field -> Z.

(** [LDR(INDEX_UNSIGNED, Wt, X28, offsetof(A32JitState, field))] and the
    store of a [W] (or [S]) register. *)
Definition LDR (st : A32JitState) (field : Field) : Z := X64.rd 32 (st field).

Definition STR (value : Z) (field : Field) (st : A32JitState) : A32JitState :=
  fun f => if decide (f = field) then X64.rd 32 value else st f.

(** [LDRB] and [STRB]. *)
Definition LDRB (st : A32JitState) (field : Field) : Z := X64.rd 8 (st field).

Definition STRB (value : Z) (field : Field) (st : A32JitState) : A32JitState :=
  fun f => if decide (f = field) then X64.rd 8 value else st f.

(** The 64-bit load and store of an [X] (or [D]) register at [offset] bytes
    into [ExtReg]: two words, the low one first. *)
Definition LDR64 (st : A32JitState) (offset : Z) : Z :=
  X64.rd 32 (st (ExtReg offset)) + 2 ^ 32 * X64.rd 32 (st (ExtReg (offset + 4))).

Definition STR64 (value : Z) (offset : Z) (st : A32JitState) : A32JitState :=
  STR (Z.shiftr (X64.rd 64 value) 32) (ExtReg (offset + 4))
    (STR value (ExtReg offset) st).

(** *** The extended registers *)

(** [A32::ExtReg]: the single registers [S0 + index] and the double
    registers [D0 + index]. *)
Inductive ExtRegRef :=
| SReg (index : nat)
| DReg (index : nat).

Definition IsSingleExtReg (reg : ExtRegRef) : bool :=
  match reg with SReg _ => true | DReg _ => false end.

Definition IsDoubleExtReg (reg : ExtRegRef) : bool :=
  match reg with SReg _ => false | DReg _ => true end.

(** [MJitStateExtReg], less [offsetof(A32JitState, ExtReg)]. *)
Definition MJitStateExtReg (reg : ExtRegRef) : Z :=
  match reg with
  | SReg index => 4 * Z.of_nat index
  | DReg index => 8 * Z.of_nat index
  end.

(** The getters define the value loaded; [None] is the failed [ASSERT]. *)
Definition EmitA32GetExtendedRegister32 (reg : ExtRegRef) (st : A32JitState) : option Z :=
  if IsSingleExtReg reg then Some (LDR st (ExtReg (MJitStateExtReg reg))) else None.

Definition EmitA32GetExtendedRegister64 (reg : ExtRegRef) (st : A32JitState) : option Z :=
  if IsDoubleExtReg reg then Some (LDR64 st (MJitStateExtReg reg)) else None.

Definition EmitA32SetExtendedRegister32 (reg : ExtRegRef) (arg : Argument Z)
    (st : A32JitState) : option A32JitState :=
  if IsSingleExtReg reg then
    if IsInFpr arg then
      let to_store := UseGpr arg in
      Some (STR to_store (ExtReg (MJitStateExtReg reg)) st)
    else
      let to_store := DecodeReg (UseGpr arg) in
      Some (STR to_store (ExtReg (MJitStateExtReg reg)) st)
  else None.

Definition EmitA32SetExtendedRegister64 (reg : ExtRegRef) (arg : Argument Z)
    (st : A32JitState) : option A32JitState :=
  if IsDoubleExtReg reg then
    if IsInFpr arg then
      let to_store := UseGpr arg in
      Some (STR64 to_store (MJitStateExtReg reg) st)
    else
      let to_store := UseGpr arg in
      Some (STR64 to_store (MJitStateExtReg reg) st)
  else None.

(** *** The condition flags *)

Definition EmitA32SetCpsrNZCVRaw (arg : Argument Z) (st : A32JitState) : A32JitState :=
  let a := DecodeReg (UseGpr arg) in
  let a := ANDI2R 32 a 0xF0000000 in
  STR a cpsr_nzcv st.

Definition EmitA32SetCpsrNZCV (arg : Argument Z) (st : A32JitState) : A32JitState :=
  EmitA32SetCpsrNZCVRaw arg st.

(** The host's [FPSR] is threaded next to the guest state. *)
Definition EmitA32SetCpsrNZCVQ (arg : Argument Z) (st : A32JitState) (FPSR : Z)
    : A32JitState * Z :=
  let st :=
    match arg with
    | Immediate imm =>
        let imm := X64.rd 32 imm in
        let a := MOVI2R 32 (X64.rd 32 (Z.land imm 0xF0000000)) in
        let st := STR a cpsr_nzcv st in
        let a := MOVI2R 32 (X64.rd 8 (if negb (Z.land imm 0x08000000 =? 0) then 1 else 0)) in
        STR a cpsr_q st
    | _ =>
        let a := DecodeReg (UseGpr arg) in
        let q := UBFX 32 a 27 1 in
        let st := STR q cpsr_q st in
        let a := ANDI2R 32 a 0xF0000000 in
        STR a cpsr_nzcv st
    end in
  let host_fpsr := X64.rd 64 FPSR in
  let host_fpsr := ANDI2R 64 host_fpsr (Z.lnot (Z.shiftl 1 27)) in
  (st, host_fpsr).

Definition EmitA32GetNFlag (st : A32JitState) : Z :=
  let result := LDR st cpsr_nzcv in
  UBFX 32 result 31 1.

Definition EmitA32SetNFlag (arg : Argument bool) (st : A32JitState) : A32JitState :=
  let flag_bit := 31 in
  let flag_mask := X64.rd 32 (Z.shiftl 1 flag_bit) in
  let nzcv := LDR st cpsr_nzcv in
  let nzcv :=
    match arg with
    | Immediate imm =>
        if imm then ORRI2R 32 nzcv flag_mask
        else ANDI2R 32 nzcv (Z.lnot flag_mask)
    | _ =>
        let to_store := DecodeReg (UseGprU1 arg) in
        BFI 32 nzcv to_store flag_bit 1
    end in
  STR nzcv cpsr_nzcv st.

Definition EmitA32GetZFlag (st : A32JitState) : Z :=
  let result := LDR st cpsr_nzcv in
  UBFX 32 result 30 1.

Definition EmitA32SetZFlag (arg : Argument bool) (st : A32JitState) : A32JitState :=
  let flag_bit := 30 in
  let flag_mask := X64.rd 32 (Z.shiftl 1 flag_bit) in
  let nzcv := LDR st cpsr_nzcv in
  let nzcv :=
    match arg with
    | Immediate imm =>
        if imm then ORRI2R 32 nzcv flag_mask
        else ANDI2R 32 nzcv (Z.lnot flag_mask)
    | _ =>
        let to_store := DecodeReg (UseGprU1 arg) in
        BFI 32 nzcv to_store flag_bit 1
    end in
  STR nzcv cpsr_nzcv st.

Definition EmitA32SetCheckBit (arg : Argument bool) (st : A32JitState) : A32JitState :=
  let to_store := DecodeReg (UseGprU1 arg) in
  STRB to_store check_bit st.

Definition EmitA32GetCFlag (st : A32JitState) : Z :=
  let result := LDR st cpsr_nzcv in
  UBFX 32 result 29 1.

Definition EmitA32SetCFlag (arg : Argument bool) (st : A32JitState) : A32JitState :=
  let flag_bit := 29 in
  let flag_mask := X64.rd 32 (Z.shiftl 1 flag_bit) in
  let nzcv := LDR st cpsr_nzcv in
  let nzcv :=
    match arg with
    | Immediate imm =>
        if imm then ORRI2R 32 nzcv flag_mask
        else ANDI2R 32 nzcv (Z.lnot flag_mask)
    | _ =>
        let to_store := DecodeReg (UseGprU1 arg) in
        BFI 32 nzcv to_store flag_bit 1
    end in
  STR nzcv cpsr_nzcv st.

Definition EmitA32GetVFlag (st : A32JitState) : Z :=
  let result := LDR st cpsr_nzcv in
  UBFX 32 result 28 1.

Definition EmitA32SetVFlag (arg : Argument bool) (st : A32JitState) : A32JitState :=
  let flag_bit := 28 in
  let flag_mask := X64.rd 32 (Z.shiftl 1 flag_bit) in
  let nzcv := LDR st cpsr_nzcv in
  let nzcv :=
    match arg with
    | Immediate imm =>
        if imm then ORRI2R 32 nzcv flag_mask
        else ANDI2R 32 nzcv (Z.lnot flag_mask)
    | _ =>
        let to_store := DecodeReg (UseGprU1 arg) in
        BFI 32 nzcv to_store flag_bit 1
    end in
  STR nzcv cpsr_nzcv st.

Definition EmitA32OrQFlag (arg : Argument bool) (st : A32JitState) : A32JitState :=
  match arg with
  | Immediate imm =>
      if imm then
        let to_store := DecodeReg (UseGprU1 arg) in
        STR to_store cpsr_q st
      else st
  | _ =>
      let to_store := UseGprU1 arg in
      let scratch := LDR st cpsr_q in
      let scratch := ORR 32 scratch to_store in
      STR scratch cpsr_q st
  end.

(** The four getters and the four setters, by flag. *)
Inductive Flag := FlagN | FlagZ | FlagC | FlagV.

#[global] Instance Flag_eq_dec : EqDecision Flag.
Proof. solve_decision. Defined.

Definition flag_bit (f : Flag) : Z :=
  match f with FlagN => 31 | FlagZ => 30 | FlagC => 29 | FlagV => 28 end.

Definition EmitA32GetFlag (f : Flag) : A32JitState -> Z :=
  match f with
  | FlagN => EmitA32GetNFlag
  | FlagZ => EmitA32GetZFlag
  | FlagC => EmitA32GetCFlag
  | FlagV => EmitA32GetVFlag
  end.

Definition EmitA32SetFlag (f : Flag) : Argument bool -> A32JitState -> A32JitState :=
  match f with
  | FlagN => EmitA32SetNFlag
  | FlagZ => EmitA32SetZFlag
  | FlagC => EmitA32SetCFlag
  | FlagV => EmitA32SetVFlag
  end.

(** The bit an argument of type [U1] carries: the immediate, or bit 0 of
    the register. *)
Definition bit_of (arg : Argument bool) : bool :=
  match arg with Immediate imm => imm | InGpr v | InFpr v => Z.testbit v 0 end.

(** *** The GE flags *)

Definition EmitA32GetGEFlags (st : A32JitState) : Z :=
  LDR st cpsr_ge.

(** [None] is the failed [ASSERT]. *)
Definition EmitA32SetGEFlags (arg : Argument Z) (st : A32JitState) : option A32JitState :=
  if negb (IsImmediate arg) then
    let to_store := if IsInFpr arg then UseGpr arg else DecodeReg (UseGpr arg) in
    Some (STR to_store cpsr_ge st)
  else None.

Definition EmitA32SetGEFlagsCompressed (arg : Argument Z) (st : A32JitState) : A32JitState :=
  match arg with
  | Immediate imm =>
      let imm := X64.rd 32 imm in
      let ge := 0 in
      let ge := Z.lor ge (if Z.testbit imm 19 then 0xFF000000 else 0) in
      let ge := Z.lor ge (if Z.testbit imm 18 then 0x00FF0000 else 0) in
      let ge := Z.lor ge (if Z.testbit imm 17 then 0x0000FF00 else 0) in
      let ge := Z.lor ge (if Z.testbit imm 16 then 0x000000FF else 0) in
      let to_store := MOVI2R 32 ge in
      STR to_store cpsr_ge st
  | _ =>
      let a := DecodeReg (UseGpr arg) in
      let a := UBFX 32 a 16 4 in
      let scratch := MOVI2R 32 0x00204081 in
      let a := MUL 32 a scratch in
      let a := ANDI2R 32 a 0x01010101 in
      let a := ORR_LSL 32 a a 1 in
      STR a cpsr_ge st
  end.

(** *** Branch and exchange *)

(** [EmitA32BXWritePC]: [upper] is
    [ctx.Location().SetSingleStepping(false).UniqueHash() >> 32]; the code
    writes the guest PC and the upper location descriptor. *)
Definition EmitA32BXWritePC (upper : Z) (arg : Argument Z)
    (j : BackendA64.A32JitState) : BackendA64.A32JitState :=
  let upper_without_t := X64.rd 32 (Z.land (X64.rd 32 upper) 0xFFFFFFFE) in
  match arg with
  | Immediate imm =>
      let new_pc := X64.rd 32 imm in
      let mask := if Z.testbit new_pc 0 then 0xFFFFFFFE else 0xFFFFFFFC in
      let new_upper := Z.lor upper_without_t (if Z.testbit new_pc 0 then 1 else 0) in
      let scratch := MOVI2R 32 (Z.land new_pc mask) in
      let j :=
        BackendA64.mkA32JitState (X64.rd 32 scratch)
          (BackendA64.upper_location_descriptor j) (BackendA64.rsb_ptr j)
          (BackendA64.rsb_location_descriptors j) (BackendA64.rsb_codeptrs j) in
      let scratch := MOVI2R 32 new_upper in
      BackendA64.mkA32JitState (BackendA64.Reg_PC j) (X64.rd 32 scratch)
        (BackendA64.rsb_ptr j) (BackendA64.rsb_location_descriptors j)
        (BackendA64.rsb_codeptrs j)
  | _ =>
      let new_pc := DecodeReg (UseGpr arg) in
      let mask := ANDI2R 32 new_pc 1 in
      let new_upper := MOVI2R 32 upper_without_t in
      let new_upper := ADD 32 new_upper mask in
      let j :=
        BackendA64.mkA32JitState (BackendA64.Reg_PC j) (X64.rd 32 new_upper)
          (BackendA64.rsb_ptr j) (BackendA64.rsb_location_descriptors j)
          (BackendA64.rsb_codeptrs j) in
      let mask := LSL 32 mask 1 in
      let mask := SUBI2R 32 mask 4 in (* mask = pc & 1 ? 0xFFFFFFFE : 0xFFFFFFFC *)
      let new_pc := AND 32 new_pc mask in
      BackendA64.mkA32JitState (X64.rd 32 new_pc)
        (BackendA64.upper_location_descriptor j) (BackendA64.rsb_ptr j)
        (BackendA64.rsb_location_descriptors j) (BackendA64.rsb_codeptrs j)
  end.

(** *** The local exclusive monitor *)

Definition EmitA32ClearExclusive (st : A32JitState) : A32JitState :=
  STR 0 exclusive_state st.

(** [None] is the failed [ASSERT] on the second argument (the size). *)
Definition EmitA32SetExclusive (address size : Argument Z) (st : A32JitState)
    : option A32JitState :=
  if IsImmediate size then
    let address := DecodeReg (UseGpr address) in
    let state := MOVI2R 32 (X64.rd 8 1) in
    let st := STR state exclusive_state st in
    Some (STR address exclusive_address st)
  else None.

Section ExclusiveWrite.

(** What the memory callbacks act on. *)
Context {World : Type}.

(** [A32JitState::RESERVATION_GRANULE_MASK] (the header is not among the
    sources). *)
Variable RESERVATION_GRANULE_MASK : Z.

(** Two addresses lie in the same reservation granule. *)
Definition same_granule (a b : Z) : Prop :=
  Z.land (X64.rd 32 a) (X64.rd 32 RESERVATION_GRANULE_MASK)
  = Z.land (X64.rd 32 b) (X64.rd 32 RESERVATION_GRANULE_MASK).

(** [ExclusiveWrite<T, fn>]: [fn] is the user's [MemoryWrite] callback for
    [T], [bit_size] the width of [T]; the address arrives in [ABI_PARAM2],
    the value in [ABI_PARAM3].  The routine defines [passed]. *)
Definition ExclusiveWrite (bit_size : Z) (fn : Z -> Z -> World -> World)
    (vaddr value : Argument Z) (st : A32JitState) (w : World)
    : Z * A32JitState * World :=
  let ABI_PARAM2 := UseGpr vaddr in
  let ABI_PARAM3 := UseGpr value in
  let passed := MOVI2R 32 (X64.rd 32 1) in
  let tmp := LDR st exclusive_state in
  if CBZ 32 tmp then (passed, st, w)
  else
    let tmp := LDR st exclusive_address in
    let tmp := EOR 32 ABI_PARAM2 tmp in
    if TSTI2R_NEQ 32 tmp RESERVATION_GRANULE_MASK then (passed, st, w)
    else
      let st := STR 0 exclusive_state st in
      let w := fn (X64.rd 32 ABI_PARAM2) (X64.rd bit_size ABI_PARAM3) w in
      let passed := MOVI2R 32 0 in
      (passed, st, w).

Definition EmitA32ExclusiveWriteMemory8 (MemoryWrite8 : Z -> Z -> World -> World) :=
  ExclusiveWrite 8 MemoryWrite8.
Definition EmitA32ExclusiveWriteMemory16 (MemoryWrite16 : Z -> Z -> World -> World) :=
  ExclusiveWrite 16 MemoryWrite16.
Definition EmitA32ExclusiveWriteMemory32 (MemoryWrite32 : Z -> Z -> World -> World) :=
  ExclusiveWrite 32 MemoryWrite32.
Definition EmitA32ExclusiveWriteMemory64 (MemoryWrite64 : Z -> Z -> World -> World) :=
  ExclusiveWrite 64 MemoryWrite64.

End ExclusiveWrite.

End A32Guest.

(** ** The A64 backend: the block terminals of [A32EmitA64] *)

Module A32Terminals.
Import BackendA64.

(** The host state at the end of a block, with the guest state fields the
    terminals read next to those of [Host]. *)
Record Machine := mkMachine {
  host : Host;
  guest : A32Guest.A32JitState;
}.

(** Terminal code leaves through a branch to a host address. *)
Inductive Leave := LeaveTo (target : CodePtr) (m : Machine).
Definition TerminalCode := Machine -> Leave.

(** Code that touches the [Host] part only. *)
Definition on_host (c : Code) : TerminalCode :=
  fun m => match c (host m) with Exit target h => LeaveTo target (mkMachine h (guest m)) end.

Definition set_SCRATCH1 (value : Z) (h : Host) : Host :=
  mkHost (X26 h) value (nzcv h) (jit h).

Definition set_jit (j : A32JitState) (h : Host) : Host :=
  mkHost (X26 h) (SCRATCH1 h) (nzcv h) j.

(** [STR(INDEX_UNSIGNED, Wt, X28, MJitStateReg(A32::Reg::PC))] for a
    register that is not kept in [Host]. *)
Definition STR_PC (value : Z) (h : Host) : Host :=
  let j := jit h in
  set_jit (mkA32JitState (X64.rd 32 value) (upper_location_descriptor j)
             (rsb_ptr j) (rsb_location_descriptors j) (rsb_codeptrs j)) h.

Definition STR_rsb_ptr (value : Z) (h : Host) : Host :=
  let j := jit h in
  set_jit (mkA32JitState (Reg_PC j) (upper_location_descriptor j)
             (X64.rd 32 value) (rsb_location_descriptors j) (rsb_codeptrs j)) h.

(** [patch_information[target].jmp.emplace_back(location)]. *)
Definition record_jmp (target : LocationDescriptor) (location : CodePtr)
    (e : A32EmitA64) : A32EmitA64 :=
  let info := default (mkPatchInformation [] [] []) (patch_information e !! target) in
  set_patch_information
    (<[target := mkPatchInformation (jg info) (jmp info ++ [location]) (mov_x0 info)]>
       (patch_information e)) e.

(** [IR::Term::Terminal]: the variants the emitter has an overload for. *)
Inductive Term (Cond : Type) :=
| Interpret (next : LocationDescriptor) (num_instructions : Z)
| ReturnToDispatch
| LinkBlock (next : LocationDescriptor)
| LinkBlockFast (next : LocationDescriptor)
| PopRSBHint
| FastDispatchHint
| If (if_ : Cond) (then_ else_ : Term Cond)
| CheckBit (then_ else_ : Term Cond)
| CheckHalt (else_ : Term Cond).
Arguments Interpret {Cond}.
Arguments ReturnToDispatch {Cond}.
Arguments LinkBlock {Cond}.
Arguments LinkBlockFast {Cond}.
Arguments PopRSBHint {Cond}.
Arguments FastDispatchHint {Cond}.
Arguments If {Cond}.
Arguments CheckBit {Cond}.
Arguments CheckHalt {Cond}.

Section Terminals.

(** Declarations that are not among the sources, as for the [LinkBlock]
    terminal: the guest PC of a descriptor, its upper half, the
    dispatcher's return addresses, the RSB index mask, the host bytes of a
    [MOVI2R] and of [PushRSBHelper]. *)
Variable PC : LocationDescriptor -> Z.
Variable UniqueHash_upper : LocationDescriptor -> Z.
Variable ReturnFromRunCodeAddress : CodePtr.
Variable ForceReturnFromRunCodeAddress : CodePtr.
Variable RSBPtrMask : Z.
Variable MOVI2R_size : Z -> Z.
Variable PushRSBHelper_size : Z.

(** The address [code.ReturnFromRunCode(true)] branches to, the flags
    [TFlag()] and [EFlag()] of a descriptor, [config.enable_fast_dispatch],
    and the two handlers [GenTerminalHandlers] emitted. *)
Variable ReturnFromRunCodeAddress_fpscr_already_exited : CodePtr.
Variable TFlag EFlag : LocationDescriptor -> bool.
Variable enable_fast_dispatch : bool.
Variable terminal_handler_pop_rsb_hint : CodePtr.
Variable terminal_handler_fast_dispatch_hint : CodePtr.

(** [EmitA64::EmitCond] (base class): the code tests the guest flags for
    the condition and branches when it passes; it may change host scratch
    registers and flags.  [IR::Cond] is the type of conditions. *)
Context {Cond : Type}.
Variable EmitCond : Cond -> Machine -> bool * Machine.
Variable EmitCond_size : Cond -> Z.

(** [code.SwitchFpscrOnExit()] and the call of the user's
    [InterpreterFallback(pc, num_instructions)], with the host bytes of
    each. *)
Variable SwitchFpscrOnExit : Machine -> Machine.
Variable SwitchFpscrOnExit_size : Z.
Variable InterpreterFallback : Z -> Z -> Machine -> Machine.
Variable EmitCall_size : Z.

Local Abbreviation ReturnFromRunCode := (ReturnFromRunCode ReturnFromRunCodeAddress).
Local Abbreviation EmitSetUpperLocationDescriptor :=
  (EmitSetUpperLocationDescriptor UniqueHash_upper MOVI2R_size).

(** [EmitTerminalImpl(IR::Term::Interpret ...)]; [None] is a failed
    [ASSERT_MSG]. *)
Definition EmitTerminalImpl_Interpret (next : LocationDescriptor) (num_instructions : Z)
    (initial_location : LocationDescriptor) (e : A32EmitA64)
    : option (A32EmitA64 * TerminalCode) :=
  if negb (Bool.eqb (TFlag next) (TFlag initial_location)) then None
  else if negb (Bool.eqb (EFlag next) (EFlag initial_location)) then None
  else
    let e := emit (MOVI2R_size (PC next)) e in
    let e := emit (MOVI2R_size num_instructions) e in
    let e := emit 4 e in
    let e := emit SwitchFpscrOnExit_size e in
    let e := emit EmitCall_size e in
    let e := emit 4 e in
    Some (e, fun m =>
      let ABI_PARAM2 := A32Guest.MOVI2R 32 (PC next) in
      let ABI_PARAM3 := A32Guest.MOVI2R 32 num_instructions in
      let m := mkMachine (STR_PC ABI_PARAM2 (host m)) (guest m) in
      let m := SwitchFpscrOnExit m in
      let m := InterpreterFallback ABI_PARAM2 ABI_PARAM3 m in
      LeaveTo ReturnFromRunCodeAddress_fpscr_already_exited m).

Definition EmitTerminalImpl_ReturnToDispatch (e : A32EmitA64) : A32EmitA64 * TerminalCode :=
  (emit 4 e, on_host ReturnFromRunCode).

(** [EmitPatchJmp]; a null [target_code_ptr] (the default argument) is [0]. *)
Definition EmitPatchJmp (target_desc : LocationDescriptor) (target_code_ptr : CodePtr)
    (e : A32EmitA64) : A32EmitA64 * Code :=
  let patch_location := code_ptr e in
  let '(e, site) :=
    if negb (target_code_ptr =? 0) then
      (emit 4 e, Exit target_code_ptr)
    else
      let e := emit (MOVI2R_size (PC target_desc)) e in
      let e := emit 4 e in
      let e := emit 4 e in
      (e, fun h => Exit ReturnFromRunCodeAddress
                     (STR_SCRATCH1_PC (MOVI2R_SCRATCH1 (PC target_desc) h))) in
  (EnsurePatchLocationSize patch_location 20 e, site).

(** [EmitPatchMovX0]: the code defines [X0]. *)
Definition EmitPatchMovX0 (target_code_ptr : CodePtr) (e : A32EmitA64)
    : A32EmitA64 * Z :=
  let target_code_ptr :=
    if negb (target_code_ptr =? 0) then target_code_ptr else ReturnFromRunCodeAddress in
  let patch_location := code_ptr e in
  let e := emit (MOVI2R_size target_code_ptr) e in
  (EnsurePatchLocationSize patch_location 16 e, X64.rd 64 target_code_ptr).

Definition EmitTerminalImpl_LinkBlockFast (next initial_location : LocationDescriptor)
    (is_single_step : bool) (e : A32EmitA64) : A32EmitA64 * TerminalCode :=
  let '(e, set_upper) := EmitSetUpperLocationDescriptor next initial_location e in
  if negb (enable_optimizations e) || is_single_step then
    let e := emit (MOVI2R_size (PC next)) e in
    let e := emit 4 e in
    let e := emit 4 e in
    (e, on_host (fun h =>
          ReturnFromRunCode (STR_SCRATCH1_PC (MOVI2R_SCRATCH1 (PC next) (set_upper h)))))
  else
    let e := record_jmp next (code_ptr e) e in
    let '(e, patch_site) :=
      match GetBasicBlock e next with
      | Some next_bb => EmitPatchJmp next (entrypoint next_bb) e
      | None => EmitPatchJmp next 0 e
      end in
    (e, on_host (fun h => patch_site (set_upper h))).

Definition EmitTerminalImpl_PopRSBHint (is_single_step : bool) (e : A32EmitA64)
    : A32EmitA64 * TerminalCode :=
  if negb (enable_optimizations e) || is_single_step then
    (emit 4 e, on_host ReturnFromRunCode)
  else
    (emit 4 e, LeaveTo terminal_handler_pop_rsb_hint).

Definition EmitTerminalImpl_FastDispatchHint (is_single_step : bool) (e : A32EmitA64)
    : A32EmitA64 * TerminalCode :=
  if enable_fast_dispatch && negb is_single_step then
    (emit 4 e, LeaveTo terminal_handler_fast_dispatch_hint)
  else
    (emit 4 e, on_host ReturnFromRunCode).

(** The three overloads that emit other terminals receive [EmitTerminal],
    the dispatch on the variant. *)
Definition Emitter :=
  Term Cond -> LocationDescriptor -> bool -> A32EmitA64
  -> option (A32EmitA64 * TerminalCode).

Definition EmitTerminalImpl_If (EmitTerminal : Emitter) (if_ : Cond)
    (then_ else_ : Term Cond) (initial_location : LocationDescriptor)
    (is_single_step : bool) (e : A32EmitA64) : option (A32EmitA64 * TerminalCode) :=
  let e := emit (EmitCond_size if_) e in
  '(e, else_code) ← EmitTerminal else_ initial_location is_single_step e;
  '(e, then_code) ← EmitTerminal then_ initial_location is_single_step e;
  Some (e, fun m =>
    let '(pass, m) := EmitCond if_ m in
    if pass then then_code m else else_code m).

Definition EmitTerminalImpl_CheckBit (EmitTerminal : Emitter)
    (then_ else_ : Term Cond) (initial_location : LocationDescriptor)
    (is_single_step : bool) (e : A32EmitA64) : option (A32EmitA64 * TerminalCode) :=
  let e := emit 4 e in
  let e := emit 4 e in
  '(e, then_code) ← EmitTerminal then_ initial_location is_single_step e;
  '(e, else_code) ← EmitTerminal else_ initial_location is_single_step e;
  Some (e, fun m =>
    let scratch := A32Guest.LDRB (guest m) A32Guest.check_bit in
    let m := mkMachine (set_SCRATCH1 scratch (host m)) (guest m) in
    if A32Guest.CBZ 32 scratch then else_code m else then_code m).

Definition EmitTerminalImpl_CheckHalt (EmitTerminal : Emitter)
    (else_ : Term Cond) (initial_location : LocationDescriptor)
    (is_single_step : bool) (e : A32EmitA64) : option (A32EmitA64 * TerminalCode) :=
  let e := emit 4 e in
  (* Conditional branch only gives +/- 1MB of branch distance *)
  let e := emit 4 e in
  let e := emit 4 e in
  '(e, else_code) ← EmitTerminal else_ initial_location is_single_step e;
  Some (e, fun m =>
    let scratch := A32Guest.LDRB (guest m) A32Guest.halt_requested in
    let m := mkMachine (set_SCRATCH1 scratch (host m)) (guest m) in
    if A32Guest.CBZ 32 scratch then else_code m
    else LeaveTo ForceReturnFromRunCodeAddress m).

(** Modelled from the spec: [EmitA64::EmitTerminal] (base class) calls the
    overload of [EmitTerminalImpl] for the terminal's variant. *)
Fixpoint EmitTerminal (terminal : Term Cond) (initial_location : LocationDescriptor)
    (is_single_step : bool) (e : A32EmitA64) {struct terminal}
    : option (A32EmitA64 * TerminalCode) :=
  match terminal with
  | Interpret next num_instructions =>
      EmitTerminalImpl_Interpret next num_instructions initial_location e
  | ReturnToDispatch => Some (EmitTerminalImpl_ReturnToDispatch e)
  | LinkBlock next =>
      let '(e, code) :=
        EmitTerminalImpl_LinkBlock PC UniqueHash_upper ReturnFromRunCodeAddress
          ForceReturnFromRunCodeAddress RSBPtrMask MOVI2R_size PushRSBHelper_size
          next initial_location is_single_step e in
      Some (e, on_host code)
  | LinkBlockFast next =>
      Some (EmitTerminalImpl_LinkBlockFast next initial_location is_single_step e)
  | PopRSBHint => Some (EmitTerminalImpl_PopRSBHint is_single_step e)
  | FastDispatchHint => Some (EmitTerminalImpl_FastDispatchHint is_single_step e)
  | If if_ then_ else_ =>
      EmitTerminalImpl_If EmitTerminal if_ then_ else_ initial_location is_single_step e
  | CheckBit then_ else_ =>
      EmitTerminalImpl_CheckBit EmitTerminal then_ else_ initial_location is_single_step e
  | CheckHalt else_ =>
      EmitTerminalImpl_CheckHalt EmitTerminal else_ initial_location is_single_step e
  end.

(** *** The return stack buffer handler of [GenTerminalHandlers] *)

(** The address in [X28] (the guest state). *)
Variable X28 : Z.

(** The closure [calculate_location_descriptor]: the guest PC ends up in
    [fast_dispatch_entry_reg], the location descriptor in
    [location_descriptor_reg]. *)
Definition calculate_location_descriptor (h : Host) : Z * Z :=
  let location_descriptor_reg := X64.rd 32 (upper_location_descriptor (jit h)) in
  let fast_dispatch_entry_reg := X64.rd 32 (Reg_PC (jit h)) in
  let location_descriptor_reg :=
    A32Guest.ORR_LSL 64 fast_dispatch_entry_reg location_descriptor_reg 32 in
  (fast_dispatch_entry_reg, location_descriptor_reg).

(** The code at [terminal_handler_pop_rsb_hint].  With fast dispatch
    enabled, a miss continues in the fast dispatch handler, given here as
    [rsb_cache_miss] (it receives the two registers); without, it
    returns to the dispatcher.  The loads index the two arrays of the
    buffer; [None] is a load outside of them. *)
Definition pop_rsb_hint_handler (rsb_cache_miss : Z -> Z -> Code) (h : Host)
    : option Outcome :=
  let '(fast_dispatch_entry_reg, location_descriptor_reg) :=
    calculate_location_descriptor h in
  let scratch := X64.rd 32 (rsb_ptr (jit h)) in
  let scratch := A32Guest.SUBI2R 32 scratch 1 in
  let scratch := A32Guest.ANDI2R 32 scratch (X64.rd 32 RSBPtrMask) in
  let h := STR_rsb_ptr scratch h in
  let index := scratch in
  let scratch := A32Guest.ADD 64 X28 (Z.shiftl scratch 3) in
  let h := set_SCRATCH1 scratch h in
  X8 ← rsb_location_descriptors (jit h) !! Z.to_nat index;
  let h := CMP location_descriptor_reg X8 h in
  if negb (flagZ (nzcv h)) then
    if enable_fast_dispatch then
      Some (rsb_cache_miss fast_dispatch_entry_reg location_descriptor_reg h)
    else Some (Exit ReturnFromRunCodeAddress h)
  else
    scratch ← rsb_codeptrs (jit h) !! Z.to_nat index;
    let h := set_SCRATCH1 (X64.rd 64 scratch) h in
    Some (Exit (SCRATCH1 h) h).

(** A configuration in which no terminal may link to another block:
    single stepping, or optimizations and fast dispatch both disabled. *)
Definition unlinked (is_single_step : bool) (e : A32EmitA64) : Prop :=
  is_single_step = true \/
  (enable_optimizations e = false /\ enable_fast_dispatch = false).

(** The exits that give control back to the dispatcher. *)
Definition returns_to_dispatcher (target : CodePtr) : Prop :=
  target = ReturnFromRunCodeAddress \/
  target = ForceReturnFromRunCodeAddress \/
  target = ReturnFromRunCodeAddress_fpscr_already_exited.

End Terminals.

(** A configuration for runs of the terminals: the block at [0x2000] is
    compiled with entrypoint [8192], the dispatcher returns at [1000],
    [1008] and [1016], the handlers are at [2000] and [2016], the return
    stack buffer has eight entries, a condition is the boolean it
    evaluates to, and the interpreter callback does nothing. *)
Definition example_emitter : A32EmitA64 :=
  mkA32EmitA64 None None true false false 4096 65536 ∅ ∅ ∅
    {[ 0x2000 := mkBlockDescriptor 8192 64 [] ]} ∅.

Definition example_host : Host :=
  mkHost 5 0 (mkNZCV false false false false)
    (mkA32JitState 0x1000 0 0 (replicate 8 0) (replicate 8 0)).

Definition example_EmitTerminal :=
  EmitTerminal (fun d : Z => d mod 2 ^ 32) (fun d : Z => d / 2 ^ 32) 1000 1008 7
    (fun _ => 8) 40 1016 (fun _ => false) (fun _ => false) false 2000 2016
    (fun (c : bool) (m : Machine) => (c, m)) (fun _ => 8) (fun m => m) 8
    (fun _ _ m => m) 16.

(** A host state returning to [0x2000], the top entry of its return stack
    buffer being that block. *)
Definition example_returning : Host :=
  mkHost 5 0 (mkNZCV false false false false)
    (mkA32JitState 0x2000 0 1 [0x2000; 0; 0; 0; 0; 0; 0; 0] [8192; 0; 0; 0; 0; 0; 0; 0]).

End A32Terminals.

(** ** The metaprogramming library [mp] *)

Module Mp.

(** *** [mp/typelist/drop.h]

    A type list [LT<E1, ..., En>] is the list of its elements; [N] is a
    [size_t], so [N - 1] wraps around at zero. *)
Section Typelist.

Context {E : Type}.

Fixpoint drop_impl (N : Z) (L : list E) : list E :=
  match L with
  | [] => []
  | E1 :: Es =>
      (* std::conditional_t<N == 0, LT<E1, Es...>, drop_impl<N - 1, LT<Es...>>::type> *)
      if N =? 0 then E1 :: Es else drop_impl ((N - 1) mod 2 ^ 64) Es
  end.

(** Drops the first N elements of list L *)
Definition drop (N : Z) (L : list E) : list E := drop_impl N L.

End Typelist.

(** *** [mp/metavalue/conjunction.h] and [mp/metavalue/disjunction.h]

    A metavalue is a type with a static member [value]; the lists are lists
    of such types.  [false_type] and [logic_if] are of [mp/metavalue/value.h]
    and [mp/metavalue/logic_if.h], which are not among the sources: they are
    left open here, and what the theorems need of them is said there. *)
Section Metavalues.

Context {metavalue : Type}.
Variable false_type : metavalue.
Variable logic_if : metavalue -> metavalue -> metavalue -> metavalue.

Fixpoint conjunction_impl (Vs : list metavalue) : metavalue :=
  match Vs with
  | [] => false_type
  | V1 :: Vs =>
      match Vs with
      | [] => V1
      | _ :: _ => logic_if V1 (conjunction_impl Vs) V1
      end
  end.

(** Conjunction of metavalues Vs with short-circuiting and type preservation. *)
Definition conjunction (Vs : list metavalue) : metavalue := conjunction_impl Vs.

Fixpoint disjunction_impl (Vs : list metavalue) : metavalue :=
  match Vs with
  | [] => false_type
  | V1 :: Vs =>
      match Vs with
      | [] => V1
      | _ :: _ => logic_if V1 V1 (disjunction_impl Vs)
      end
  end.

(** Disjunction of metavalues Vs with short-circuiting and type preservation. *)
Definition disjunction (Vs : list metavalue) : metavalue := disjunction_impl Vs.

End Metavalues.

(** [conjunction_v] and [disjunction_v] are the [value] members of the
    results. *)
Definition conjunction_v {metavalue value_type : Type} (value : metavalue -> value_type)
    (false_type : metavalue) (logic_if : metavalue -> metavalue -> metavalue -> metavalue)
    (Vs : list metavalue) : value_type :=
  value (conjunction false_type logic_if Vs).

Definition disjunction_v {metavalue value_type : Type} (value : metavalue -> value_type)
    (false_type : metavalue) (logic_if : metavalue -> metavalue -> metavalue -> metavalue)
    (Vs : list metavalue) : value_type :=
  value (disjunction false_type logic_if Vs).

(** Metavalues for a run: [std::bool_constant]s, with the selection the name
    [logic_if] stands for. *)
Definition example_logic_if (V T F : bool) : bool := if V then T else F.

End Mp.

(** ** What holds of the fastmem patch handlers of an emitter *)

Module FastmemInvariants.

Import BackendA64.

(** The sizes of the host code of a block are byte counts. *)
Definition nonnegative_insts (insts : list Inst) : Prop :=
  Forall (fun i => match i with OtherInst host_size => 0 <= host_size | _ => True end)
    insts.

Definition nonnegative_sizes (op : Operation) : Prop :=
  match op with
  | OpEmit block =>
      0 <= prelude_size block /\ 0 <= terminal_size block /\
      nonnegative_insts (instructions block)
  | _ => True
  end.

(** Every fastmem access of a cached block has its handler in
    [fastmem_patch_info], under the access's host address, and the handler
    demotes the marker of that access. *)
Definition handled (e : A32EmitA64) : Prop :=
  forall (marker : DoNotFastmemMarker) (p : CodePtr),
    cached_form e marker = Some (FastmemAccess p) ->
    exists info, fastmem_patch_info e !! p = Some info /\ patch_marker info = marker.

(** The handlers are registered under addresses of code that is emitted. *)
Definition patches_below (e : A32EmitA64) : Prop :=
  forall p, is_Some (fastmem_patch_info e !! p) -> p < code_ptr e.

(** What the emission of code keeps of the handlers: the code pointer does
    not go back, the handlers stay below it, and none is lost. *)
Definition grows (e e' : A32EmitA64) : Prop :=
  code_ptr e <= code_ptr e' /\
  (patches_below e -> patches_below e') /\
  (forall p info, fastmem_patch_info e !! p = Some info ->
                  fastmem_patch_info e' !! p = Some info).

(** [ShouldFastmem] without its third conjunct: there is no fastmem arena or
    the exception handler cannot recover from faults. *)
Definition fastmem_unavailable (e : A32EmitA64) : Prop :=
  fastmem_pointer e = None \/ SupportsFastmem e = false.

Definition no_fastmem_forms (e : A32EmitA64) : Prop :=
  forall (marker : DoNotFastmemMarker) (p : CodePtr),
    cached_form e marker <> Some (FastmemAccess p).

End FastmemInvariants.

(* ===================================================================== *)
(** * Part II: theorems *)
(* ===================================================================== *)

(** ** Saturating arithmetic *)

Module SaturationFacts.
Import X64 Saturation.

Section Bits.

Lemma pow2_pos (s : Z) : 0 <= s -> 0 < 2 ^ s.
Proof. intros; apply Z.pow_pos_nonneg; lia. Qed.

Lemma pow2_half (s : Z) : 0 < s -> 2 ^ s = 2 * 2 ^ (s - 1).
Proof.
  intros Hs. replace s with (1 + (s - 1)) at 1 by lia.
  rewrite Z.pow_add_r by lia. reflexivity.
Qed.

Lemma mod_mod_pow2 (v s s' : Z) :
  0 <= s' <= s -> (v mod 2 ^ s) mod 2 ^ s' = v mod 2 ^ s'.
Proof.
  intros Hs.
  replace s with (s' + (s - s')) by lia.
  rewrite Z.pow_add_r by lia.
  pose proof (pow2_pos s') as P1. pose proof (pow2_pos (s - s')) as P2.
  rewrite Z.rem_mul_r by lia.
  rewrite (Z.mul_comm (2 ^ s')), Z.mod_add by lia.
  apply Z.mod_mod; lia.
Qed.

Lemma rd_range (s r : Z) : 0 <= s -> 0 <= rd s r < 2 ^ s.
Proof. intros Hs. apply Z.mod_pos_bound, pow2_pos, Hs. Qed.

Lemma rd_rd (s s' r : Z) : 0 <= s' <= s -> rd s' (rd s r) = rd s' r.
Proof. apply mod_mod_pow2. Qed.

Lemma rd_small (s v : Z) : 0 <= v < 2 ^ s -> rd s v = v.
Proof. intros Hv. apply Z.mod_small, Hv. Qed.

Lemma rd_wr (s s' r v : Z) : 0 <= s' <= s -> rd s' (wr s r v) = rd s' v.
Proof.
  intros Hs. unfold wr, rd.
  destruct (32 <=? s).
  - apply mod_mod_pow2, Hs.
  - pose proof (pow2_pos s ltac:(lia)) as P.
    rewrite (Z.mod_eq r (2 ^ s)) by lia.
    replace (r - (r - 2 ^ s * (r / 2 ^ s)) + v mod 2 ^ s)
      with (v mod 2 ^ s + (r / 2 ^ s) * 2 ^ s) by lia.
    rewrite <- (mod_mod_pow2 _ s s' Hs).
    rewrite Z.mod_add by lia.
    rewrite Z.mod_mod by lia.
    apply mod_mod_pow2, Hs.
Qed.

Lemma signed_range (s r : Z) : 0 < s -> - 2 ^ (s - 1) <= signed s r < 2 ^ (s - 1).
Proof.
  intros Hs. unfold signed.
  pose proof (rd_range s r ltac:(lia)). pose proof (pow2_half s Hs).
  destruct (Z.ltb_spec (rd s r) (2 ^ (s - 1))); lia.
Qed.

Lemma rd_signed (s r : Z) : 0 < s -> rd s (signed s r) = rd s r.
Proof.
  intros Hs. unfold signed.
  pose proof (pow2_pos s ltac:(lia)).
  destruct (rd s r <? 2 ^ (s - 1)).
  - apply rd_rd; lia.
  - unfold rd.
    replace (r mod 2 ^ s - 2 ^ s) with (r mod 2 ^ s + (-1) * 2 ^ s) by lia.
    rewrite Z.mod_add by lia. apply Z.mod_mod; lia.
Qed.

(** A register whose low [s] bits agree with those of an integer [v] that is
    representable at [s] bits reads as [v]. *)
Lemma signed_unique (s r v : Z) :
  0 < s -> - 2 ^ (s - 1) <= v < 2 ^ (s - 1) -> rd s r = rd s v -> signed s r = v.
Proof.
  intros Hs Hv E. unfold signed. rewrite E. unfold rd.
  pose proof (pow2_half s Hs) as Hh. pose proof (pow2_pos (s - 1) ltac:(lia)) as Hp.
  destruct (Z.neg_nonneg_cases v).
  - replace (v mod 2 ^ s) with (v + 1 * 2 ^ s).
    + destruct (Z.ltb_spec (v + 1 * 2 ^ s) (2 ^ (s - 1))); lia.
    + symmetry. rewrite <- (Z.mod_add v 1 (2 ^ s)) by lia.
      apply Z.mod_small; lia.
  - rewrite Z.mod_small by lia.
    destruct (Z.ltb_spec v (2 ^ (s - 1))); lia.
Qed.

Lemma testbit_msb (s r : Z) :
  0 < s -> Z.testbit r (s - 1) = (2 ^ (s - 1) <=? rd s r).
Proof.
  intros Hs. unfold rd.
  rewrite Z.testbit_eqb by lia.
  rewrite (pow2_half s Hs), (Z.mul_comm 2).
  pose proof (pow2_pos (s - 1) ltac:(lia)) as Hp.
  rewrite Z.rem_mul_r by lia.
  pose proof (Z.mod_pos_bound r (2 ^ (s - 1)) Hp).
  pose proof (Z.mod_pos_bound (r / 2 ^ (s - 1)) 2 ltac:(lia)).
  destruct (Z.eqb_spec ((r / 2 ^ (s - 1)) mod 2) 1),
    (Z.leb_spec (2 ^ (s - 1))
       (r mod 2 ^ (s - 1) + 2 ^ (s - 1) * ((r / 2 ^ (s - 1)) mod 2)));
    try reflexivity; nia.
Qed.

Lemma testbit_sign (s r : Z) : 0 < s -> Z.testbit r (s - 1) = (signed s r <? 0).
Proof.
  intros Hs. rewrite testbit_msb by exact Hs. unfold signed.
  pose proof (rd_range s r ltac:(lia)). pose proof (pow2_half s Hs).
  destruct (Z.ltb_spec (rd s r) (2 ^ (s - 1))) as [Hlt | Hge].
  - rewrite (proj2 (Z.leb_gt _ _) Hlt). symmetry. apply Z.ltb_ge. lia.
  - rewrite (proj2 (Z.leb_le _ _) Hge). symmetry. apply Z.ltb_lt. lia.
Qed.

Lemma rd_b2z (s : Z) (c : bool) : 0 < s -> rd s (Z.b2z c) = Z.b2z c.
Proof.
  intros Hs. apply rd_small. pose proof (pow2_half s Hs).
  pose proof (pow2_pos (s - 1) ltac:(lia)). destruct c; simpl; lia.
Qed.

End Bits.

Section SignedOp.

Lemma rd_signed_min (s : Z) : 0 < s -> rd s (signed_max s + 1) = rd s (signed_min s).
Proof.
  intros Hs. unfold signed_max, signed_min, rd.
  pose proof (pow2_half s Hs) as Hh. pose proof (pow2_pos s ltac:(lia)).
  replace (2 ^ (s - 1) - 1 + 1) with (- 2 ^ (s - 1) + 1 * 2 ^ s) by lia.
  apply Z.mod_add. lia.
Qed.

Lemma saturation_register (size a scratch : Z) :
  0 < size <= 32 \/ size = 64 ->
  rd size
    (if size <? 64 then
       adc 32 (fst (xor_ 32 scratch scratch)) (signed_max size)
         (bt (rd 32 a) (size - 1))
     else adc 64 (mov 64 scratch (signed_max size)) 0 (bt (rd 64 a) 63))
  = rd size (if signed size a <? 0 then signed_min size else signed_max size).
Proof.
  intros Hsize.
  assert (Hs : 0 < size) by lia.
  assert (Hb : signed_max size + Z.b2z (signed size a <? 0)
               = if signed size a <? 0 then signed_max size + 1 else signed_max size).
  { destruct (signed size a <? 0); simpl; lia. }
  assert (Hfin : rd size (signed_max size + Z.b2z (signed size a <? 0))
                 = rd size (if signed size a <? 0 then signed_min size else signed_max size)).
  { rewrite Hb. destruct (signed size a <? 0); [apply rd_signed_min, Hs | reflexivity]. }
  destruct Hsize as [Hle | ->].
  - replace (size <? 64) with true by (symmetry; apply Z.ltb_lt; lia).
    unfold adc, xor_, bt, fst. rewrite rd_wr by lia.
    rewrite (rd_wr 32 32) by lia. rewrite Z.lxor_nilpotent.
    change (rd 32 a) with (a mod 2 ^ 32). rewrite Z.mod_pow2_bits_low by lia.
    rewrite (testbit_sign size a Hs).
    assert (Hmax : 0 <= signed_max size < 2 ^ 32).
    { unfold signed_max. pose proof (pow2_pos (size - 1) ltac:(lia)).
      pose proof (Z.pow_le_mono_r 2 (size - 1) 31 ltac:(lia) ltac:(lia)).
      change (2 ^ 32) with (2 * 2 ^ 31). lia. }
    rewrite (rd_small 32 0) by (change (2 ^ 32) with 4294967296; lia).
    rewrite (rd_small 32 (signed_max size)) by exact Hmax.
    exact Hfin.
  - change (64 <? 64) with false.
    unfold adc, mov, bt. rewrite rd_wr by lia. rewrite (rd_wr 64 64) by lia.
    change (rd 64 a) with (a mod 2 ^ 64). rewrite Z.mod_pow2_bits_low by lia.
    change 63 with (64 - 1). rewrite (testbit_sign 64 a) by lia.
    rewrite (rd_small 64 0) by (change (2 ^ 64) with 18446744073709551616; lia).
    rewrite (rd_small 64 (signed_max 64)) by (vm_compute; split; [discriminate | reflexivity]).
    rewrite Z.add_0_r. exact Hfin.
Qed.

End SignedOp.

Section Flag.

Lemma signed_congr (s r1 r2 : Z) : rd s r1 = rd s r2 -> signed s r1 = signed s r2.
Proof. intros E. unfold signed. rewrite E. reflexivity. Qed.

Lemma signed_fix (s v : Z) :
  0 < s -> - 2 ^ (s - 1) <= v < 2 ^ (s - 1) -> signed s v = v.
Proof. intros Hs Hv. apply signed_unique; auto. Qed.

Lemma rd_cmov (c : Cond) (s s' dst src : Z) (f : Flags) :
  0 <= s' <= s -> rd s' (cmov c s dst src f) = rd s' (if holds c f then src else dst).
Proof. intros Hs. unfold cmov. apply rd_wr, Hs. Qed.

Lemma flag_of_set (c : Cond) (dst : Z) (f : Flags) :
  flag_of (Some (set c dst f)) = Some (holds c f).
Proof.
  unfold flag_of, set. rewrite rd_wr by lia. rewrite rd_b2z by lia.
  destruct (holds c f); reflexivity.
Qed.

Lemma rd_exact_signed (op : Op) (s x y : Z) :
  0 < s ->
  rd s (exact_result op (rd s x) (rd s y))
  = rd s (exact_result op (signed s x) (signed s y)).
Proof.
  intros Hs. rewrite <- (rd_signed s x), <- (rd_signed s y) by exact Hs.
  pose proof (pow2_pos s ltac:(lia)).
  unfold rd. destruct op; simpl.
  - rewrite <- Z.add_mod by lia. reflexivity.
  - rewrite <- Zminus_mod. reflexivity.
Qed.

Lemma clamp_fits (s e : Z) :
  0 < s -> fits s e = (clamp (signed_min s) (signed_max s) e =? e).
Proof.
  intros Hs. unfold fits, clamp, signed_min, signed_max.
  pose proof (pow2_pos (s - 1) ltac:(lia)).
  destruct (Z.leb_spec (- 2 ^ (s - 1)) e), (Z.ltb_spec e (2 ^ (s - 1)));
    simpl; symmetry; try (apply Z.eqb_eq; lia); apply Z.eqb_neq; lia.
Qed.

End Flag.

Lemma EmitSignedSaturatedOp_correct (op : Op) (size : Z) (ovf : bool) (a b scratch : Z) :
  0 < size <= 32 \/ size = 64 ->
  let e := exact_result op (signed size a) (signed size b) in
  let r := EmitSignedSaturatedOp op size ovf a b scratch in
  signed size (fst r) = clamp (signed_min size) (signed_max size) e /\
  flag_of (snd r)
  = if ovf then Some (negb (clamp (signed_min size) (signed_max size) e =? e)) else None.
Proof.
  intros Hsize e r.
  assert (Hs : 0 < size) by lia.
  pose proof (saturation_register size a scratch Hsize) as Hreg.
  pose proof (signed_range size a Hs) as Ra.
  pose proof (signed_range size b Hs) as Rb.
  pose proof (pow2_half size Hs) as Hh.
  subst r. unfold EmitSignedSaturatedOp.
  set (ovr := if size <? 64 then _ else _) in *.
  assert (Hop : (match op with Add => add size a b | Sub => sub size a b end)
          = (wr size a (exact_result op (rd size a) (rd size b)),
             flags_of size (exact_result op (rd size a) (rd size b))
               (match op with Add => 2 ^ size <=? rd size a + rd size b
                            | Sub => rd size a <? rd size b end)
               (negb (fits size e)))).
  { destruct op; reflexivity. }
  rewrite Hop. cbv beta iota zeta.
  set (fl := flags_of _ _ _ _).
  assert (Hof : holds cO fl = negb (fits size e)) by reflexivity.
  split.
  - assert (Hview : rd size (if size =? 8 then cmov cO 32 (wr size a (exact_result op (rd size a) (rd size b))) ovr fl
                      else cmov cO size (wr size a (exact_result op (rd size a) (rd size b))) ovr fl)
             = rd size (if holds cO fl then ovr else wr size a (exact_result op (rd size a) (rd size b)))).
    { destruct (Z.eqb_spec size 8) as [-> | _]; apply rd_cmov; lia. }
    cbn [fst]. rewrite (signed_congr _ _ _ Hview), Hof.
    unfold fits, clamp, signed_min, signed_max in *.
    destruct (Z.leb_spec (- 2 ^ (size - 1)) e), (Z.ltb_spec e (2 ^ (size - 1))); cbn [andb negb].
    + rewrite Z.min_r, Z.max_r by lia.
      apply signed_unique; [exact Hs | lia |].
      rewrite rd_wr by lia. apply rd_exact_signed, Hs.
    + rewrite (signed_congr _ _ _ Hreg).
      destruct (Z.ltb_spec (signed size a) 0);
        (rewrite signed_fix by lia); subst e; destruct op; simpl in *; lia.
    + rewrite (signed_congr _ _ _ Hreg).
      destruct (Z.ltb_spec (signed size a) 0);
        (rewrite signed_fix by lia); subst e; destruct op; simpl in *; lia.
    + lia.
  - cbn [snd]. destruct ovf; [| reflexivity].
    rewrite flag_of_set, Hof, clamp_fits by exact Hs. reflexivity.
Qed.

Lemma EmitUnsignedSaturatedOp_correct (op : Op) (size : Z) (ovf : bool) (a b scratch : Z) :
  0 < size ->
  let e := exact_result op (rd size a) (rd size b) in
  let r := EmitUnsignedSaturatedOp op size ovf a b scratch in
  rd size (fst r) = clamp 0 (unsigned_max size) e /\
  flag_of (snd r)
  = if ovf then Some (negb (clamp 0 (unsigned_max size) e =? e)) else None.
Proof.
  intros Hs e r.
  pose proof (rd_range size a ltac:(lia)) as Ra.
  pose proof (rd_range size b ltac:(lia)) as Rb.
  subst r. unfold EmitUnsignedSaturatedOp.
  set (boundary := match op with Add => unsigned_max size | Sub => 0 end).
  set (carry := match op with
                | Add => 2 ^ size <=? rd size a + rd size b
                | Sub => rd size a <? rd size b
                end).
  assert (Hop : (match op with Add => add size a b | Sub => sub size a b end)
          = (wr size a e,
             flags_of size e carry
               (negb (fits size (exact_result op (signed size a) (signed size b)))))).
  { destruct op; reflexivity. }
  rewrite Hop. cbv beta iota zeta.
  set (fl := flags_of _ _ _ _).
  assert (Hcf : CF fl = carry) by reflexivity.
  assert (Hclamp : clamp 0 (unsigned_max size) e = if carry then boundary else e).
  { unfold clamp, unsigned_max, carry, boundary, e. destruct op; simpl.
    - destruct (Z.leb_spec (2 ^ size) (rd size a + rd size b)); unfold unsigned_max; lia.
    - destruct (Z.ltb_spec (rd size a) (rd size b)); lia. }
  assert (Hb : rd size boundary = boundary).
  { apply rd_small. unfold boundary, unsigned_max. destruct op; lia. }
  assert (He : carry = false -> rd size e = e).
  { intros Hc. apply rd_small. unfold carry, e in *. destruct op; simpl in *.
    - apply Z.leb_gt in Hc. lia.
    - apply Z.ltb_ge in Hc. lia. }
  split.
  - cbn [fst]. rewrite Hclamp.
    assert (Hview : rd size (if size =? 8 then cmov cAE 32 (mov size b boundary) (wr size a e) fl
                      else cmov cAE size (mov size b boundary) (wr size a e) fl)
             = rd size (if holds cAE fl then wr size a e else mov size b boundary)).
    { destruct (Z.eqb_spec size 8) as [-> | _]; apply rd_cmov; lia. }
    rewrite Hview. cbn [holds]. rewrite Hcf.
    destruct carry eqn:Hc; cbn [negb].
    + unfold mov. rewrite rd_wr by lia. exact Hb.
    + rewrite rd_wr by lia. apply He. reflexivity.
  - cbn [snd]. destruct ovf; [| reflexivity].
    rewrite flag_of_set. cbn [holds]. rewrite Hcf, Hclamp. f_equal.
    destruct carry eqn:Hc.
    + symmetry. apply negb_true_iff, Z.eqb_neq.
      unfold carry, boundary, e, unsigned_max in *. destruct op; simpl in *.
      * apply Z.leb_le in Hc. lia.
      * apply Z.ltb_lt in Hc. lia.
    + rewrite Z.eqb_refl. reflexivity.
Qed.

Section DoublingMultiply.

Lemma rd_shiftr_rd (W w k p : Z) :
  0 <= k -> 0 <= w -> w + k <= W ->
  rd w (Z.shiftr (rd W p) k) = rd w (Z.shiftr p k).
Proof.
  intros Hk Hw HW. unfold rd. apply Z.bits_inj'. intros n Hn.
  destruct (Z.lt_ge_cases n w) as [Hlt | Hge].
  - rewrite !Z.mod_pow2_bits_low by lia.
    rewrite !Z.shiftr_spec by lia.
    apply Z.mod_pow2_bits_low. lia.
  - rewrite !Z.mod_pow2_bits_high by lia. reflexivity.
Qed.

Lemma shiftr_double (p w : Z) : 0 < w -> Z.shiftr (2 * p) w = Z.shiftr p (w - 1).
Proof.
  intros Hw. rewrite !Z.shiftr_div_pow2 by lia.
  rewrite (pow2_half w Hw).
  pose proof (pow2_pos (w - 1) ltac:(lia)).
  apply Z.div_mul_cancel_l; lia.
Qed.

Lemma rd_double (W p : Z) : 0 <= W -> rd W (rd W p + rd W p) = rd W (2 * p).
Proof.
  intros HW. unfold rd. pose proof (pow2_pos W HW).
  rewrite <- Z.add_mod by lia. f_equal. lia.
Qed.

(** The sign of [2p xor p] at [W] bits tells whether [p] needs more than
    [W - 1] bits; for a product of two [W/2]-bit numbers that is [p = 2^(W-2)]. *)
Lemma sign_double_xor (W p : Z) :
  2 <= W -> - 2 ^ (W - 2) <= p <= 2 ^ (W - 2) ->
  (2 ^ (W - 1) <=? rd W (Z.lxor (rd W (2 * p)) (rd W p))) = (p =? 2 ^ (W - 2)).
Proof.
  intros HW Hp.
  rewrite <- testbit_msb by lia.
  rewrite Z.lxor_spec. unfold rd.
  rewrite !Z.mod_pow2_bits_low by lia.
  replace (W - 1) with (Z.succ (W - 2)) at 1 by lia.
  rewrite Z.double_bits_succ.
  replace (W - 2) with ((W - 1) - 1) at 1 by lia.
  rewrite (testbit_sign (W - 1) p), (testbit_sign W p) by lia.
  pose proof (pow2_half (W - 1) ltac:(lia)) as Hh.
  replace (W - 1 - 1) with (W - 2) in Hh by lia.
  pose proof (pow2_pos (W - 2) ltac:(lia)) as Hpos.
  rewrite (signed_fix W p) by lia.
  destruct (Z.eqb_spec p (2 ^ (W - 2))) as [-> | Hne].
  - assert (E : signed (W - 1) (2 ^ (W - 2)) = - 2 ^ (W - 2)).
    { apply signed_unique; [lia | replace (W - 1 - 1) with (W - 2) by lia; lia |].
      unfold rd. rewrite Hh.
      replace (2 ^ (W - 2)) with (- 2 ^ (W - 2) + 1 * (2 * 2 ^ (W - 2))) at 1 by lia.
      apply Z.mod_add. lia. }
    rewrite E.
    replace (- 2 ^ (W - 2) <? 0) with true by (symmetry; apply Z.ltb_lt; lia).
    replace (2 ^ (W - 2) <? 0) with false by (symmetry; apply Z.ltb_ge; lia).
    reflexivity.
  - rewrite (signed_fix (W - 1) p)
      by (replace (W - 1 - 1) with (W - 2) by lia; lia).
    apply xorb_nilpotent.
Qed.

End DoublingMultiply.

Section DoublingMultiplyEmit.

Lemma wr_wide (s r v : Z) : 32 <= s -> wr s r v = rd s v.
Proof. intros Hs. unfold wr. rewrite (proj2 (Z.leb_le 32 s) Hs). reflexivity. Qed.

Lemma signed_rd_widen (s s' v : Z) :
  0 < s' <= s -> - 2 ^ (s' - 1) <= v < 2 ^ (s' - 1) -> signed s (rd s v) = v.
Proof.
  intros Hs Hv. apply signed_unique; [lia | | apply rd_rd; lia].
  pose proof (Z.pow_le_mono_r 2 (s' - 1) (s - 1) ltac:(lia) ltac:(lia)). lia.
Qed.

Lemma product_range (w a b : Z) :
  0 < w ->
  - 2 ^ (w - 1) <= a < 2 ^ (w - 1) -> - 2 ^ (w - 1) <= b < 2 ^ (w - 1) ->
  - 2 ^ (2 * w - 2) < a * b <= 2 ^ (2 * w - 2).
Proof.
  intros Hw Ha Hb.
  replace (2 * w - 2) with ((w - 1) + (w - 1)) by lia.
  rewrite Z.pow_add_r by lia.
  pose proof (pow2_pos (w - 1) ltac:(lia)). nia.
Qed.

(** What the emitted sequence computes from the product [p] of the two sign
    extended operands, at register width [W] and operand width [w]. *)
Lemma doubling_high_value (W w p : Z) (sat tmp : Z) :
  0 < w -> W = 2 * w -> - 2 ^ (W - 2) < p <= 2 ^ (W - 2) ->
  sat = signed_max w ->
  let e := Z.shiftr (2 * p) w in
  let sf := 2 ^ (W - 1) <=? rd W (Z.lxor (rd W (2 * p)) (rd W p)) in
  sf = negb (clamp (signed_min w) (signed_max w) e =? e) /\
  (rd w tmp = rd w (Z.shiftr (rd W p) (w - 1)) ->
   signed w (if negb sf then tmp else sat) = clamp (signed_min w) (signed_max w) e).
Proof.
  intros Hw -> Hp -> e sf.
  assert (Hsf : sf = (p =? 2 ^ (2 * w - 2))) by (apply sign_double_xor; lia).
  assert (He : e = p / 2 ^ (w - 1)).
  { unfold e. rewrite shiftr_double by lia. apply Z.shiftr_div_pow2. lia. }
  pose proof (pow2_pos (w - 1) ltac:(lia)) as Hpos.
  assert (Hsq : 2 ^ (2 * w - 2) = 2 ^ (w - 1) * 2 ^ (w - 1)).
  { rewrite <- Z.pow_add_r by lia. f_equal. lia. }
  unfold clamp, signed_min, signed_max.
  destruct (Z.eqb_spec p (2 ^ (2 * w - 2))) as [Heq | Hne].
  - assert (e = 2 ^ (w - 1)).
    { rewrite He, Heq, Hsq. apply Z.div_mul. lia. }
    rewrite Hsf. split.
    + symmetry. apply negb_true_iff, Z.eqb_neq. lia.
    + intros _. cbn [negb]. rewrite signed_fix by lia. lia.
  - assert (Hr : - 2 ^ (w - 1) <= e < 2 ^ (w - 1)).
    { rewrite He. split.
      - apply Z.div_le_lower_bound; lia.
      - apply Z.div_lt_upper_bound; lia. }
    rewrite Hsf. split.
    + symmetry. apply negb_false_iff, Z.eqb_eq. lia.
    + intros Htmp. cbn [negb].
      rewrite Z.min_r, Z.max_r by lia.
      apply signed_unique; [lia | lia |].
      rewrite Htmp. unfold e. rewrite shiftr_double by lia.
      apply rd_shiftr_rd; lia.
Qed.

Lemma EmitSignedSaturatedDoublingMultiplyReturnHigh16_correct
    (ovf : bool) (x y scratch : Z) :
  let e := Z.shiftr (2 * (signed 16 x * signed 16 y)) 16 in
  let r := EmitSignedSaturatedDoublingMultiplyReturnHigh16 ovf x y scratch in
  signed 16 (fst r) = clamp (signed_min 16) (signed_max 16) e /\
  flag_of (snd r)
  = if ovf then Some (negb (clamp (signed_min 16) (signed_max 16) e =? e)) else None.
Proof.
  intros e r. subst r.
  pose proof (signed_range 16 x ltac:(lia)) as Rx.
  pose proof (signed_range 16 y ltac:(lia)) as Ry.
  pose proof (product_range 16 _ _ ltac:(lia) Rx Ry) as Rp.
  set (p := signed 16 x * signed 16 y) in *.
  unfold EmitSignedSaturatedDoublingMultiplyReturnHigh16.
  unfold movsx, imul, lea, mov, shr, xor_, cmov.
  rewrite !(wr_wide 32) by lia.
  rewrite !(signed_rd_widen 32 16) by (try lia; assumption).
  fold p. cbv beta iota zeta.
  rewrite !(rd_rd 32 32) by lia.
  rewrite (rd_small 64 (rd 32 p))
    by (pose proof (rd_range 32 p ltac:(lia));
        change (2 ^ 64) with (2 ^ 32 * 2 ^ 32); change (2 ^ 32) with 4294967296 in *; lia).
  rewrite (rd_double 32 p) by lia.
  destruct (doubling_high_value 32 16 p 0x7FFF
              (rd 32 (Z.shiftr (rd 32 p) 15)) ltac:(lia) eq_refl Rp eq_refl)
    as [Hsf Hval].
  cbn [fst snd holds SF flags_of]. fold e in Hsf, Hval.
  split.
  - rewrite <- Hval by (apply rd_rd; lia).
    apply signed_congr. rewrite rd_rd by lia. reflexivity.
  - destruct ovf; [| reflexivity].
    rewrite flag_of_set. cbn [holds SF flags_of]. f_equal. exact Hsf.
Qed.

Lemma EmitSignedSaturatedDoublingMultiplyReturnHigh32_correct
    (ovf : bool) (x y scratch : Z) :
  let e := Z.shiftr (2 * (signed 32 x * signed 32 y)) 32 in
  let r := EmitSignedSaturatedDoublingMultiplyReturnHigh32 ovf x y scratch in
  signed 32 (fst r) = clamp (signed_min 32) (signed_max 32) e /\
  flag_of (snd r)
  = if ovf then Some (negb (clamp (signed_min 32) (signed_max 32) e =? e)) else None.
Proof.
  intros e r. subst r.
  pose proof (signed_range 32 x ltac:(lia)) as Rx.
  pose proof (signed_range 32 y ltac:(lia)) as Ry.
  pose proof (product_range 32 _ _ ltac:(lia) Rx Ry) as Rp.
  set (p := signed 32 x * signed 32 y) in *.
  unfold EmitSignedSaturatedDoublingMultiplyReturnHigh32.
  unfold movsx, imul, lea, mov, shr, xor_, cmov.
  rewrite !(wr_wide 64), !(wr_wide 32) by lia.
  rewrite !(signed_rd_widen 64 32) by (try lia; assumption).
  fold p. cbv beta iota zeta.
  rewrite !(rd_rd 64 64) by lia.
  rewrite (rd_double 64 p) by lia.
  destruct (doubling_high_value 64 32 p 0x7FFFFFFF
              (rd 64 (Z.shiftr (rd 64 p) 31)) ltac:(lia) eq_refl Rp eq_refl)
    as [Hsf Hval].
  cbn [fst snd holds SF flags_of]. fold e in Hsf, Hval.
  split.
  - rewrite <- Hval by (apply rd_rd; lia).
    apply signed_congr. rewrite rd_rd by lia.
    change (rd 32 2147483647) with 2147483647. reflexivity.
  - destruct ovf; [| reflexivity].
    rewrite flag_of_set. cbn [holds SF flags_of]. f_equal. exact Hsf.
Qed.

End DoublingMultiplyEmit.

Section Compare.

Lemma rd_unique (s v q r : Z) : 0 <= r < 2 ^ s -> v = q * 2 ^ s + r -> rd s v = r.
Proof.
  intros Hr ->. unfold rd. rewrite Z.add_comm, Z.mod_add by lia.
  apply Z.mod_small, Hr.
Qed.

Lemma rd_add_congr (s a a' b : Z) :
  0 <= s -> rd s a = rd s a' -> rd s (a + b) = rd s (a' + b).
Proof.
  intros Hs E. unfold rd in *. pose proof (pow2_pos s Hs).
  rewrite (Z.add_mod a), (Z.add_mod a'), E by lia. reflexivity.
Qed.

Lemma signed_rd_cases (s r : Z) :
  0 < s ->
  (0 <= signed s r /\ rd s r = signed s r) \/
  (signed s r < 0 /\ rd s r = signed s r + 2 ^ s).
Proof.
  intros Hs. unfold signed. pose proof (rd_range s r ltac:(lia)).
  destruct (Z.ltb_spec (rd s r) (2 ^ (s - 1))); lia.
Qed.

(** Unsigned comparisons after [cmp a, b]. *)
Lemma cmp_below_or_equal (s x y : Z) :
  0 < s -> holds cBE (cmp s x y) = (rd s x <=? rd s y).
Proof.
  intros Hs. unfold cmp, sub, flags_of, holds. cbn [snd CF ZF].
  pose proof (rd_range s x ltac:(lia)). pose proof (rd_range s y ltac:(lia)).
  destruct (Z.ltb_spec (rd s x) (rd s y)) as [Hlt | Hge]; cbn [orb].
  - symmetry. apply Z.leb_le. lia.
  - rewrite (rd_small s (rd s x - rd s y)) by lia.
    destruct (Z.eqb_spec (rd s x - rd s y) 0), (Z.leb_spec (rd s x) (rd s y));
      try reflexivity; lia.
Qed.

Lemma cmp_above (s x y : Z) :
  0 < s -> holds cA (cmp s x y) = (rd s y <? rd s x).
Proof.
  intros Hs. pose proof (cmp_below_or_equal s x y Hs) as Hbe.
  unfold holds in *. rewrite <- negb_orb, Hbe.
  destruct (Z.leb_spec (rd s x) (rd s y)), (Z.ltb_spec (rd s y) (rd s x));
    try reflexivity; lia.
Qed.

(** Signed comparison after [cmp a, b]. *)
Lemma cmp_less_or_equal (s x y : Z) :
  0 < s -> holds cLE (cmp s x y) = (signed s x <=? signed s y).
Proof.
  intros Hs. unfold cmp, sub, flags_of, holds, fits. cbn [snd ZF SF OF].
  pose proof (signed_range s x Hs) as Rx. pose proof (signed_range s y Hs) as Ry.
  pose proof (pow2_half s Hs) as Hh.
  pose proof (pow2_pos (s - 1) ltac:(lia)) as Hp.
  set (d := signed s x - signed s y).
  assert (Hd : rd s (rd s x - rd s y) = rd s d).
  { unfold d. rewrite <- (rd_signed s x), <- (rd_signed s y) by exact Hs.
    unfold rd. rewrite <- Zminus_mod. reflexivity. }
  rewrite Hd.
  assert (Hcases : (d < - 2 ^ (s - 1) /\ rd s d = d + 2 ^ s) \/
                   (- 2 ^ (s - 1) <= d < 0 /\ rd s d = d + 2 ^ s) \/
                   (0 <= d < 2 ^ s /\ rd s d = d)).
  { destruct (Z.lt_ge_cases d 0).
    - assert (rd s d = d + 2 ^ s) by (apply (rd_unique s d (-1)); lia). lia.
    - right; right. split; [lia |]. apply rd_small. lia. }
  destruct (Z.leb_spec (signed s x) (signed s y)),
    (Z.eqb_spec (rd s d) 0), (Z.leb_spec (2 ^ (s - 1)) (rd s d)),
    (Z.leb_spec (- 2 ^ (s - 1)) d), (Z.ltb_spec d (2 ^ (s - 1)));
    cbn; try reflexivity; lia.
Qed.

Lemma lxor_ones_sub (s v : Z) :
  0 <= s -> 0 <= v < 2 ^ s -> Z.lxor (2 ^ s - 1) v = 2 ^ s - 1 - v.
Proof.
  intros Hs Hv.
  assert (Hones : 2 ^ s - 1 = Z.ones s) by (rewrite Z.ones_equiv; lia).
  rewrite Hones.
  assert (Hhigh : forall n, s <= n -> Z.testbit v n = false).
  { intros n Hn. rewrite <- (Z.mod_small v (2 ^ s)) by lia.
    apply Z.mod_pow2_bits_high. lia. }
  rewrite (Z.sub_nocarry_ldiff (Z.ones s) v).
  - apply Z.bits_inj'. intros n Hn.
    rewrite Z.lxor_spec, Z.ldiff_spec.
    destruct (Z.lt_ge_cases n s).
    + rewrite Z.ones_spec_low by lia. reflexivity.
    + rewrite Z.ones_spec_high, Hhigh by lia. reflexivity.
  - apply Z.bits_inj'. intros n Hn.
    rewrite Z.ldiff_spec, Z.bits_0.
    destruct (Z.lt_ge_cases n s).
    + rewrite Z.ones_spec_low by lia. apply andb_false_r.
    + rewrite Hhigh by lia. reflexivity.
Qed.

Lemma sar_sign (s r : Z) :
  0 < s -> Z.shiftr (signed s r) (s - 1) = if signed s r <? 0 then -1 else 0.
Proof.
  intros Hs. pose proof (signed_range s r Hs).
  pose proof (pow2_pos (s - 1) ltac:(lia)).
  rewrite Z.shiftr_div_pow2 by lia.
  destruct (Z.ltb_spec (signed s r) 0).
  - symmetry. apply (Z.div_unique _ _ _ (signed s r + 2 ^ (s - 1))); lia.
  - apply Z.div_small. lia.
Qed.

End Compare.

Section ArbitraryWidth.

Lemma u32_small (v : Z) : 0 <= v < 2 ^ 32 -> u32 v = v.
Proof. apply Z.mod_small. Qed.

Lemma pow2_le_31 (n : Z) : 0 <= n <= 31 -> 0 < 2 ^ n <= 2 ^ 31.
Proof.
  intros Hn. split; [apply pow2_pos; lia |].
  apply Z.pow_le_mono_r; lia.
Qed.

(** C3. For every register content [x] and every [N] with [1 <= N <= 32],
    [EmitSignedSaturation] emits code (no assertion fails) whose result, read
    as a signed 32-bit integer, is [x] read as a signed 32-bit integer and
    clamped to [-2^(N-1), 2^(N-1)-1]; the overflow value is set exactly when
    [x] lies outside the interval; for [N = 32] the result is the argument
    itself and the overflow value is the constant [false]. *)
Theorem EmitSignedSaturation_correct (ovf : bool) (x N s1 s2 : Z) :
  1 <= N <= 32 ->
  let sx := signed 32 x in
  let c := clamp (- 2 ^ (N - 1)) (2 ^ (N - 1) - 1) sx in
  exists r q,
    EmitSignedSaturation ovf x N s1 s2 = Some (r, q) /\
    signed 32 r = c /\
    flag_of q = (if ovf then Some (negb (c =? sx)) else None) /\
    (N = 32 -> r = x /\ q = if ovf then Some (Z.b2z false) else None).
Proof.
  intros HN sx c.
  pose proof (signed_range 32 x ltac:(lia)) as Rx. fold sx in Rx.
  change (32 - 1) with 31 in Rx.
  unfold EmitSignedSaturation.
  replace ((1 <=? N) && (N <=? 32)) with true
    by (symmetry; apply andb_true_iff; split; apply Z.leb_le; lia).
  cbn [negb].
  destruct (Z.eqb_spec N 32) as [-> | Hne].
  - exists x, (if ovf then Some (Z.b2z false) else None).
    assert (Hc : c = sx).
    { unfold c, clamp. change (32 - 1) with 31. lia. }
    rewrite Hc, Z.eqb_refl. repeat split; try reflexivity.
    destruct ovf; reflexivity.
  - assert (HN' : 1 <= N <= 31) by lia.
    pose proof (pow2_half N ltac:(lia)) as Hh.
    pose proof (pow2_le_31 (N - 1) ltac:(lia)) as Hp1.
    pose proof (pow2_le_31 N ltac:(lia)) as Hp.
    change (2 ^ 31) with 2147483648 in *.
    assert (H32 : 2 ^ 32 = 4294967296) by reflexivity.
    rewrite !Z.shiftl_1_l.
    rewrite (u32_small (2 ^ (N - 1) - 1)), (u32_small (2 ^ (N - 1))),
      (u32_small (2 ^ N - 1)) by lia.
    eexists _, _. split; [reflexivity |].
    (* the emitted comparison: is [x + 2^(N-1)] within [0, 2^N - 1]? *)
    set (ov := lea 32 s2 x (2 ^ (N - 1))).
    assert (Hov : rd 32 ov = rd 32 (sx + 2 ^ (N - 1))).
    { unfold ov, lea. rewrite rd_wr by lia. apply rd_add_congr; [lia |].
      rewrite rd_rd by lia. unfold sx. symmetry. apply rd_signed. lia. }
    assert (Hmask : rd 32 (2 ^ N - 1) = 2 ^ N - 1) by (apply rd_small; lia).
    assert (Hin : (rd 32 ov <=? 2 ^ N - 1) = (c =? sx)).
    { rewrite Hov. unfold c, clamp.
      destruct (Z.lt_ge_cases (sx + 2 ^ (N - 1)) 0).
      - rewrite (rd_unique 32 _ (-1) (sx + 2 ^ (N - 1) + 2 ^ 32)) by lia.
        destruct (Z.leb_spec (sx + 2 ^ (N - 1) + 2 ^ 32) (2 ^ N - 1)); [lia |].
        symmetry. apply Z.eqb_neq. lia.
      - rewrite rd_small by lia.
        destruct (Z.leb_spec (sx + 2 ^ (N - 1)) (2 ^ N - 1));
          symmetry; [apply Z.eqb_eq | apply Z.eqb_neq]; lia. }
    split; [| split; [| intros; lia]].
    + unfold cmov. rewrite wr_wide by lia.
      rewrite cmp_below_or_equal by lia. rewrite Hmask, Hin.
      destruct (Z.eqb_spec c sx) as [E | E].
      * rewrite E. apply signed_congr. apply rd_rd. lia.
      * unfold mov, sar, xor_. cbn [fst]. rewrite !wr_wide by lia.
        rewrite !(rd_rd 32 32) by lia.
        rewrite (signed_congr 32 (rd 32 x) x) by (apply rd_rd; lia).
        change 31 with (32 - 1). rewrite sar_sign by lia. fold sx.
        rewrite (rd_small 32 (2 ^ (N - 1) - 1)) by lia.
        unfold c, clamp in *.
        destruct (Z.ltb_spec sx 0).
        -- change (rd 32 (-1)) with (2 ^ 32 - 1).
           rewrite lxor_ones_sub by lia.
           apply signed_unique; [lia | change (32 - 1) with 31; lia |].
           rewrite rd_rd by lia.
           rewrite (rd_unique 32 (Z.max (- 2 ^ (N - 1)) (Z.min (2 ^ (N - 1) - 1) sx)) (-1)
                      (2 ^ 32 - 2 ^ (N - 1))) by lia.
           rewrite rd_small by lia. lia.
        -- change (rd 32 0) with 0. rewrite Z.lxor_0_l.
           apply signed_unique; [lia | change (32 - 1) with 31; lia |].
           rewrite !rd_rd by lia. f_equal. lia.
    + destruct ovf; [| reflexivity].
      rewrite flag_of_set, cmp_above by lia. rewrite Hmask. f_equal.
      rewrite <- Hin.
      destruct (Z.ltb_spec (2 ^ N - 1) (rd 32 ov)), (Z.leb_spec (rd 32 ov) (2 ^ N - 1));
        try reflexivity; lia.
Qed.

(** C4. For every register content [x], read as a signed 32-bit integer, and
    every [N] with [0 <= N <= 31], [EmitUnsignedSaturation] emits code whose
    32-bit result is [x] clamped to [0, 2^N - 1]; the overflow value is set
    exactly when clamping changed the value. *)
Theorem EmitUnsignedSaturation_correct (ovf : bool) (x N s1 s2 : Z) :
  0 <= N <= 31 ->
  let sx := signed 32 x in
  let c := clamp 0 (2 ^ N - 1) sx in
  exists r q,
    EmitUnsignedSaturation ovf x N s1 s2 = Some (r, q) /\
    rd 32 r = c /\
    flag_of q = (if ovf then Some (negb (c =? sx)) else None).
Proof.
  intros HN sx c.
  pose proof (signed_range 32 x ltac:(lia)) as Rx. fold sx in Rx.
  change (32 - 1) with 31 in Rx.
  pose proof (pow2_le_31 N ltac:(lia)) as Hp.
  change (2 ^ 31) with 2147483648 in *.
  assert (H32 : 2 ^ 32 = 4294967296) by reflexivity.
  unfold EmitUnsignedSaturation.
  replace (N <=? 31) with true by (symmetry; apply Z.leb_le; lia).
  cbn [negb]. rewrite Z.shiftl_1_l. rewrite (u32_small (2 ^ N - 1)) by lia.
  eexists _, _. split; [reflexivity |].
  set (sat := 2 ^ N - 1).
  assert (Hsat : rd 32 sat = sat) by (apply rd_small; unfold sat; lia).
  assert (Hssat : signed 32 sat = sat).
  { apply signed_fix; [lia |]. change (32 - 1) with 31. unfold sat. lia. }
  set (fl := cmp 32 x sat).
  assert (Hle : holds cLE fl = (sx <=? sat)).
  { unfold fl. rewrite cmp_less_or_equal, Hssat by lia. reflexivity. }
  assert (Hbe : holds cBE fl = (rd 32 x <=? sat)).
  { unfold fl. rewrite cmp_below_or_equal, Hsat by lia. reflexivity. }
  assert (Ha : holds cA fl = (sat <? rd 32 x)).
  { unfold fl. rewrite cmp_above, Hsat by lia. reflexivity. }
  assert (Hz : fst (xor_ 32 s2 s2) = 0).
  { unfold xor_. cbn [fst]. rewrite Z.lxor_nilpotent. reflexivity. }
  rewrite Hz. unfold cmov, mov. rewrite !wr_wide, !rd_rd by lia.
  rewrite Hle, Hbe.
  assert (Hres : rd 32 (if rd 32 x <=? sat then x
                        else rd 32 (if sx <=? sat then 0 else rd 32 sat)) = c /\
                 (sat <? rd 32 x) = negb (c =? sx)).
  { unfold c, clamp. fold sat.
    destruct (signed_rd_cases 32 x ltac:(lia)) as [[Hs Hr] | [Hs Hr]];
      fold sx in Hs, Hr; rewrite Hr.
    - destruct (Z.leb_spec sx sat).
      + rewrite Hr. split; [lia |].
        replace (Z.max 0 (Z.min sat sx)) with sx by lia.
        rewrite Z.eqb_refl. apply Z.ltb_ge. lia.
      + rewrite Hsat, rd_rd, Hsat by lia. split; [lia |].
        replace (Z.max 0 (Z.min sat sx)) with sat by lia.
        rewrite (proj2 (Z.eqb_neq sat sx)) by lia. apply Z.ltb_lt. lia.
    - replace (sx + 2 ^ 32 <=? sat) with false by (symmetry; apply Z.leb_gt; lia).
      replace (sx <=? sat) with true by (symmetry; apply Z.leb_le; lia).
      replace (Z.max 0 (Z.min sat sx)) with 0 by lia.
      rewrite (proj2 (Z.eqb_neq 0 sx)) by lia.
      split; [reflexivity | apply Z.ltb_lt; lia]. }
  destruct Hres as [Hval Hflag]. split; [exact Hval |].
  destruct ovf; [| reflexivity].
  rewrite flag_of_set, Ha, Hflag. reflexivity.
Qed.

End ArbitraryWidth.

(** C1. For each width in 8, 16, 32, 64 and every content of the argument
    and scratch registers, the signed and the unsigned saturated add and sub
    return the exact sum or difference of their arguments clamped to the
    bounds of the signed resp. unsigned integer type of that width, and the
    value defined for the [GetOverflowFromOp] pseudo-operation is set if and
    only if clamping changed the exact result. *)
Theorem saturated_add_sub_correct (op : Op) (w : Width) (overflow_inst : bool)
    (a b scratch : Z) :
  let size := bits w in
  let exact_signed := exact_result op (signed size a) (signed size b) in
  let exact_unsigned := exact_result op (rd size a) (rd size b) in
  let clamped_signed := clamp (signed_min size) (signed_max size) exact_signed in
  let clamped_unsigned := clamp 0 (unsigned_max size) exact_unsigned in
  let signed_op := EmitSignedSaturated op w overflow_inst a b scratch in
  let unsigned_op := EmitUnsignedSaturated op w overflow_inst a b scratch in
  signed size (fst signed_op) = clamped_signed /\
  flag_of (snd signed_op)
  = (if overflow_inst then Some (negb (clamped_signed =? exact_signed)) else None) /\
  rd size (fst unsigned_op) = clamped_unsigned /\
  flag_of (snd unsigned_op)
  = (if overflow_inst then Some (negb (clamped_unsigned =? exact_unsigned)) else None).
Proof.
  intros size.
  assert (Hs : 0 < size <= 32 \/ size = 64) by (destruct w; cbn; lia).
  assert (Hsig : EmitSignedSaturated op w = EmitSignedSaturatedOp op size)
    by (destruct op, w; reflexivity).
  assert (Huns : EmitUnsignedSaturated op w = EmitUnsignedSaturatedOp op size)
    by (destruct op, w; reflexivity).
  cbv zeta. rewrite Hsig, Huns.
  pose proof (EmitSignedSaturatedOp_correct op size overflow_inst a b scratch Hs) as [H1 H2].
  pose proof (EmitUnsignedSaturatedOp_correct op size overflow_inst a b scratch
                ltac:(lia)) as [H3 H4].
  repeat split; assumption.
Qed.

(** C2, as the specification words it, fails: at [x = y = 0x4000] (width 16)
    the emitted code returns [0x2000], and at [x = y = 0x40000000] (width 32)
    it returns [0x20000000], where a shift of the doubled product by
    [2*width - 1] gives [0]. *)
Lemma doubling_multiply_high_not_shift_by_2w_minus_1 :
  signed 16 (fst (EmitSignedSaturatedDoublingMultiplyReturnHigh16 true 0x4000 0x4000 0))
  <> specified_doubling_multiply_high 16 (signed 16 0x4000) (signed 16 0x4000) /\
  signed 32
    (fst (EmitSignedSaturatedDoublingMultiplyReturnHigh32 true 0x40000000 0x40000000 0))
  <> specified_doubling_multiply_high 32 (signed 32 0x40000000) (signed 32 0x40000000).
Proof. split; vm_compute; discriminate. Qed.

(** C2, amended. For every content of the argument and scratch registers,
    the two doubling multiplies return the doubled product of their signed
    arguments shifted right by the width (16 resp. 32), clamped to the signed
    range of that width (the upper bound, [0x7FFF] resp. [0x7FFFFFFF], is the
    one that can be hit), and the overflow value is set exactly when the
    clamping changed the result. *)
Theorem doubling_multiply_high_correct (overflow_inst : bool) (x y scratch : Z) :
  let e16 := doubling_multiply_high 16 (signed 16 x) (signed 16 y) in
  let e32 := doubling_multiply_high 32 (signed 32 x) (signed 32 y) in
  let c16 := clamp (signed_min 16) (signed_max 16) e16 in
  let c32 := clamp (signed_min 32) (signed_max 32) e32 in
  let r16 := EmitSignedSaturatedDoublingMultiplyReturnHigh16 overflow_inst x y scratch in
  let r32 := EmitSignedSaturatedDoublingMultiplyReturnHigh32 overflow_inst x y scratch in
  (signed 16 (fst r16) = c16 /\
   flag_of (snd r16) = (if overflow_inst then Some (negb (c16 =? e16)) else None)) /\
  (signed 32 (fst r32) = c32 /\
   flag_of (snd r32) = (if overflow_inst then Some (negb (c32 =? e32)) else None)) /\
  signed_max 16 = 0x7FFF /\ signed_max 32 = 0x7FFFFFFF /\
  signed_min 16 < e16 /\ signed_min 32 < e32.
Proof.
  cbv zeta. unfold doubling_multiply_high.
  split; [apply EmitSignedSaturatedDoublingMultiplyReturnHigh16_correct |].
  split; [apply EmitSignedSaturatedDoublingMultiplyReturnHigh32_correct |].
  split; [reflexivity |]. split; [reflexivity |].
  assert (Hlow : forall w u v, 0 < w ->
            - 2 ^ (w - 1) <= u < 2 ^ (w - 1) -> - 2 ^ (w - 1) <= v < 2 ^ (w - 1) ->
            signed_min w < Z.shiftr (2 * (u * v)) w).
  { intros w u v Hw Hu Hv. unfold signed_min.
    pose proof (product_range w u v Hw Hu Hv) as Hp.
    rewrite shiftr_double, Z.shiftr_div_pow2 by lia.
    pose proof (pow2_pos (w - 1) ltac:(lia)).
    assert (2 ^ (2 * w - 2) = 2 ^ (w - 1) * 2 ^ (w - 1))
      by (rewrite <- Z.pow_add_r by lia; f_equal; lia).
    assert (- 2 ^ (w - 1) + 1 <= u * v / 2 ^ (w - 1)); [| lia].
    apply Z.div_le_lower_bound; [lia |].
    destruct (Z.neg_nonneg_cases u), (Z.neg_nonneg_cases v); nia. }
  split; apply Hlow; try lia; apply signed_range; lia.
Qed.

(** A run of the code for [N = 8] on the input [0x80]. *)
Lemma EmitSignedSaturation_correct_witness :
  1 <= 8 <= 32 /\
  exists r q,
    EmitSignedSaturation true 0x80 8 1 2 = Some (r, q) /\
    signed 32 r = 127 /\
    flag_of q = Some true /\
    (8 = 32 -> r = 0x80 /\ q = Some (Z.b2z false)).
Proof.
  split; [lia |].
  exact (EmitSignedSaturation_correct true 0x80 8 1 2 ltac:(lia)).
Defined.

(** A run of the code for [N = 7] on the input [0x80]. *)
Lemma EmitUnsignedSaturation_correct_witness :
  0 <= 7 <= 31 /\
  exists r q,
    EmitUnsignedSaturation true 0x80 7 1 2 = Some (r, q) /\
    rd 32 r = 127 /\
    flag_of q = Some true.
Proof.
  split; [lia |].
  exact (EmitUnsignedSaturation_correct true 0x80 7 1 2 ltac:(lia)).
Defined.

End SaturationFacts.

(** ** The decoder *)

Module DecoderFacts.
Import Decoder.

Section FirstMatch.

Context {Visitor instruction_return_type : Type}.

Local Abbreviation matcher := (Matcher Visitor instruction_return_type).

Lemma Matches_spec (m : matcher) (w : Z) :
  Matches m w = true <-> Z.land w (mask m) = expected m.
Proof. unfold Matches. apply Z.eqb_eq. Qed.

Lemma Decode_cons (m : matcher) (table : list matcher) (w : Z) :
  Decode (m :: table) w = if Matches m w then Some m else Decode table w.
Proof. reflexivity. Qed.

Lemma Decode_Some (table : list matcher) (w : Z) (m : matcher) :
  Decode table w = Some m <->
  exists before after,
    table = before ++ m :: after /\
    Matches m w = true /\
    Forall (fun m' => Matches m' w = false) before.
Proof.
  induction table as [| m0 table IH].
  - split; [discriminate |].
    intros (before & after & E & _). destruct before; discriminate.
  - rewrite Decode_cons. destruct (Matches m0 w) eqn:Hm0.
    + split.
      * intros [= <-]. exists [], table. repeat split; [exact Hm0 | constructor].
      * intros (before & after & E & Hm & Hbefore).
        destruct before as [| b before]; simpl in E; injection E as -> ->.
        -- reflexivity.
        -- inversion Hbefore; congruence.
    + rewrite IH. split.
      * intros (before & after & -> & Hm & Hbefore).
        exists (m0 :: before), after. repeat split; [exact Hm |].
        constructor; assumption.
      * intros (before & after & E & Hm & Hbefore).
        destruct before as [| b before]; simpl in E; injection E as -> ->.
        -- congruence.
        -- exists before, after. inversion Hbefore; subst. repeat split; assumption.
Qed.

Lemma Decode_None (table : list matcher) (w : Z) :
  Decode table w = None <-> Forall (fun m' => Matches m' w = false) table.
Proof.
  induction table as [| m0 table IH].
  - split; [constructor | reflexivity].
  - rewrite Decode_cons. destruct (Matches m0 w) eqn:Hm0.
    + split; [discriminate |]. intros H; inversion H; congruence.
    + rewrite IH. split.
      * intros H; constructor; assumption.
      * intros H; inversion H; assumption.
Qed.

(** C5. [Matches] holds exactly when the masked word equals the expected
    value; the decoder's search returns a matcher exactly when that matcher
    occurs in the table, matches, and no matcher declared before it does, and
    it then invokes that matcher's handler; of two matchers that both match,
    the one declared first is chosen, whichever it is. *)
Theorem decoder_first_match (table : list matcher) (w : Z) (v : Visitor) :
  (forall m : matcher, Matches m w = true <-> Z.land w (mask m) = expected m) /\
  (forall m : matcher,
     Decode table w = Some m <->
     exists before after,
       table = before ++ m :: after /\
       Matches m w = true /\
       Forall (fun m' => Matches m' w = false) before) /\
  (Decode table w = None <-> Forall (fun m' => Matches m' w = false) table) /\
  (forall m : matcher,
     Decode table w = Some m -> DecodeAndCall table v w = Some (fn m v w)) /\
  (forall m1 m2 : matcher,
     Matches m1 w = true -> Matches m2 w = true ->
     Decode (m1 :: m2 :: table) w = Some m1 /\
     Decode (m2 :: m1 :: table) w = Some m2).
Proof.
  split; [intros m; apply Matches_spec |].
  split; [intros m; apply Decode_Some |].
  split; [apply Decode_None |].
  split.
  - intros m Hm. unfold DecodeAndCall, call. rewrite Hm.
    apply Decode_Some in Hm as (_ & _ & _ & Hmatch & _).
    rewrite Hmatch. reflexivity.
  - intros m1 m2 H1 H2. rewrite !Decode_cons, H1, H2. split; reflexivity.
Qed.

End FirstMatch.

End DecoderFacts.

(** ** Fastmem demotion *)

Module FastmemFacts.
Import BackendA64.

Section Demotion.

Variable page_table_lookup_size : Z.
Variable thunk_size : Z.

Local Abbreviation AccessMemory := (AccessMemory page_table_lookup_size).
Local Abbreviation EmitInstructions := (EmitInstructions page_table_lookup_size).
Local Abbreviation Emit := (Emit page_table_lookup_size).
Local Abbreviation perform := (perform page_table_lookup_size thunk_size).
Local Abbreviation run := (run page_table_lookup_size thunk_size).

Lemma ShouldFastmem_demoted (e : A32EmitA64) (marker : DoNotFastmemMarker) :
  marker ∈ do_not_fastmem e -> ShouldFastmem e marker = false.
Proof.
  intros Hin. unfold ShouldFastmem.
  rewrite (bool_decide_eq_false_2 (marker ∉ do_not_fastmem e)) by tauto.
  apply andb_false_r.
Qed.

(** The routines of the memory accesses never touch the set of markers. *)
Lemma AccessMemory_do_not_fastmem is_read bit_size ctx inst e :
  do_not_fastmem (AccessMemory is_read bit_size ctx inst e).1 = do_not_fastmem e.
Proof.
  unfold BackendA64.AccessMemory.
  destruct (ShouldFastmem e _); [reflexivity |].
  destruct (negb _); reflexivity.
Qed.

Lemma AccessMemory_block_descriptors is_read bit_size ctx inst e :
  block_descriptors (AccessMemory is_read bit_size ctx inst e).1 = block_descriptors e.
Proof.
  unfold BackendA64.AccessMemory.
  destruct (ShouldFastmem e _); [reflexivity |].
  destruct (negb _); reflexivity.
Qed.

(** At a demoted site the access is emitted in one of the two slow forms. *)
Lemma AccessMemory_demoted is_read bit_size ctx inst e :
  GenerateDoNotFastmemMarker ctx inst ∈ do_not_fastmem e ->
  is_fastmem (AccessMemory is_read bit_size ctx inst e).2 = false.
Proof.
  intros Hin. unfold BackendA64.AccessMemory.
  rewrite (ShouldFastmem_demoted e _ Hin).
  destruct (negb _); reflexivity.
Qed.

Lemma EmitInstructions_state ctx insts inst e :
  do_not_fastmem (EmitInstructions ctx insts inst e).1 = do_not_fastmem e /\
  block_descriptors (EmitInstructions ctx insts inst e).1 = block_descriptors e.
Proof.
  revert inst e. induction insts as [| i rest IH]; intros inst e; [split; reflexivity |].
  cbn [BackendA64.EmitInstructions].
  destruct i as [bit_size | bit_size | host_size].
  - unfold ReadMemory.
    pose proof (AccessMemory_do_not_fastmem true bit_size ctx inst e) as Hd.
    pose proof (AccessMemory_block_descriptors true bit_size ctx inst e) as Hb.
    destruct (AccessMemory true bit_size ctx inst e) as [e1 f]; cbn [fst] in Hd, Hb.
    specialize (IH (inst + 1) e1).
    destruct (EmitInstructions ctx rest (inst + 1) e1) as [e2 forms]; cbn [fst] in *.
    destruct IH as [-> ->]. split; assumption.
  - unfold WriteMemory.
    pose proof (AccessMemory_do_not_fastmem false bit_size ctx inst e) as Hd.
    pose proof (AccessMemory_block_descriptors false bit_size ctx inst e) as Hb.
    destruct (AccessMemory false bit_size ctx inst e) as [e1 f]; cbn [fst] in Hd, Hb.
    specialize (IH (inst + 1) e1).
    destruct (EmitInstructions ctx rest (inst + 1) e1) as [e2 forms]; cbn [fst] in *.
    destruct IH as [-> ->]. split; assumption.
  - specialize (IH (inst + 1) (emit host_size e)).
    destruct (EmitInstructions ctx rest (inst + 1) (emit host_size e)) as [e2 forms].
    cbn [fst] in *. exact IH.
Qed.

(** The form collected for the instruction at offset [inst + k] is the one
    its routine emitted, a slow one if the site is demoted. *)
Lemma EmitInstructions_demoted ctx insts inst e (k : nat) f :
  (Location ctx, inst + Z.of_nat k) ∈ do_not_fastmem e ->
  (EmitInstructions ctx insts inst e).2 !! k = Some (Some f) ->
  is_fastmem f = false.
Proof.
  revert inst e k. induction insts as [| i rest IH]; intros inst e k Hin Hk.
  - discriminate.
  - cbn [BackendA64.EmitInstructions] in Hk.
    destruct k as [| k].
    + replace (inst + Z.of_nat 0) with inst in Hin by lia.
      destruct i as [bit_size | bit_size | host_size].
      * unfold ReadMemory in Hk.
        pose proof (AccessMemory_demoted true bit_size ctx inst e Hin) as Hf.
        destruct (AccessMemory true bit_size ctx inst e) as [e1 f1].
        destruct (EmitInstructions ctx rest (inst + 1) e1) as [e2 forms].
        cbn in Hk, Hf. congruence.
      * unfold WriteMemory in Hk.
        pose proof (AccessMemory_demoted false bit_size ctx inst e Hin) as Hf.
        destruct (AccessMemory false bit_size ctx inst e) as [e1 f1].
        destruct (EmitInstructions ctx rest (inst + 1) e1) as [e2 forms].
        cbn in Hk, Hf. congruence.
      * destruct (EmitInstructions ctx rest (inst + 1) (emit host_size e)) as [e2 forms].
        cbn in Hk. discriminate.
    + replace (inst + Z.of_nat (S k)) with ((inst + 1) + Z.of_nat k) in Hin by lia.
      assert (Hstep : exists e1,
                 do_not_fastmem e1 = do_not_fastmem e /\
                 (EmitInstructions ctx rest (inst + 1) e1).2 !! k = Some (Some f)).
      { destruct i as [bit_size | bit_size | host_size].
        - unfold ReadMemory in Hk.
          pose proof (AccessMemory_do_not_fastmem true bit_size ctx inst e) as Hd.
          destruct (AccessMemory true bit_size ctx inst e) as [e1 f1].
          exists e1. split; [exact Hd |].
          destruct (EmitInstructions ctx rest (inst + 1) e1) as [e2 forms]. exact Hk.
        - unfold WriteMemory in Hk.
          pose proof (AccessMemory_do_not_fastmem false bit_size ctx inst e) as Hd.
          destruct (AccessMemory false bit_size ctx inst e) as [e1 f1].
          exists e1. split; [exact Hd |].
          destruct (EmitInstructions ctx rest (inst + 1) e1) as [e2 forms]. exact Hk.
        - exists (emit host_size e). split; [reflexivity |].
          destruct (EmitInstructions ctx rest (inst + 1) (emit host_size e)) as [e2 forms].
          exact Hk. }
      destruct Hstep as (e1 & Hd & Hk1).
      apply (IH (inst + 1) e1 k); [rewrite Hd; exact Hin | exact Hk1].
Qed.

Lemma cached_form_invalidate locations e marker f :
  cached_form (InvalidateBasicBlocks locations e) marker = Some f ->
  cached_form e marker = Some f.
Proof.
  unfold cached_form, InvalidateBasicBlocks. cbn.
  destruct (filter _ (block_descriptors e) !! marker.1) as [bd |] eqn:Hl; [| discriminate].
  apply map_lookup_filter_Some in Hl as [-> _]. tauto.
Qed.

Lemma DoNotFastmem_settled marker e : settled (DoNotFastmem marker e) marker.
Proof.
  split.
  - unfold DoNotFastmem, InvalidateBasicBlocks. cbn. set_solver.
  - intros f. unfold cached_form, DoNotFastmem, InvalidateBasicBlocks. cbn.
    destruct (filter _ (block_descriptors e) !! marker.1) as [bd |] eqn:Hl; [| discriminate].
    apply map_lookup_filter_Some in Hl as [_ Hnot]. cbn in Hnot. set_solver.
Qed.

Lemma DoNotFastmem_preserves marker' e marker :
  settled e marker -> settled (DoNotFastmem marker' e) marker.
Proof.
  intros [Hin Hform]. split.
  - unfold DoNotFastmem, InvalidateBasicBlocks. cbn. set_solver.
  - intros f Hf. apply Hform.
    unfold DoNotFastmem in Hf. apply cached_form_invalidate in Hf. exact Hf.
Qed.

Lemma RegisterBlock_lookup descriptor bd e (k : Z) :
  block_descriptors (RegisterBlock descriptor bd e) !! k
  = match block_descriptors e !! k with
    | Some present => Some present
    | None => if decide (descriptor = k) then Some bd else None
    end.
Proof.
  unfold RegisterBlock, emplace. cbn [block_descriptors set_block_descriptors].
  destruct (block_descriptors e !! descriptor) as [present |] eqn:Hpresent.
  - destruct (block_descriptors e !! k) eqn:Hk; [reflexivity |].
    destruct (decide (descriptor = k)) as [-> | _]; congruence.
  - destruct (decide (descriptor = k)) as [-> | Hne].
    + rewrite lookup_insert_eq, Hpresent. reflexivity.
    + rewrite lookup_insert_ne by exact Hne.
      destruct (block_descriptors e !! k); reflexivity.
Qed.

Lemma Emit_preserves block e marker :
  settled e marker -> settled (Emit block e).1 marker.
Proof.
  intros [Hin Hform]. unfold BackendA64.Emit.
  set (e0 := emit (prelude_size block) (AlignCode16 e)).
  pose proof (EmitInstructions_state block (instructions block) 0 e0) as [Hd Hb].
  pose proof (fun k f => EmitInstructions_demoted block (instructions block) 0 e0 k f) as Hforms.
  destruct (EmitInstructions block (instructions block) 0 e0) as [e1 forms].
  cbn [fst snd] in *.
  set (bd := mkBlockDescriptor _ _ forms).
  split.
  - cbn. rewrite Hd. exact Hin.
  - intros f. unfold cached_form. rewrite RegisterBlock_lookup.
    change (block_descriptors (emit (terminal_size block) e1)) with (block_descriptors e1).
    rewrite Hb. change (block_descriptors e0) with (block_descriptors e).
    pose proof (Hform f) as Hold. unfold cached_form in Hold.
    destruct (block_descriptors e !! marker.1) as [present |]; [exact Hold |].
    destruct (decide (Location block = marker.1)) as [E | E]; [| discriminate].
    cbn [host_accesses bd].
    destruct (Z.leb_spec 0 marker.2) as [Hoff | Hoff]; [| discriminate].
    destruct (forms !! Z.to_nat marker.2) as [[f' |] |] eqn:Hk; try discriminate.
    intros [= <-]. apply (Hforms (Z.to_nat marker.2) f'); [| exact Hk].
    rewrite Z2Nat.id, Z.add_0_l, E by exact Hoff.
    destruct marker; exact Hin.
Qed.

Lemma perform_preserves op e e' marker :
  settled e marker -> perform op e = Some e' -> settled e' marker.
Proof.
  intros Hs Hop. destruct op as [block | | locations | PC]; cbn in Hop.
  - injection Hop as <-. apply Emit_preserves, Hs.
  - injection Hop as <-. destruct Hs as [Hin _]. split; [exact Hin |].
    intros f. unfold cached_form. cbn. rewrite lookup_empty. discriminate.
  - injection Hop as <-. destruct Hs as [Hin Hform]. split; [exact Hin |].
    intros f Hf. apply Hform. eapply cached_form_invalidate, Hf.
  - unfold FastmemCallback in Hop.
    destruct (fastmem_patch_info e !! PC) as [info |]; [| discriminate].
    injection Hop as <-.
    pose proof (DoNotFastmem_preserves (patch_marker info)
                  (emit_far thunk_size
                     (set_patched_sites ({[PC]} ∪ patched_sites e) e)) marker) as Hp.
    apply Hp. exact Hs.
Qed.

Lemma run_preserves ops e e' marker :
  settled e marker -> run ops e = Some e' -> settled e' marker.
Proof.
  revert e. induction ops as [| op ops IH]; intros e Hs Hrun; cbn in Hrun.
  - injection Hrun as <-. exact Hs.
  - destruct (perform op e) as [e1 |] eqn:Hop; [| discriminate].
    apply (IH e1); [| exact Hrun]. eapply perform_preserves; eassumption.
Qed.

(** C6. After a site has been demoted ([DoNotFastmem]: its marker recorded,
    its block invalidated), in every state the emitter reaches by compiling
    blocks, clearing or invalidating the cache and handling further fastmem
    faults: [ShouldFastmem] is false for the marker; a compilation of the
    access at that site, read or write, emits a slow form; and the block the
    cache holds for the site's location, if any, has no fastmem form at the
    site. *)
Theorem fastmem_demotion_is_permanent (marker : DoNotFastmemMarker)
    (e : A32EmitA64) (ops : list Operation) :
  match run ops (DoNotFastmem marker e) with
  | Some e' =>
      ShouldFastmem e' marker = false /\
      (forall (is_read : bool) (bit_size : Z) (insts : list Inst) (p t : Z),
         is_fastmem
           (AccessMemory is_read bit_size (mkBlock marker.1 insts p t) marker.2 e').2
         = false) /\
      (forall patch_location : CodePtr,
         cached_form e' marker <> Some (FastmemAccess patch_location))
  | None => True
  end.
Proof.
  destruct (run ops (DoNotFastmem marker e)) as [e' |] eqn:Hrun; [| exact I].
  pose proof (run_preserves ops _ e' marker (DoNotFastmem_settled marker e) Hrun)
    as [Hin Hform].
  split; [apply ShouldFastmem_demoted, Hin |].
  split.
  - intros is_read bit_size insts p t. apply AccessMemory_demoted.
    unfold GenerateDoNotFastmemMarker. cbn. destruct marker; exact Hin.
  - intros patch_location Hf. apply Hform in Hf. discriminate.
Qed.

End Demotion.

(** A run with a fault: a block with a read at offset 1 and a write at
    offset 2 is compiled with both accesses in fastmem form; the read faults
    and is demoted; the block, compiled again, has the read in callback form
    and the write still in fastmem form. *)
Example demotion_scenario :
  let e0 := mkA32EmitA64 (Some 0x10000) None true false true 4096 65536 ∅ ∅ ∅ ∅ ∅ in
  let block := mkBlock 100 [OtherInst 8; A32ReadMemory 32; A32WriteMemory 8] 0 12 in
  (e1 ← run 40 16 [OpEmit block] e0;
   Some (cached_form e1 (100, 1), cached_form e1 (100, 2)))
  = Some (Some (FastmemAccess 4104), Some (FastmemAccess 4108)) /\
  (e3 ← run 40 16 [OpEmit block; OpFastmemCallback 4104; OpEmit block] e0;
   Some (cached_form e3 (100, 1), cached_form e3 (100, 2), ShouldFastmem e3 (100, 1)))
  = Some (Some CallbackAccess, Some (FastmemAccess 4144), false).
Proof. split; vm_compute; reflexivity. Qed.

End FastmemFacts.

(** ** The [LinkBlock] terminal *)

Module TerminalFacts.
Import BackendA64.

Section LinkBlock.

Variable PC : LocationDescriptor -> Z.
Variable UniqueHash_upper : LocationDescriptor -> Z.
Variable ReturnFromRunCodeAddress : CodePtr.
Variable ForceReturnFromRunCodeAddress : CodePtr.
Variable RSBPtrMask : Z.
Variable MOVI2R_size : Z -> Z.
Variable PushRSBHelper_size : Z.

Local Abbreviation EmitSetUpperLocationDescriptor :=
  (EmitSetUpperLocationDescriptor UniqueHash_upper MOVI2R_size).
Local Abbreviation EmitPatchJg :=
  (EmitPatchJg PC ReturnFromRunCodeAddress MOVI2R_size).
Local Abbreviation EmitTerminalImpl_LinkBlock :=
  (EmitTerminalImpl_LinkBlock PC UniqueHash_upper ReturnFromRunCodeAddress
     ForceReturnFromRunCodeAddress RSBPtrMask MOVI2R_size PushRSBHelper_size).

(** After [CMP X26, ZR] the condition [GT] holds exactly when the remaining
    cycles, a signed 64-bit number, are positive, and [LE] otherwise. *)
Lemma CMP_zero_flags (x : Z) (h : Host) :
  cond_holds CC_GT (nzcv (CMP x 0 h)) = (0 <? X64.signed 64 x) /\
  cond_holds CC_LE (nzcv (CMP x 0 h)) = negb (0 <? X64.signed 64 x).
Proof.
  unfold CMP, cond_holds. cbn [nzcv flagN flagZ flagV].
  change (X64.rd 64 0) with 0. change (X64.signed 64 0) with 0.
  rewrite !Z.sub_0_r, SaturationFacts.rd_rd by lia.
  pose proof (SaturationFacts.signed_range 64 x ltac:(lia)) as Hr.
  pose proof (SaturationFacts.rd_range 64 x ltac:(lia)) as Hrd.
  change (64 - 1) with 63 in Hr.
  assert (Hfits : X64.fits 64 (X64.signed 64 x) = true).
  { unfold X64.fits. change (64 - 1) with 63.
    apply andb_true_iff. split; [apply Z.leb_le | apply Z.ltb_lt]; lia. }
  rewrite Hfits. cbn [negb].
  unfold X64.signed in *. change (64 - 1) with 63 in *.
  change (2 ^ 64) with (2 * 2 ^ 63) in *.
  destruct (Z.ltb_spec (X64.rd 64 x) (2 ^ 63)),
    (Z.leb_spec (2 ^ 63) (X64.rd 64 x)),
    (Z.eqb_spec (X64.rd 64 x) 0); try lia; cbn;
    split; try reflexivity;
    try (symmetry; apply Z.ltb_lt; lia); try (symmetry; apply Z.ltb_ge; lia);
    try (rewrite (proj2 (Z.ltb_lt _ _)) by lia; reflexivity);
    try (rewrite (proj2 (Z.ltb_ge _ _)) by lia; reflexivity).
Qed.

(** The branch of a patch site goes to its target when the cycles are
    positive and falls through otherwise, in its short and in its long form. *)
Lemma long_branch_gt_code (ptr : CodePtr) (e : A32EmitA64) (next : Code)
    (x : Z) (h h' : Host) :
  nzcv h' = nzcv (CMP x 0 h) ->
  (long_branch_gt ptr e).2 next h'
  = if 0 <? X64.signed 64 x then Exit ptr h' else next h'.
Proof.
  intros Hflags. destruct (CMP_zero_flags x h) as [Hgt Hle].
  unfold long_branch_gt.
  destruct (_ && _); cbn [snd]; rewrite Hflags, ?Hgt, ?Hle;
    destruct (0 <? X64.signed 64 x); reflexivity.
Qed.

(** What the code of a patch site does after the compare: patched with a
    target, it jumps there on positive cycles; unpatched, it stores the PC
    and returns to the dispatcher on positive cycles; otherwise it falls
    through (the unpatched form having stored the PC). *)
Lemma EmitPatchJg_code (target_desc : LocationDescriptor) (target_code_ptr : CodePtr)
    (e : A32EmitA64) (next : Code) (x : Z) (h : Host) :
  let h1 := CMP x 0 h in
  let stored := STR_SCRATCH1_PC (MOVI2R_SCRATCH1 (PC target_desc) h1) in
  (EmitPatchJg target_desc target_code_ptr e).2 next h1
  = if target_code_ptr =? 0 then
      if 0 <? X64.signed 64 x then Exit ReturnFromRunCodeAddress stored
      else next stored
    else
      if 0 <? X64.signed 64 x then Exit target_code_ptr h1 else next h1.
Proof.
  cbv zeta. unfold BackendA64.EmitPatchJg.
  destruct (target_code_ptr =? 0); cbn [negb].
  - pose proof (fun e' =>
        long_branch_gt_code ReturnFromRunCodeAddress e' next x h
          (STR_SCRATCH1_PC (MOVI2R_SCRATCH1 (PC target_desc) (CMP x 0 h))) eq_refl) as Hb.
    match goal with
    | |- context [long_branch_gt ReturnFromRunCodeAddress ?e'] =>
        specialize (Hb e'); destruct (long_branch_gt ReturnFromRunCodeAddress e')
    end.
    cbn [snd] in *. exact Hb.
  - pose proof (long_branch_gt_code target_code_ptr e next x h (CMP x 0 h) eq_refl) as Hb.
    destruct (long_branch_gt target_code_ptr e). cbn [snd] in *. exact Hb.
Qed.

Lemma EmitPatchJg_block_descriptors target_desc target_code_ptr e :
  block_descriptors (EmitPatchJg target_desc target_code_ptr e).1 = block_descriptors e /\
  patch_information (EmitPatchJg target_desc target_code_ptr e).1 = patch_information e.
Proof.
  unfold BackendA64.EmitPatchJg, long_branch_gt.
  destruct (negb _); repeat (destruct (_ && _)); split; reflexivity.
Qed.

Lemma EmitSetUpperLocationDescriptor_emitter new_location old_location e :
  let e' := (EmitSetUpperLocationDescriptor new_location old_location e).1 in
  block_descriptors e' = block_descriptors e /\
  patch_information e' = patch_information e /\
  enable_optimizations e' = enable_optimizations e.
Proof.
  cbv zeta. unfold BackendA64.EmitSetUpperLocationDescriptor.
  destruct (negb _); repeat split; reflexivity.
Qed.

(** The update of the upper location descriptor leaves the cycles, the
    guest PC and the return stack buffer alone. *)
Lemma EmitSetUpperLocationDescriptor_code new_location old_location e h :
  let h' := (EmitSetUpperLocationDescriptor new_location old_location e).2 h in
  X26 h' = X26 h /\
  Reg_PC (jit h') = Reg_PC (jit h) /\
  rsb_ptr (jit h') = rsb_ptr (jit h) /\
  rsb_location_descriptors (jit h') = rsb_location_descriptors (jit h) /\
  rsb_codeptrs (jit h') = rsb_codeptrs (jit h).
Proof.
  cbv zeta. unfold BackendA64.EmitSetUpperLocationDescriptor.
  destruct (negb _); repeat split; reflexivity.
Qed.

(** C7. With optimizations enabled and not single stepping, the code emitted
    for a [LinkBlock(next)] terminal compares the remaining cycles ([X26])
    with zero.  If they are positive and [next] is compiled, it jumps to
    [next]'s entrypoint, the guest state as the upper location update left
    it.  If they are positive and [next] is not compiled, the site is in its
    unpatched form, which stores [next]'s PC and returns to the dispatcher.
    Otherwise it stores [next]'s PC, pushes [next]'s descriptor on the return
    stack buffer and returns to the dispatcher.  The site is recorded as a
    [jg] patch site of [next]. *)
Theorem LinkBlock_terminal (next initial_location : LocationDescriptor)
    (e : A32EmitA64) (h : Host) :
  enable_optimizations e = true ->
  let emitted := EmitTerminalImpl_LinkBlock next initial_location false e in
  let set_upper := EmitSetUpperLocationDescriptor next initial_location e in
  let h0 := set_upper.2 h in
  let cycles := X64.signed 64 (X26 h) in
  let patched_to :=
    match GetBasicBlock e next with
    | Some next_bb => if entrypoint next_bb =? 0 then None else Some (entrypoint next_bb)
    | None => None
    end in
  (exists h',
     if 0 <? cycles then
       match patched_to with
       | Some next_entrypoint =>
           emitted.2 h = Exit next_entrypoint h' /\ jit h' = jit h0
       | None =>
           emitted.2 h = Exit ReturnFromRunCodeAddress h' /\
           Reg_PC (jit h') = X64.rd 32 (PC next) /\
           rsb_ptr (jit h') = rsb_ptr (jit h) /\
           rsb_location_descriptors (jit h') = rsb_location_descriptors (jit h)
       end
     else
       emitted.2 h = Exit ForceReturnFromRunCodeAddress h' /\
       Reg_PC (jit h') = X64.rd 32 (PC next) /\
       rsb_ptr (jit h') = Z.land (rsb_ptr (jit h) + 1) RSBPtrMask /\
       rsb_location_descriptors (jit h')
       = <[Z.to_nat (rsb_ptr (jit h)) := next]> (rsb_location_descriptors (jit h))) /\
  (exists info,
     patch_information emitted.1 !! next = Some info /\
     last (jg info) = Some (code_ptr set_upper.1 + 4)).
Proof.
  intros Hopt. cbv zeta.
  unfold BackendA64.EmitTerminalImpl_LinkBlock.
  pose proof (EmitSetUpperLocationDescriptor_emitter next initial_location e)
    as (Hbd & Hpi & Hopt').
  pose proof (EmitSetUpperLocationDescriptor_code next initial_location e h)
    as (Hx & Hpc & Hptr & Hlocs & Hptrs).
  cbv zeta in Hbd, Hpi, Hopt', Hx, Hpc, Hptr, Hlocs, Hptrs.
  destruct (EmitSetUpperLocationDescriptor next initial_location e) as [e1 set_upper].
  cbn [fst snd] in *.
  rewrite Hopt', Hopt. cbn [negb orb].
  set (e2 := record_jg next (code_ptr (emit 4 e1)) (emit 4 e1)).
  assert (Hget : GetBasicBlock e2 next = GetBasicBlock e next).
  { unfold GetBasicBlock, e2. cbn. rewrite Hbd. reflexivity. }
  rewrite Hget.
  set (target := match GetBasicBlock e next with
                 | Some next_bb => entrypoint next_bb
                 | None => 0
                 end).
  assert (Hsite : (match GetBasicBlock e next with
                   | Some next_bb => EmitPatchJg next (entrypoint next_bb) e2
                   | None => EmitPatchJg next 0 e2
                   end) = EmitPatchJg next target e2).
  { unfold target. destruct (GetBasicBlock e next); reflexivity. }
  rewrite Hsite.
  pose proof (EmitPatchJg_block_descriptors next target e2) as [Hbd3 Hpi3].
  pose proof (fun k => EmitPatchJg_code next target e2 k (X26 (set_upper h)) (set_upper h))
    as Hcode.
  cbv zeta in Hcode.
  destruct (EmitPatchJg next target e2) as [e3 patch_site].
  cbn [fst snd] in *.
  split.
  - rewrite Hcode, Hx.
    unfold target. clear Hsite Hcode.
    destruct (0 <? X64.signed 64 (X26 h)).
    + destruct (GetBasicBlock e next) as [bb |].
      * destruct (entrypoint bb =? 0).
        -- eexists. split; [reflexivity |]. cbn.
           repeat split; try assumption. apply SaturationFacts.rd_rd. lia.
        -- eexists. split; reflexivity.
      * cbn [Z.eqb]. eexists. split; [reflexivity |]. cbn.
        repeat split; try assumption. apply SaturationFacts.rd_rd. lia.
    + destruct (_ =? 0);
        (eexists; split; [reflexivity |]); cbn; rewrite ?Hptr, ?Hlocs;
        repeat split; try reflexivity; apply SaturationFacts.rd_rd; lia.
  - cbn. rewrite Hpi3. unfold e2, record_jg. cbn.
    rewrite lookup_insert_eq. eexists. split; [reflexivity |].
    cbn. apply last_snoc.
Qed.

End LinkBlock.

(** A run of [LinkBlock_terminal]: the block at [0x2000] is compiled with
    entrypoint [8192], five cycles remain; the terminal's code leaves for
    the entrypoint. *)
Lemma LinkBlock_terminal_witness :
  let PC := fun d : Z => d mod 2 ^ 32 in
  let upper := fun d : Z => d / 2 ^ 32 in
  let e0 :=
    mkA32EmitA64 None None true false false 4096 65536 ∅ ∅ ∅
      {[ 0x2000 := mkBlockDescriptor 8192 64 [] ]} ∅ in
  let h0 :=
    mkHost 5 0 (mkNZCV false false false false)
      (mkA32JitState 0x1000 0 0 (replicate 8 0) (replicate 8 0)) in
  enable_optimizations e0 = true /\
  exists h',
    (EmitTerminalImpl_LinkBlock PC upper 1000 1008 7 (fun _ => 8) 40
       0x2000 0x1000 false e0).2 h0 = Exit 8192 h'.
Proof.
  cbv zeta. split; [reflexivity |].
  destruct (LinkBlock_terminal (fun d : Z => d mod 2 ^ 32) (fun d : Z => d / 2 ^ 32)
              1000 1008 7 (fun _ => 8) 40 0x2000 0x1000
              (mkA32EmitA64 None None true false false 4096 65536 ∅ ∅ ∅
                 {[ 0x2000 := mkBlockDescriptor 8192 64 [] ]} ∅)
              (mkHost 5 0 (mkNZCV false false false false)
                 (mkA32JitState 0x1000 0 0 (replicate 8 0) (replicate 8 0)))
              eq_refl) as [[h' Hrun] _].
  exists h'. exact (proj1 Hrun).
Defined.

End TerminalFacts.

(** ** The AES lowering *)

Module AESFacts.
Import AES.

Section Lowering.

Variable aes_fn : AESFn -> State -> State.
Variable ABI_SHADOW_SPACE : Z.
Variable junk_mem : Z -> Byte.byte.
Variable junk_xmm : nat -> State.
Variable junk_gpr : Z.

Local Abbreviation run := (run aes_fn ABI_SHADOW_SPACE junk_mem junk_xmm junk_gpr).
Local Abbreviation EmitAESFunction := (EmitAESFunction ABI_SHADOW_SPACE).
Local Abbreviation EmitAESInverseMixColumns := (EmitAESInverseMixColumns ABI_SHADOW_SPACE).
Local Abbreviation EmitAESDecryptSingleRound := (EmitAESDecryptSingleRound ABI_SHADOW_SPACE).
Local Abbreviation EmitAESEncryptSingleRound := (EmitAESEncryptSingleRound ABI_SHADOW_SPACE).
Local Abbreviation EmitAESMixColumns := (EmitAESMixColumns ABI_SHADOW_SPACE).

(** What [movaps] stores, [movaps] loads. *)
Lemma load16_store16 (m : Z -> Byte.byte) (addr : Z) (s : State) :
  load16 (store16 m addr s) addr = s.
Proof.
  apply vec_eq. intros i. unfold load16. rewrite lookup_fun_to_vec.
  unfold store16.
  pose proof (fin_to_nat_lt i) as Hi.
  replace ((addr <=? addr + Z.of_nat i) && (addr + Z.of_nat i <? addr + 16)) with true
    by (symmetry; apply andb_true_iff; split; [apply Z.leb_le | apply Z.ltb_lt]; lia).
  replace (addr + Z.of_nat i - addr) with (Z.of_nat i) by lia.
  rewrite Nat2Z.id.
  rewrite (proj1 (vlookup_lookup s i (s !!! i)) eq_refl). reflexivity.
Qed.

(** A load sees through a store to a disjoint 16-byte area. *)
Lemma load16_store16_other (m : Z -> Byte.byte) (addr addr' : Z) (s : State) :
  addr' + 16 <= addr \/ addr + 16 <= addr' ->
  load16 (store16 m addr s) addr' = load16 m addr'.
Proof.
  intros Hdisj. apply vec_eq. intros i. unfold load16. rewrite !lookup_fun_to_vec.
  unfold store16. pose proof (fin_to_nat_lt i) as Hi.
  destruct (Z.leb_spec addr (addr' + Z.of_nat i)),
    (Z.ltb_spec (addr' + Z.of_nat i) (addr + 16)); cbn; try reflexivity; lia.
Qed.

(** A load depends only on the sixteen bytes it reads. *)
Lemma load16_ext (m m' : Z -> Byte.byte) (addr : Z) :
  (forall a, addr <= a < addr + 16 -> m a = m' a) -> load16 m addr = load16 m' addr.
Proof.
  intros Hext. apply vec_eq. intros i. unfold load16. rewrite !lookup_fun_to_vec.
  pose proof (fin_to_nat_lt i) as Hi. apply Hext. lia.
Qed.

Lemma set_xmm_same (r : nat) (s : State) (f : nat -> State) : set_xmm r s f r = s.
Proof. unfold set_xmm. rewrite Nat.eqb_refl. reflexivity. Qed.

(** The trampoline delivers the routine's function of the input register,
    and gives the stack back. *)
Lemma EmitAESFunction_run (fn : AESFn) (input result : nat) (m : Machine) :
  let emitted := EmitAESFunction input result fn in
  xmm (run emitted.1 m) emitted.2 = aes_fn fn (xmm m input) /\
  rsp (run emitted.1 m) = rsp m.
Proof.
  cbv zeta. unfold AES.EmitAESFunction, AES.run.
  cbn [fold_left AES.exec fst snd rsp param1 param2 xmm mem].
  split; [| lia].
  rewrite set_xmm_same.
  set (sp := rsp m - (16 * 2 + ABI_SHADOW_SPACE)).
  set (stored := store16 (mem m) (sp + (ABI_SHADOW_SPACE + 16)) (xmm m input)).
  rewrite (load16_ext _ (store16 stored (sp + ABI_SHADOW_SPACE)
                           (aes_fn fn (load16 stored (sp + (ABI_SHADOW_SPACE + 16)))))).
  - rewrite load16_store16. unfold stored. rewrite load16_store16. reflexivity.
  - intros a Ha.
    destruct (Z.ltb_spec a (sp + ABI_SHADOW_SPACE)); [lia | reflexivity].
Qed.


End Lowering.

(** The scalar routine of the run multiplies as the field does. *)
Lemma Multiply_gf_mul (b : Byte.byte) (c : Z) :
  c = 0x09 \/ c = 0x0B \/ c = 0x0D \/ c = 0x0E ->
  Multiply c (byte_to_Z b) = gf_mul c (byte_to_Z b).
Proof.
  intros [-> | [-> | [-> | ->]]]; destruct b; vm_compute; reflexivity.
Qed.

Lemma example_aes_fn_InverseMixColumns (state : State) :
  example_aes_fn InverseMixColumns state = InvMixColumns state.
Proof.
  apply vec_eq. intros i. unfold example_aes_fn, InvMixColumns, inverse_mix_columns.
  rewrite !lookup_fun_to_vec. cbv zeta. unfold state_byte.
  rewrite !Multiply_gf_mul by tauto. reflexivity.
Qed.

(** The transformation on the columns of the test vectors of MixColumns. *)
Example InvMixColumns_example :
  byte_to_Z <$> vec_to_list (InvMixColumns example_state)
  = [0xDB; 0x13; 0x53; 0x45; 0xF2; 0x0A; 0x22; 0x5C;
     0x01; 0x01; 0x01; 0x01; 0xD4; 0xD4; 0xD4; 0xD5].
Proof. vm_compute. reflexivity. Qed.


End AESFacts.

(** ** The exclusive monitor *)

Module MonitorFacts.
Import ExclusiveMonitor.

Section Monitor.

Context {World : Type}.

Lemma CheckAndClear_false (m m' : Monitor) (processor_id : nat) (address : VAddr) :
  CheckAndClear m processor_id address = Some (false, m') ->
  is_locked m = false /\
  m' = Unlock m /\
  exists a, exclusive_addresses m !! processor_id = Some a /\
            a <> Z.land address RESERVATION_GRANULE_MASK.
Proof.
  unfold CheckAndClear, Lock. intros H.
  destruct (is_locked m) eqn:Hl; [discriminate |]. cbn in H.
  destruct (exclusive_addresses m !! processor_id) as [a |] eqn:Ha; [| discriminate].
  cbn in H. destruct (Z.eqb_spec a (Z.land address RESERVATION_GRANULE_MASK));
    cbn in H; [discriminate |].
  injection H as <-. repeat split. exists a. split; [reflexivity | assumption].
Qed.

Lemma CheckAndClear_true (m m' : Monitor) (processor_id : nat) (address : VAddr) :
  CheckAndClear m processor_id address = Some (true, m') ->
  exclusive_addresses m !! processor_id = Some (masked address) /\
  exclusive_values m' = exclusive_values m /\
  exclusive_addresses m'
  = (fun other_address =>
       if other_address =? masked address then INVALID_EXCLUSIVE_ADDRESS
       else other_address) <$> exclusive_addresses m.
Proof.
  unfold CheckAndClear, Lock, masked. intros H.
  destruct (is_locked m) eqn:Hl; [discriminate |]. cbn in H.
  destruct (exclusive_addresses m !! processor_id) as [a |] eqn:Ha; [| discriminate].
  cbn in H. destruct (Z.eqb_spec a (Z.land address RESERVATION_GRANULE_MASK));
    cbn in H; [| discriminate].
  injection H as <-. subst a. repeat split.
Qed.

(** C10. If [CheckAndClear] fails for the processor and the address (the
    processor's marked address is not the address), [DoExclusiveOperation]
    returns [false]; the world the operation acts on is what it was, whatever
    the operation is, so the operation was not invoked; the saved values and
    the marked addresses of the monitor are what they were. *)
Theorem DoExclusiveOperation_without_reservation (size : Z) (m m' : Monitor)
    (w : World) (processor_id : nat) (address : VAddr)
    (op : Z -> World -> bool * World) :
  CheckAndClear m processor_id address = Some (false, m') ->
  DoExclusiveOperation size m w processor_id address op = Some (false, m', w) /\
  exclusive_values m' = exclusive_values m /\
  exclusive_addresses m' = exclusive_addresses m /\
  exists a, exclusive_addresses m !! processor_id = Some a /\ a <> masked address.
Proof.
  intros Hcheck. unfold DoExclusiveOperation. rewrite Hcheck. cbn.
  apply CheckAndClear_false in Hcheck as (_ & -> & Ha).
  repeat split. exact Ha.
Qed.

End Monitor.

(** On the invalid address the check passes for a processor that marked
    nothing: clearing a mark writes that very address. *)
Example invalid_address_passes_check :
  fst <$> CheckAndClear (new 1) 0 INVALID_EXCLUSIVE_ADDRESS = Some true.
Proof. reflexivity. Qed.

(** A run of [DoExclusiveOperation_without_reservation]: processor 0 has
    marked nothing. *)
Lemma DoExclusiveOperation_without_reservation_witness :
  CheckAndClear (new 2) 0 0x1000 = Some (false, new 2) /\
  DoExclusiveOperation 4 (new 2) (∅ : gmap Z Z) 0 0x1000
    (store_word_if_unchanged 0x1000 7) = Some (false, new 2, ∅) /\
  exclusive_values (new 2) = exclusive_values (new 2) /\
  exclusive_addresses (new 2) = exclusive_addresses (new 2) /\
  exists a, exclusive_addresses (new 2) !! 0%nat = Some a /\ a <> masked 0x1000.
Proof.
  split; [reflexivity |].
  exact (DoExclusiveOperation_without_reservation 4 (new 2) (new 2) (∅ : gmap Z Z)
           0 0x1000 (store_word_if_unchanged 0x1000 7) eq_refl).
Defined.

End MonitorFacts.

(** ** Processors that use the monitor concurrently *)

Module ConcurrentMonitorFacts.
Import ExclusiveMonitor ConcurrentMonitor.

Section Processors.
Context {World : Type}.
Local Abbreviation system := (@System World).
Local Abbreviation processor := (@Processor World).

(** The cases of a step: what the processor was at, and the state after. *)
Ltac step_cases H :=
  unfold step in H; cbv zeta in H;
  match type of H with
  | context [processors ?s !! ?p] =>
      let pr := fresh "pr" in
      let Hpr := fresh "Hpr" in
      destruct (processors s !! p) as [pr |] eqn:Hpr;
      [ let Hprog := fresh "Hprog" in
        destruct (program pr) as [| [address size read store | address store] rest] eqn:Hprog;
        [ | let Hpt := fresh "Hpt" in
            destruct (point pr) eqn:Hpt;
            repeat match type of H with
                   | context [Lock ?m] =>
                       let Hlock := fresh "Hlock" in
                       unfold Lock in H; destruct (is_locked m) eqn:Hlock
                   | context [CheckAndClear_locked ?m ?q ?a] =>
                       let Hcheck := fresh "Hcheck" in
                       destruct (CheckAndClear_locked m q a) as [[[] ?m1] |] eqn:Hcheck
                   | context [exclusive_addresses ?m !! ?q] =>
                       let Haddr := fresh "Haddr" in
                       destruct (exclusive_addresses m !! q) eqn:Haddr
                   | context [exclusive_values ?m !! ?q] =>
                       let Hval := fresh "Hval" in
                       destruct (exclusive_values m !! q) eqn:Hval
                   | context [read ?w] =>
                       let Hread := fresh "Hread" in
                       destruct (read w) eqn:Hread
                   | context [store ?v ?w] =>
                       let Hstore := fresh "Hstore" in
                       destruct (store v w) eqn:Hstore
                   end
          | ]
      | ]
  end;
  injection H as <- <-.

Lemma lookup_insert_cases (procs : list processor) (p q : nat) (pr' prq : processor) :
  <[p := pr']> procs !! q = Some prq ->
  q = p /\ prq = pr' \/ q <> p /\ procs !! q = Some prq.
Proof.
  intros H. apply list_lookup_insert_Some in H as [(-> & -> & _) | [Hne H]].
  - left. split; reflexivity.
  - right. split; [congruence | exact H].
Qed.

Lemma CheckAndClear_locked_flag (m m' : Monitor) (p : nat) (a : VAddr) (held : bool) :
  CheckAndClear_locked m p a = Some (held, m') -> is_locked m' = is_locked m.
Proof.
  unfold CheckAndClear_locked. destruct (exclusive_addresses m !! p); [| discriminate].
  cbn. destruct (negb _); intros [= <- <-]; reflexivity.
Qed.

Lemma step_lock_discipline (p : nat) (s s' : system) (l : Label) :
  step p s = (s', l) -> lock_discipline s -> lock_discipline s'.
Proof.
  intros Hstep HI.
  step_cases Hstep; try exact HI.
  all: destruct HI as [Hfree Hone].
  all: try (apply CheckAndClear_locked_flag in Hcheck).
  all: split;
    [ cbn [monitor processors is_locked Unlock]; intros Hflag q prq Hq;
      apply lookup_insert_cases in Hq as [[-> ->] | [Hne Hq]]
    | cbn [monitor processors]; intros q1 q2 pr1 pr2 H1 H2 Hh1 Hh2;
      apply lookup_insert_cases in H1 as [[-> ->] | [Hne1 H1]];
      apply lookup_insert_cases in H2 as [[-> ->] | [Hne2 H2]] ].
  all: try reflexivity; try discriminate; try congruence.
  all: try (assert (Hwas : holding (point pr) = true) by (rewrite Hpt; reflexivity)).
  all: try (cbn [monitor is_locked] in Hflag; try rewrite Hcheck in Hflag).
  all: try solve [ eapply Hone; eauto
                 | symmetry; eapply Hone; eauto
                 | eapply Hfree; eauto
                 | exfalso; rewrite (Hfree ltac:(assumption) _ _ Hpr) in Hwas; discriminate
                 | exfalso;
                   match goal with
                   | H : processors _ !! ?q = Some ?prq, Hh : holding (point ?prq) = true |- _ =>
                       rewrite (Hfree ltac:(assumption) _ _ H) in Hh; discriminate
                   end
                 | match goal with
                   | H : processors _ !! ?q = Some ?prq |- holding (point ?prq) = false =>
                       destruct (holding (point prq)) eqn:Hh; [| reflexivity];
                       exfalso;
                       match goal with Hne : q <> _ |- _ => apply Hne end;
                       eapply Hone; eauto
                   end ].
Qed.
Lemma checked_holding (pt : Point) : checked pt = true -> holding pt = true.
Proof. destruct pt; cbn; congruence. Qed.

Lemma CheckAndClear_locked_false (m m' : Monitor) (p : nat) (a : VAddr) :
  CheckAndClear_locked m p a = Some (false, m') -> m' = m.
Proof.
  unfold CheckAndClear_locked. destruct (exclusive_addresses m !! p); [| discriminate].
  cbn. destruct (negb _); intros [= <-]; reflexivity.
Qed.

Lemma CheckAndClear_locked_true (m m' : Monitor) (p : nat) (a : VAddr) :
  CheckAndClear_locked m p a = Some (true, m') ->
  exclusive_addresses m !! p = Some (masked a) /\
  exclusive_addresses m'
  = (fun other_address =>
       if other_address =? masked a then INVALID_EXCLUSIVE_ADDRESS else other_address)
      <$> exclusive_addresses m.
Proof.
  unfold CheckAndClear_locked, masked.
  destruct (exclusive_addresses m !! p) as [a0 |]; [| discriminate].
  cbn. destruct (Z.eqb_spec a0 (Z.land a RESERVATION_GRANULE_MASK)); cbn; [| discriminate].
  intros [= <-]. subst a0. split; reflexivity.
Qed.

(** After the clearing loop no processor has the granule marked. *)
Lemma cleared_lookup (addresses : list VAddr) (a : VAddr) (q : nat) :
  a <> INVALID_EXCLUSIVE_ADDRESS ->
  ((fun other_address =>
      if other_address =? a then INVALID_EXCLUSIVE_ADDRESS else other_address)
     <$> addresses) !! q <> Some a.
Proof.
  intros Hvalid. rewrite list_lookup_fmap.
  destruct (addresses !! q) as [old |]; cbn; [| discriminate].
  destruct (Z.eqb_spec old a); congruence.
Qed.

Lemma step_checked_exclusive (p : nat) (s s' : system) (l : Label) :
  step p s = (s', l) -> lock_discipline s -> checked_exclusive s -> checked_exclusive s'.
Proof.
  intros Hstep [_ Hone] HI.
  step_cases Hstep; try exact HI.
  all: intros q prq a sz rd st rst Hq Hprogq Hchecked Hvalid q';
    cbn [monitor processors] in *;
    apply lookup_insert_cases in Hq as [[-> ->] | [Hne Hq]].
  all: cbn [point at_point next_item program exclusive_addresses Unlock] in *.
  all: try discriminate.
  all: try (apply CheckAndClear_locked_false in Hcheck; subst).
  all: try solve [ eapply HI; eauto
                 | eapply (HI p pr); eauto; rewrite Hpt; reflexivity ].
  all: try solve [ exfalso; apply Hne; eapply Hone; eauto using checked_holding;
                   rewrite Hpt; reflexivity ].
  apply CheckAndClear_locked_true in Hcheck as [_ ->].
  rewrite Hprog in Hprogq. injection Hprogq as -> -> -> -> ->.
  apply cleared_lookup. exact Hvalid.
Qed.

Lemma linked_snoc (tr : list Label) (l : Label) (P n : nat) (a : VAddr) :
  linked tr P n a ->
  (forall q n' a' r, l = StoresExclusively q n' a' r -> masked a' = masked a -> q = P) ->
  linked (tr ++ [l]) P n a.
Proof.
  intros (i & Hi & Hquiet) Hl. exists i. split.
  - apply lookup_app_l_Some. exact Hi.
  - intros k q n' a' r Hk Hlk Hmask. rewrite length_app in Hk. cbn in Hk.
    destruct (decide (k < length tr)%nat) as [Hlt | Hge].
    + rewrite lookup_app_l in Hlk by exact Hlt.
      apply (Hquiet k q n' a' r); [lia | exact Hlk | exact Hmask].
    + assert (k = length tr) as -> by lia.
      rewrite list_lookup_middle in Hlk by reflexivity.
      injection Hlk as ->. eapply Hl; [reflexivity | exact Hmask].
Qed.

Lemma linked_new (tr : list Label) (P n : nat) (a : VAddr) :
  linked (tr ++ [Marks P n a]) P n a.
Proof.
  exists (length tr). split.
  - apply list_lookup_middle. reflexivity.
  - intros k q n' a' r Hk. rewrite length_app in Hk. cbn in Hk. lia.
Qed.

Lemma cleared_lookup_Some (addresses : list VAddr) (a b : VAddr) (q : nat) :
  ((fun other_address =>
      if other_address =? b then INVALID_EXCLUSIVE_ADDRESS else other_address)
     <$> addresses) !! q = Some a ->
  a <> INVALID_EXCLUSIVE_ADDRESS ->
  addresses !! q = Some a.
Proof.
  rewrite list_lookup_fmap.
  destruct (addresses !! q) as [old |]; cbn; [| discriminate].
  destruct (Z.eqb_spec old b); congruence.
Qed.

Lemma step_reservations_linked (p : nat) (s s' : system) (l : Label) (tr : list Label) :
  step p s = (s', l) -> lock_discipline s -> checked_exclusive s ->
  reservations_linked s tr -> reservations_linked s' (tr ++ [l]).
Proof.
  intros Hstep [_ Hone] Hexcl HI.
  step_cases Hstep.
  all: intros q prq a sz rd st rst Hq Hprogq Hvalid Hres;
    cbn [monitor processors] in *;
    try (apply lookup_insert_cases in Hq as [[-> ->] | [Hne Hq]]).
  all: cbn [point at_point next_item program finished exclusive_addresses Unlock
              marked checked] in *.
  all: try (apply CheckAndClear_locked_false in Hcheck; subst).
  all: try solve [ destruct Hres as [[? _] | ?]; discriminate ].
  all: try solve [ apply linked_snoc; [eapply HI; eauto | intros; discriminate] ].
  (* the stepping processor itself *)
  all: try (rewrite Hprog in Hprogq; injection Hprogq as -> -> -> -> ->).
  all: try apply linked_new.
  all: try solve
    [ apply linked_snoc;
      [ eapply (HI p pr); eauto;
        first
          [ right; rewrite Hpt; reflexivity
          | left; split; [rewrite Hpt; reflexivity |];
            first
              [ destruct Hres as [[_ Ha] | ?]; [exact Ha | discriminate]
              | apply CheckAndClear_locked_true in Hcheck as [Ha _]; exact Ha ] ]
      | intros q0 n' a' r Hl Hmask; first [discriminate | congruence] ] ].
  (* another processor *)
  - rewrite list_lookup_insert_ne in Hres by congruence.
    apply linked_snoc; [eapply HI; eauto | intros; discriminate].
  - apply CheckAndClear_locked_true in Hcheck as [_ Hcleared]. rewrite Hcleared in Hres.
    apply linked_snoc; [| intros; discriminate].
    eapply HI; eauto.
    destruct Hres as [[Hm Ha] | Hc]; [left | right; exact Hc].
    split; [exact Hm |]. eapply cleared_lookup_Some; eauto.
  - apply linked_snoc; [eapply HI; eauto |].
    intros q0 n' a' r [= <- <- <- <-] Hmask. exfalso.
    destruct Hres as [[_ Ha] | Hc].
    + apply (Hexcl p pr address size read store rest Hpr Hprog
               ltac:(rewrite Hpt; reflexivity) ltac:(rewrite Hmask; exact Hvalid) q).
      rewrite Hmask. exact Ha.
    + apply Hne. symmetry. eapply Hone; eauto using checked_holding.
      rewrite Hpt. reflexivity.
Qed.

Lemma undisturbed_snoc (tr : list Label) (l : Label) :
  exclusive_success_is_undisturbed tr ->
  (forall P n a, l = DoExclusiveOperationReturns P n a true ->
                 masked a <> INVALID_EXCLUSIVE_ADDRESS -> linked tr P n a) ->
  exclusive_success_is_undisturbed (tr ++ [l]).
Proof.
  intros Htr Hl j P n a Hj Hvalid.
  assert (Hprefix : forall i i' k q n' a' r,
            (i < k < i')%nat -> (i' <= length tr)%nat ->
            (tr ++ [l]) !! k = Some (StoresExclusively q n' a' r) ->
            tr !! k = Some (StoresExclusively q n' a' r)).
  { intros i i' k q n' a' r Hk Hi' Hlk. rewrite lookup_app_l in Hlk by lia. exact Hlk. }
  destruct (decide (j < length tr)%nat) as [Hlt | Hge].
  - rewrite lookup_app_l in Hj by exact Hlt.
    destruct (Htr j P n a Hj Hvalid) as (i & Hi & Hmark & Hquiet).
    exists i. split; [exact Hi |]. split; [apply lookup_app_l_Some, Hmark |].
    intros k q n' a' r Hk Hlk Hmask.
    apply (Hquiet k q n' a' r Hk); [| exact Hmask].
    eapply Hprefix; [exact Hk | lia | exact Hlk].
  - assert (j = length tr) as ->.
    { apply lookup_lt_Some in Hj. rewrite length_app in Hj. cbn in Hj. lia. }
    rewrite list_lookup_middle in Hj by reflexivity. injection Hj as ->.
    destruct (Hl P n a eq_refl Hvalid) as (i & Hmark & Hquiet).
    exists i. split; [eapply lookup_lt_Some, Hmark |].
    split; [apply lookup_app_l_Some, Hmark |].
    intros k q n' a' r Hk Hlk Hmask.
    apply (Hquiet k q n' a' r Hk); [| exact Hmask].
    eapply Hprefix; [exact Hk | lia | exact Hlk].
Qed.

Lemma step_undisturbed (p : nat) (s s' : system) (l : Label) (tr : list Label) :
  step p s = (s', l) -> reservations_linked s tr ->
  exclusive_success_is_undisturbed tr -> exclusive_success_is_undisturbed (tr ++ [l]).
Proof.
  intros Hstep HI Htr. apply undisturbed_snoc; [exact Htr |].
  intros P n a Hl Hvalid.
  step_cases Hstep; try discriminate.
  injection Hl as <- <- <- ->.
  eapply HI; eauto. right. rewrite Hpt. reflexivity.
Qed.

(** [CheckAndClear] is its [Lock()] followed by the body the steps run. *)
Lemma CheckAndClear_by_steps (m : Monitor) (p : nat) (a : VAddr) :
  CheckAndClear m p a
  = (m1 ← Lock m;
     r ← CheckAndClear_locked m1 p a;
     Some (fst r, if fst r : bool then snd r else Unlock (snd r))).
Proof.
  unfold CheckAndClear, CheckAndClear_locked.
  destruct (Lock m) as [m1 |]; [| reflexivity]. cbn.
  destruct (exclusive_addresses m1 !! p) as [a0 |]; [| reflexivity]. cbn.
  destruct (negb _); reflexivity.
Qed.

(** A processor that takes the five steps of its [ReadAndMark] one after
    the other does what the member function does. *)
Lemma ReadAndMark_by_steps (m m' : Monitor) (w w' : World) (procs : list processor)
    (p n : nat) (address : VAddr) (size value : Z) (read : World -> Z * World)
    (store : Z -> World -> bool * World) (rest : list Item) :
  processors (mkSystem m w procs) !! p
    = Some (mkProcessor (Pair address size read store :: rest) ReadAndMark_Lock n) ->
  ReadAndMark size m w p address read = Some (value, m', w') ->
  exec [p; p; p; p; p] (mkSystem m w procs)
  = (mkSystem m' w'
       (<[p := mkProcessor (Pair address size read store :: rest) CheckAndClear_Lock n]>
          procs),
     [Locks p; Marks p n address; Reads p n value; Saves p n;
      ReadAndMarkReturns p n value]).
Proof.
  intros Hp Hrm. cbn [processors] in Hp.
  assert (Hlt : (p < length procs)%nat) by (eapply lookup_lt_Some, Hp).
  unfold ReadAndMark in Hrm. cbv zeta in Hrm.
  destruct (Lock m) as [m1 |] eqn:Hlock; [| discriminate]. cbn in Hrm.
  destruct (exclusive_addresses m1 !! p) as [a0 |] eqn:Haddr; [| discriminate].
  cbn in Hrm. destruct (read w) as [v w1] eqn:Hread.
  destruct (exclusive_values m1 !! p) as [old |] eqn:Hval; [| discriminate].
  cbn in Hrm. injection Hrm as <- <- <-.
  cbn [exec]. unfold step at 1. cbn [processors monitor world]. rewrite Hp.
  cbn [program point finished]. rewrite Hlock.
  unfold step at 1. cbn [processors monitor world].
  rewrite list_lookup_insert_eq by exact Hlt.
  cbn [program point finished at_point]. rewrite Haddr.
  unfold step at 1. cbn [processors monitor world].
  rewrite list_lookup_insert_eq by (rewrite length_insert; exact Hlt).
  cbn [program point finished at_point]. rewrite Hread.
  unfold step at 1. cbn [processors monitor world].
  rewrite list_lookup_insert_eq by (rewrite !length_insert; exact Hlt).
  cbn [program point finished at_point exclusive_values]. rewrite Hval.
  unfold step at 1. cbn [processors monitor world].
  rewrite list_lookup_insert_eq by (rewrite !length_insert; exact Hlt).
  cbn [program point finished at_point].
  rewrite !list_insert_insert_eq. reflexivity.
Qed.

(** And so for the steps of its [DoExclusiveOperation]: five when the check
    passes, three when it fails. *)
Lemma DoExclusiveOperation_by_steps (m m' : Monitor) (w w' : World)
    (procs : list processor) (p n : nat) (address : VAddr) (size : Z) (result : bool)
    (read : World -> Z * World) (store : Z -> World -> bool * World) (rest : list Item) :
  processors (mkSystem m w procs) !! p
    = Some (mkProcessor (Pair address size read store :: rest) CheckAndClear_Lock n) ->
  DoExclusiveOperation size m w p address store = Some (result, m', w') ->
  exists (steps : nat) (labels : list Label),
    exec (replicate steps p) (mkSystem m w procs)
    = (mkSystem m' w' (<[p := mkProcessor rest ReadAndMark_Lock (S n)]> procs), labels) /\
    last labels = Some (DoExclusiveOperationReturns p n address result) /\
    (StoresExclusively p n address result ∈ labels \/
     result = false /\ Checks p n address false ∈ labels).
Proof.
  intros Hp Hdx. cbn [processors] in Hp.
  assert (Hlt : (p < length procs)%nat) by (eapply lookup_lt_Some, Hp).
  unfold DoExclusiveOperation in Hdx. rewrite CheckAndClear_by_steps in Hdx.
  destruct (Lock m) as [m1 |] eqn:Hlock; [| discriminate]. cbn in Hdx.
  destruct (CheckAndClear_locked m1 p address) as [[held m2] |] eqn:Hcheck; [| discriminate].
  cbn in Hdx. destruct held; cbn in Hdx.
  - destruct (exclusive_values m2 !! p) as [saved |] eqn:Hval; [| discriminate].
    cbn in Hdx. destruct (store (memcpy_from saved size) w) as [r w1] eqn:Hstore.
    injection Hdx as <- <- <-.
    exists 5%nat,
      [Locks p; Checks p n address true; Loads p n; StoresExclusively p n address r;
       DoExclusiveOperationReturns p n address r].
    split; [| split; [reflexivity | left; set_solver]].
    cbn [replicate exec]. unfold step at 1. cbn [processors monitor world]. rewrite Hp.
    cbn [program point finished]. rewrite Hlock.
    unfold step at 1. cbn [processors monitor world].
    rewrite list_lookup_insert_eq by exact Hlt.
    cbn [program point finished at_point]. rewrite Hcheck.
    unfold step at 1. cbn [processors monitor world].
    rewrite list_lookup_insert_eq by (rewrite length_insert; exact Hlt).
    cbn [program point finished at_point]. rewrite Hval.
    unfold step at 1. cbn [processors monitor world].
    rewrite list_lookup_insert_eq by (rewrite !length_insert; exact Hlt).
    cbn [program point finished at_point]. rewrite Hstore.
    unfold step at 1. cbn [processors monitor world].
    rewrite list_lookup_insert_eq by (rewrite !length_insert; exact Hlt).
    cbn [program point finished at_point next_item tail].
    rewrite !list_insert_insert_eq. reflexivity.
  - injection Hdx as <- <- <-.
    exists 3%nat,
      [Locks p; Checks p n address false; DoExclusiveOperationReturns p n address false].
    split; [| split; [reflexivity | right; split; [reflexivity | set_solver]]].
    cbn [replicate exec]. unfold step at 1. cbn [processors monitor world]. rewrite Hp.
    cbn [program point finished]. rewrite Hlock.
    unfold step at 1. cbn [processors monitor world].
    rewrite list_lookup_insert_eq by exact Hlt.
    cbn [program point finished at_point]. rewrite Hcheck.
    unfold step at 1. cbn [processors monitor world].
    rewrite list_lookup_insert_eq by (rewrite length_insert; exact Hlt).
    cbn [program point finished at_point next_item tail].
    rewrite !list_insert_insert_eq. reflexivity.
Qed.

Lemma step_invariant (p : nat) (s s' : system) (l : Label) (tr : list Label) :
  step p s = (s', l) -> invariant s tr -> invariant s' (tr ++ [l]).
Proof.
  intros Hstep (Hlock & Hexcl & Hlinked & Htr).
  split; [eapply step_lock_discipline; eauto |].
  split; [eapply step_checked_exclusive; eauto |].
  split; [eapply step_reservations_linked; eauto |].
  eapply step_undisturbed; eauto.
Qed.

Lemma exec_invariant (schedule : list nat) (s : system) (tr : list Label) :
  invariant s tr -> invariant (exec schedule s).1 (tr ++ (exec schedule s).2).
Proof.
  revert s tr. induction schedule as [| p rest IH]; intros s tr Hinv; cbn [exec].
  - rewrite app_nil_r. exact Hinv.
  - destruct (step p s) as [s1 l] eqn:Hstep.
    specialize (IH s1 (tr ++ [l]) (step_invariant p s s1 l tr Hstep Hinv)).
    destruct (exec rest s1) as [s2 ls]. cbn [fst snd] in *.
    rewrite <- app_assoc in IH. exact IH.
Qed.

Lemma init_invariant (w : World) (programs : list (list Item)) :
  invariant (init w programs) [].
Proof.
  assert (Hpoint : forall p pr, processors (init w programs) !! p = Some pr ->
                                point pr = ReadAndMark_Lock).
  { intros p pr Hp. cbn in Hp. rewrite list_lookup_fmap in Hp.
    destruct (programs !! p); [| discriminate]. injection Hp as <-. reflexivity. }
  split; [split |].
  - intros _ p pr Hp. rewrite (Hpoint p pr Hp). reflexivity.
  - intros p q pr pr' Hp _ Hh. rewrite (Hpoint p pr Hp) in Hh. discriminate.
  - split; [| split].
    + intros p pr a sz rd st rst Hp _ Hc. rewrite (Hpoint p pr Hp) in Hc. discriminate.
    + intros p pr a sz rd st rst Hp _ _ [[Hm _] | Hc];
        rewrite (Hpoint p pr Hp) in *; discriminate.
    + intros j P n a Hj. discriminate.
Qed.

(** C9, amended. Any number of processors perform
    [ReadAndMark]/[DoExclusiveOperation] pairs (and stores that bypass the
    monitor) concurrently on a shared monitor: the statements of the member
    functions are the steps, and every order of the processors' steps is a
    schedule.  In every execution, if the [DoExclusiveOperation] of a pair
    of processor [P] on an address other than the invalid one returns
    [true], then the [ReadAndMark] of that pair marked before it, and
    between the mark and the return no other processor ran the operation of
    a [DoExclusiveOperation] on the granule of the address.  Stores that do
    not go through the monitor are not covered. *)
Theorem concurrent_exclusive_success_is_undisturbed (w : World)
    (programs : list (list Item)) (schedule : list nat)
    (j P n : nat) (address : VAddr) :
  let labels := (exec schedule (init w programs)).2 in
  labels !! j = Some (DoExclusiveOperationReturns P n address true) ->
  masked address <> INVALID_EXCLUSIVE_ADDRESS ->
  exists i : nat,
    (i < j)%nat /\
    labels !! i = Some (Marks P n address) /\
    forall (k q n' : nat) (address' : VAddr) (result : bool),
      (i < k < j)%nat ->
      labels !! k = Some (StoresExclusively q n' address' result) ->
      masked address' = masked address ->
      q = P.
Proof.
  cbv zeta. intros Hj Hvalid.
  pose proof (exec_invariant schedule (init w programs) [] (init_invariant w programs))
    as (_ & _ & _ & Htr).
  cbn [app] in Htr. exact (Htr j P n address Hj Hvalid).
Qed.

End Processors.

(** C9 as stated fails, in two ways.  In the first execution processor 0
    marks the word at [0x1000] and reads 0; processor 1 stores 5 to that
    word and then 0 again, neither store going through the monitor; the
    exclusive store of processor 0, whose operation even checks that the
    word still has the value read, returns [true].  In the second both
    processors work on the invalid address: processor 1 stores to it
    exclusively between the mark and the exclusive store of processor 0,
    which returns [true] all the same, since clearing a mark writes that
    very address. *)
Lemma exclusive_store_succeeds_after_other_stores :
  (exec [0; 0; 0; 0; 0; 1; 1; 0; 0; 0; 0; 0]%nat
     (init (∅ : gmap Z Z)
        [ [Pair 0x1000 4 (load_word 0x1000) (store_word_if_unchanged 0x1000 7)];
          [Write 0x1000 (fun w => <[0x1000 := 5]> w);
           Write 0x1000 (fun w => <[0x1000 := 0]> w)] ])).2
  = [ Locks 0; Marks 0 0 0x1000; Reads 0 0 0; Saves 0 0; ReadAndMarkReturns 0 0 0;
      StoresPlainly 1 0 0x1000; StoresPlainly 1 1 0x1000;
      Locks 0; Checks 0 0 0x1000 true; Loads 0 0; StoresExclusively 0 0 0x1000 true;
      DoExclusiveOperationReturns 0 0 0x1000 true ] /\
  (exec [0; 0; 0; 0; 0; 1; 1; 1; 1; 1; 1; 1; 1; 1; 1; 0; 0; 0; 0; 0]%nat
     (init (∅ : gmap Z Z)
        [ [Pair INVALID_EXCLUSIVE_ADDRESS 4 (load_word INVALID_EXCLUSIVE_ADDRESS)
             (store_word INVALID_EXCLUSIVE_ADDRESS 7)];
          [Pair INVALID_EXCLUSIVE_ADDRESS 4 (load_word INVALID_EXCLUSIVE_ADDRESS)
             (store_word INVALID_EXCLUSIVE_ADDRESS 9)] ])).2
  = [ Locks 0; Marks 0 0 INVALID_EXCLUSIVE_ADDRESS; Reads 0 0 0; Saves 0 0;
      ReadAndMarkReturns 0 0 0;
      Locks 1; Marks 1 0 INVALID_EXCLUSIVE_ADDRESS; Reads 1 0 0; Saves 1 0;
      ReadAndMarkReturns 1 0 0;
      Locks 1; Checks 1 0 INVALID_EXCLUSIVE_ADDRESS true; Loads 1 0;
      StoresExclusively 1 0 INVALID_EXCLUSIVE_ADDRESS true;
      DoExclusiveOperationReturns 1 0 INVALID_EXCLUSIVE_ADDRESS true;
      Locks 0; Checks 0 0 INVALID_EXCLUSIVE_ADDRESS true; Loads 0 0;
      StoresExclusively 0 0 INVALID_EXCLUSIVE_ADDRESS true;
      DoExclusiveOperationReturns 0 0 INVALID_EXCLUSIVE_ADDRESS true ].
Proof. split; vm_compute; reflexivity. Qed.

(** A run of [concurrent_exclusive_success_is_undisturbed]: two processors
    contend for the word at [0x1000].  Processor 1 marks first, processor 0
    marks while processor 1 waits, processor 1 stores exclusively (position
    18) and returns [true] (position 19), and the exclusive store of
    processor 0 fails; between the mark of processor 1 (position 2) and its
    return lie the steps of processor 0's [ReadAndMark] and the spins of
    both. *)
Lemma concurrent_exclusive_success_is_undisturbed_witness :
  let labels :=
    (exec [1; 0; 1; 1; 0; 1; 1; 0; 0; 0; 1; 0; 0; 1; 0; 1; 1; 0; 1; 1; 0; 0; 0; 0]%nat
       (init (∅ : gmap Z Z)
          [ [Pair 0x1000 4 (load_word 0x1000) (store_word 0x1000 7)];
            [Pair 0x1000 4 (load_word 0x1000) (store_word 0x1000 9)] ])).2 in
  labels !! 19%nat = Some (DoExclusiveOperationReturns 1 0 0x1000 true) /\
  labels !! 22%nat = Some (DoExclusiveOperationReturns 0 0 0x1000 false) /\
  masked 0x1000 <> INVALID_EXCLUSIVE_ADDRESS /\
  exists i : nat,
    (i < 19)%nat /\
    labels !! i = Some (Marks 1 0 0x1000) /\
    forall (k q n' : nat) (address' : VAddr) (result : bool),
      (i < k < 19)%nat ->
      labels !! k = Some (StoresExclusively q n' address' result) ->
      masked address' = masked 0x1000 ->
      q = 1%nat.
Proof.
  cbv zeta.
  split; [vm_compute; reflexivity |]. split; [vm_compute; reflexivity |].
  split; [vm_compute; discriminate |].
  refine (concurrent_exclusive_success_is_undisturbed (∅ : gmap Z Z)
            [ [Pair 0x1000 4 (load_word 0x1000) (store_word 0x1000 7)];
              [Pair 0x1000 4 (load_word 0x1000) (store_word 0x1000 9)] ]
            [1; 0; 1; 1; 0; 1; 1; 0; 0; 0; 1; 0; 0; 1; 0; 1; 1; 0; 1; 1; 0; 0; 0; 0]%nat
            19 1 0 0x1000 _ _).
  - vm_compute. reflexivity.
  - vm_compute. discriminate.
Defined.

End ConcurrentMonitorFacts.

(** ** The guest state accessors *)

Module A32GuestFacts.
Import X64 A32Guest.

Lemma testbit_rd (s x i : Z) :
  0 <= s -> Z.testbit (rd s x) i = (i <? s) && Z.testbit x i.
Proof. intros Hs. unfold rd. apply Z.testbit_mod_pow2. exact Hs. Qed.

Lemma rd_idem (s x : Z) : 0 <= s -> rd s (rd s x) = rd s x.
Proof. intros Hs. apply SaturationFacts.rd_rd. lia. Qed.

Lemma testbit_b2z (c : bool) (i : Z) : Z.testbit (Z.b2z c) i = (i =? 0) && c.
Proof.
  destruct c; cbn.
  - destruct (Z.eqb_spec i 0) as [-> | Hne]; [reflexivity |].
    destruct i; try contradiction; reflexivity.
  - rewrite Z.bits_0. symmetry. apply andb_false_r.
Qed.

Lemma testbit_one (i : Z) : Z.testbit 1 i = (i =? 0).
Proof. rewrite <- (andb_true_r (i =? 0)). exact (testbit_b2z true i). Qed.

Lemma testbit_shiftl_one (k i : Z) : 0 <= k -> 0 <= i -> Z.testbit (Z.shiftl 1 k) i = (i =? k).
Proof.
  intros Hk Hi. rewrite Z.shiftl_spec by lia.
  destruct (Z.lt_ge_cases (i - k) 0) as [Hneg | Hpos].
  - rewrite Z.testbit_neg_r by lia. symmetry. apply Z.eqb_neq. lia.
  - rewrite testbit_one. destruct (Z.eqb_spec (i - k) 0), (Z.eqb_spec i k); try reflexivity; lia.
Qed.

Ltac bits :=
  repeat first
    [ rewrite Z.land_spec | rewrite Z.lor_spec | rewrite Z.lxor_spec
    | rewrite Z.lnot_spec by lia
    | rewrite testbit_rd by lia
    | rewrite testbit_shiftl_one by lia
    | rewrite Z.shiftl_spec by lia
    | rewrite testbit_one
    | progress change (Z.ones 1) with 1
    | rewrite Z.shiftr_spec by lia
    | rewrite testbit_b2z ].

Lemma UBFX_bit (x lsb : Z) :
  0 <= lsb < 32 -> UBFX 32 x lsb 1 = Z.b2z (Z.testbit x lsb).
Proof.
  intros Hlsb. unfold UBFX. apply Z.bits_inj'. intros i Hi. bits.
  destruct (Z.eqb_spec i 0) as [-> | Hne].
  - rewrite Z.add_0_l. destruct (Z.ltb_spec lsb 32); [| lia].
    destruct (Z.testbit x lsb); reflexivity.
  - rewrite andb_false_r. reflexivity.
Qed.

Lemma LDR_STR (value : Z) (field f : Field) (st : A32JitState) :
  LDR (STR value field st) f = if decide (f = field) then rd 32 value else LDR st f.
Proof.
  unfold LDR, STR. destruct (decide (f = field)); [| reflexivity].
  apply rd_idem. lia.
Qed.

Lemma EmitA32GetFlag_word (f : Flag) (st : A32JitState) :
  EmitA32GetFlag f st = Z.b2z (Z.testbit (LDR st cpsr_nzcv) (flag_bit f)).
Proof.
  assert (Hbit : 28 <= flag_bit f <= 31) by (destruct f; cbn; lia).
  transitivity (UBFX 32 (LDR st cpsr_nzcv) (flag_bit f) 1).
  { destruct f; reflexivity. }
  apply UBFX_bit. lia.
Qed.

Lemma flag_bit_inj (f g : Flag) : flag_bit f = flag_bit g -> f = g.
Proof. destruct f, g; cbn; intros H; try reflexivity; discriminate. Qed.


Lemma EmitA32SetFlag_frame (f : Flag) (arg : Argument bool) (st : A32JitState)
    (field : Field) :
  field <> cpsr_nzcv -> EmitA32SetFlag f arg st field = st field.
Proof.
  intros Hne.
  destruct f; cbn [EmitA32SetFlag];
    unfold EmitA32SetNFlag, EmitA32SetZFlag, EmitA32SetCFlag, EmitA32SetVFlag;
    cbv zeta; unfold STR; destruct (decide (field = cpsr_nzcv));
    try contradiction; reflexivity.
Qed.

(** The setters, uniformly: the word with the flag's bit replaced. *)
Lemma EmitA32SetFlag_word (f : Flag) (arg : Argument bool) (st : A32JitState) (i : Z) :
  0 <= i ->
  Z.testbit (LDR (EmitA32SetFlag f arg st) cpsr_nzcv) i =
    if i =? flag_bit f then bit_of arg
    else Z.testbit (LDR st cpsr_nzcv) i.
Proof.
  intros Hi.
  assert (Hbit : 28 <= flag_bit f <= 31) by (destruct f; cbn; lia).
  assert (Hsame :
    LDR (EmitA32SetFlag f arg st) cpsr_nzcv =
    let flag_mask := rd 32 (Z.shiftl 1 (flag_bit f)) in
    let nzcv := LDR st cpsr_nzcv in
    rd 32 (rd 32 match arg with
          | Immediate imm =>
              if imm then ORRI2R 32 nzcv flag_mask
              else ANDI2R 32 nzcv (Z.lnot flag_mask)
          | _ => BFI 32 nzcv (DecodeReg (UseGprU1 arg)) (flag_bit f) 1
          end)).
  { destruct f; cbn [EmitA32SetFlag flag_bit];
      unfold EmitA32SetNFlag, EmitA32SetZFlag, EmitA32SetCFlag, EmitA32SetVFlag;
      cbv zeta; unfold LDR at 1, STR; destruct (decide (cpsr_nzcv = cpsr_nzcv));
      try contradiction; try reflexivity. }
  rewrite Hsame. cbv zeta. clear Hsame.
  unfold LDR. set (w := st cpsr_nzcv).
  destruct arg as [imm | v | v]; cbn [bit_of UseGprU1].
  - destruct imm; unfold ORRI2R, ANDI2R; bits;
      destruct (Z.eqb_spec i (flag_bit f)) as [He | Hne];
      destruct (Z.ltb_spec i 32); try lia; cbn;
      destruct (Z.testbit w i); reflexivity.
  - unfold BFI, DecodeReg. bits.
    destruct (Z.eqb_spec i (flag_bit f)) as [He | Hne];
      destruct (Z.ltb_spec i 32); try lia;
      destruct (Z.eqb_spec (i - flag_bit f) 0); try lia;
      destruct (Z.ltb_spec (i - flag_bit f) 32); try lia;
      try replace (i - flag_bit f) with 0 by lia;
      destruct (Z.testbit w i); try destruct (Z.testbit v _); reflexivity.
  - unfold BFI, DecodeReg. bits.
    destruct (Z.eqb_spec i (flag_bit f)) as [He | Hne];
      destruct (Z.ltb_spec i 32); try lia;
      destruct (Z.eqb_spec (i - flag_bit f) 0); try lia;
      destruct (Z.ltb_spec (i - flag_bit f) 32); try lia;
      try replace (i - flag_bit f) with 0 by lia;
      destruct (Z.testbit w i); try destruct (Z.testbit v _); reflexivity.
Qed.

(** X1. Setting one of the flags N, Z, C, V and reading a flag back: the
    flag set reads as the bit given (the immediate, or bit 0 of the
    register), every other flag reads as before, and no other field of the
    guest state changes. *)
Theorem flag_set_then_get (f g : Flag) (arg : Argument bool) (st : A32JitState) :
  EmitA32GetFlag g (EmitA32SetFlag f arg st) =
    (if decide (g = f) then Z.b2z (bit_of arg) else EmitA32GetFlag g st) /\
  (forall field, field <> cpsr_nzcv -> EmitA32SetFlag f arg st field = st field).
Proof.
  split; [| intros field; apply EmitA32SetFlag_frame].
  assert (Hbit : 28 <= flag_bit g <= 31) by (destruct g; cbn; lia).
  rewrite !EmitA32GetFlag_word, EmitA32SetFlag_word by lia.
  destruct (decide (g = f)) as [-> | Hne].
  - rewrite Z.eqb_refl. reflexivity.
  - destruct (Z.eqb_spec (flag_bit g) (flag_bit f)) as [He | _]; [| reflexivity].
    apply flag_bit_inj in He. contradiction.
Qed.

(** X2. [SetCpsrNZCV] keeps bits 31 to 28 of its argument and clears the
    rest of the word: each flag getter then answers the argument's bit of
    that flag, and no other field of the guest state changes. *)
Theorem SetCpsrNZCV_then_get (g : Flag) (arg : Argument Z) (st : A32JitState) :
  EmitA32GetFlag g (EmitA32SetCpsrNZCV arg st) = Z.b2z (Z.testbit (UseGpr arg) (flag_bit g)) /\
  Z.land (LDR (EmitA32SetCpsrNZCV arg st) cpsr_nzcv) 0x0FFFFFFF = 0 /\
  (forall field, field <> cpsr_nzcv -> EmitA32SetCpsrNZCV arg st field = st field).
Proof.
  assert (Hbit : 28 <= flag_bit g <= 31) by (destruct g; cbn; lia).
  unfold EmitA32SetCpsrNZCV, EmitA32SetCpsrNZCVRaw. cbv zeta.
  assert (Hconst : forall i, 0 <= i -> Z.testbit 0xF0000000 i = (28 <=? i) && (i <? 32)).
  { intros i Hi. change 0xF0000000 with (Z.shiftl (Z.ones 4) 28).
    rewrite Z.shiftl_spec by lia.
    destruct (Z.leb_spec 28 i).
    - rewrite Z.testbit_ones_nonneg by lia.
      destruct (Z.ltb_spec (i - 28) 4), (Z.ltb_spec i 32); try reflexivity; lia.
    - apply Z.testbit_neg_r. lia. }
  assert (Hlow : forall i, 0 <= i -> Z.testbit 0x0FFFFFFF i = (i <? 28)).
  { intros i Hi. change 0x0FFFFFFF with (Z.ones 28). apply Z.testbit_ones_nonneg; lia. }
  split; [| split].
  - rewrite EmitA32GetFlag_word, LDR_STR.
    destruct (decide (cpsr_nzcv = cpsr_nzcv)); [| contradiction].
    f_equal. unfold ANDI2R, DecodeReg. bits. rewrite Hconst by lia.
    destruct (Z.ltb_spec (flag_bit g) 32), (Z.leb_spec 28 (flag_bit g)); try lia.
    cbn. rewrite !andb_true_r. reflexivity.
  - rewrite LDR_STR. destruct (decide (cpsr_nzcv = cpsr_nzcv)); [| contradiction].
    apply Z.bits_inj'. intros i Hi. unfold ANDI2R, DecodeReg. bits.
    rewrite Hconst, Hlow, Z.bits_0 by lia.
    destruct (Z.ltb_spec i 32), (Z.leb_spec 28 i), (Z.ltb_spec i 28); try lia;
      cbn; rewrite ?andb_false_r; reflexivity.
  - intros field Hne. unfold STR. destruct (decide (field = cpsr_nzcv)); [contradiction | reflexivity].
Qed.



Lemma testbit_0xF0000000 (i : Z) :
  0 <= i -> Z.testbit 0xF0000000 i = (28 <=? i) && (i <? 32).
Proof.
  intros Hi. change 0xF0000000 with (Z.shiftl (Z.ones 4) 28).
  rewrite Z.shiftl_spec by lia.
  destruct (Z.leb_spec 28 i).
  - rewrite Z.testbit_ones_nonneg by lia.
    destruct (Z.ltb_spec (i - 28) 4), (Z.ltb_spec i 32); try reflexivity; lia.
  - apply Z.testbit_neg_r. lia.
Qed.

Lemma land_bit (x k : Z) :
  0 <= k -> (Z.land x (Z.shiftl 1 k) =? 0) = negb (Z.testbit x k).
Proof.
  intros Hk. destruct (Z.testbit x k) eqn:Hb; cbn.
  - apply Z.eqb_neq. intros H0.
    assert (Ht : Z.testbit (Z.land x (Z.shiftl 1 k)) k = true).
    { bits. rewrite Hb, Z.eqb_refl. reflexivity. }
    rewrite H0, Z.bits_0 in Ht. discriminate.
  - apply Z.eqb_eq. apply Z.bits_inj'. intros i Hi. bits. rewrite Z.bits_0.
    destruct (Z.eqb_spec i k) as [-> | Hne]; [rewrite Hb |]; rewrite ?andb_false_r; reflexivity.
Qed.

(** X3. [SetCpsrNZCVQ] with an
    immediate and with a register holding the same word leave the same
    guest state and the same host [FPSR]: [cpsr_q] is bit 27 of the word,
    [cpsr_nzcv] its bits 31 to 28, no other field changes, and of the
    host's [FPSR] exactly bit 27 (the cumulative saturation bit) is
    cleared. *)
Theorem SetCpsrNZCVQ_immediate_and_register (v : Z) (st : A32JitState) (FPSR : Z) :
  let immediate := EmitA32SetCpsrNZCVQ (Immediate v) st FPSR in
  let register := EmitA32SetCpsrNZCVQ (InGpr v) st FPSR in
  (forall field, immediate.1 field = register.1 field) /\
  immediate.2 = register.2 /\
  register.1 cpsr_q = Z.b2z (Z.testbit v 27) /\
  register.1 cpsr_nzcv = Z.land (rd 32 v) 0xF0000000 /\
  (forall field, field <> cpsr_q -> field <> cpsr_nzcv -> register.1 field = st field) /\
  (forall i, 0 <= i ->
     Z.testbit register.2 i = (i <? 64) && Z.testbit FPSR i && negb (i =? 27)).
Proof.
  cbv zeta.
  unfold EmitA32SetCpsrNZCVQ. cbv zeta. cbn [fst snd UseGpr].
  assert (Hq : rd 32 (MOVI2R 32 (rd 8 (if negb (Z.land (rd 32 v) 0x08000000 =? 0) then 1 else 0)))
               = Z.b2z (Z.testbit v 27)).
  { change 0x08000000 with (Z.shiftl 1 27). rewrite land_bit by lia.
    rewrite testbit_rd by lia. change (27 <? 32) with true. cbn [andb].
    destruct (Z.testbit v 27); reflexivity. }
  assert (Hq' : rd 32 (UBFX 32 (DecodeReg v) 27 1) = Z.b2z (Z.testbit v 27)).
  { rewrite UBFX_bit by lia. unfold DecodeReg. rewrite testbit_rd by lia.
    change (27 <? 32) with true. cbn [andb]. destruct (Z.testbit v 27); reflexivity. }
  assert (Hn : rd 32 (MOVI2R 32 (rd 32 (Z.land (rd 32 v) 0xF0000000)))
               = Z.land (rd 32 v) 0xF0000000).
  { unfold MOVI2R. rewrite !rd_idem by lia.
    apply Z.bits_inj'. intros i Hi. bits. rewrite testbit_0xF0000000 by lia.
    destruct (Z.ltb_spec i 32); cbn; rewrite ?andb_false_r; reflexivity. }
  assert (Hn' : rd 32 (ANDI2R 32 (DecodeReg v) 0xF0000000) = Z.land (rd 32 v) 0xF0000000).
  { unfold ANDI2R, DecodeReg.
    apply Z.bits_inj'. intros i Hi. bits. rewrite testbit_0xF0000000 by lia.
    destruct (Z.ltb_spec i 32); cbn; rewrite ?andb_false_r; reflexivity. }
  split; [| split; [reflexivity | split; [| split; [| split]]]].
  - intros field. unfold STR.
    destruct (decide (field = cpsr_q)) as [Eq | Hneq];
      destruct (decide (field = cpsr_nzcv)) as [En | Hnen]; subst; try discriminate.
    + rewrite Hq, Hq'. reflexivity.
    + rewrite Hn, Hn'. reflexivity.
    + reflexivity.
  - unfold STR at 1. destruct (decide (cpsr_q = cpsr_nzcv)); [discriminate |].
    unfold STR. destruct (decide (cpsr_q = cpsr_q)); [| contradiction]. exact Hq'.
  - unfold STR at 1. destruct (decide (cpsr_nzcv = cpsr_nzcv)); [| contradiction]. exact Hn'.
  - intros field H1 H2. unfold STR.
    destruct (decide (field = cpsr_nzcv)); [contradiction |].
    destruct (decide (field = cpsr_q)); [contradiction | reflexivity].
  - intros i Hi. unfold ANDI2R. bits.
    destruct (Z.ltb_spec i 64), (Z.eqb_spec i 27); cbn;
      rewrite ?andb_false_r, ?andb_true_r; reflexivity.
Qed.

Lemma ORR_nonzero (st : A32JitState) (v : Z) :
  rd 32 (ORR 32 (LDR st cpsr_q) v) <> 0 <-> LDR st cpsr_q <> 0 \/ rd 32 v <> 0.
Proof.
  assert (Hlor : rd 32 (ORR 32 (LDR st cpsr_q) v) = Z.lor (LDR st cpsr_q) (rd 32 v)).
  { unfold ORR, LDR. apply Z.bits_inj'. intros i Hi. bits.
    destruct (Z.ltb_spec i 32); cbn; reflexivity. }
  rewrite Hlor, Z.lor_eq_0_iff.
  destruct (Z.eq_dec (LDR st cpsr_q) 0), (Z.eq_dec (rd 32 v) 0); split; intros; try tauto; lia.
Qed.

(** X4. [OrQFlag] never clears the Q flag: afterwards
    [cpsr_q] is non-zero exactly when it was non-zero before or the
    argument (the immediate, or the low word of the register) is non-zero;
    no other field changes. *)
Theorem OrQFlag_is_sticky (arg : Argument bool) (st : A32JitState) :
  (LDR (EmitA32OrQFlag arg st) cpsr_q <> 0 <->
     LDR st cpsr_q <> 0 \/ rd 32 (UseGprU1 arg) <> 0) /\
  (forall field, field <> cpsr_q -> EmitA32OrQFlag arg st field = st field).
Proof.
  split.
  - destruct arg as [[] | v | v]; cbn [EmitA32OrQFlag UseGprU1]; cbv zeta;
      rewrite ?LDR_STR; try destruct (decide (cpsr_q = cpsr_q)); try contradiction.
    + unfold DecodeReg. change (rd 32 (Z.b2z true)) with 1.
      change (rd 32 1) with 1. split; [right |]; lia.
    + change (rd 32 (Z.b2z false)) with 0.
      split; [left; assumption | intros [H | H]; [assumption | contradiction]].
    + apply ORR_nonzero.
    + apply ORR_nonzero.
  - intros field Hne.
    destruct arg as [[] | v | v]; cbn [EmitA32OrQFlag]; cbv zeta; unfold STR;
      try destruct (decide (field = cpsr_q)); try contradiction; reflexivity.
Qed.


Lemma UBFX_nibble (v : Z) :
  let x := UBFX 32 (DecodeReg v) 16 4 in
  0 <= x < 16 /\ forall k, 0 <= k < 4 -> Z.testbit v (16 + k) = Z.testbit x k.
Proof.
  cbv zeta. unfold UBFX, DecodeReg. split.
  - rewrite Z.land_ones by lia. apply Z.mod_pos_bound. lia.
  - intros k Hk. bits. rewrite Z.testbit_ones_nonneg by lia.
    replace (k + 16) with (16 + k) by lia.
    destruct (Z.ltb_spec (16 + k) 32), (Z.ltb_spec k 4); try lia.
    cbn. rewrite andb_true_r. reflexivity.
Qed.

(** X5. [SetGEFlagsCompressed] expands bits
    19 to 16 of its argument into the four bytes of [cpsr_ge]: byte [i] is
    non-zero exactly when bit [16 + i] is set.  With an immediate the byte
    written for a set bit is [0xFF]; with a register it is [0x03] (the
    sequence multiplies, masks with [0x01010101] and ors the word with
    itself shifted left by one). *)
Theorem SetGEFlagsCompressed_bytes (v : Z) (st : A32JitState) (i : Z) :
  0 <= i < 4 ->
  (LDR (EmitA32SetGEFlagsCompressed (Immediate v) st) cpsr_ge / 2 ^ (8 * i)) mod 2 ^ 8
    = (if Z.testbit v (16 + i) then 0xFF else 0) /\
  (LDR (EmitA32SetGEFlagsCompressed (InGpr v) st) cpsr_ge / 2 ^ (8 * i)) mod 2 ^ 8
    = (if Z.testbit v (16 + i) then 0x03 else 0).
Proof.
  intros Hi.
  unfold EmitA32SetGEFlagsCompressed. cbv zeta. cbn [UseGpr].
  rewrite !LDR_STR. destruct (decide (cpsr_ge = cpsr_ge)); [| contradiction].
  split.
  - rewrite !testbit_rd by lia.
    change (19 <? 32) with true. change (18 <? 32) with true.
    change (17 <? 32) with true. change (16 <? 32) with true. cbn [andb].
    assert (Hcases : i = 0 \/ i = 1 \/ i = 2 \/ i = 3) by lia.
    destruct Hcases as [-> | [-> | [-> | ->]]];
      change (16 + 0) with 16; change (16 + 1) with 17;
      change (16 + 2) with 18; change (16 + 3) with 19;
      destruct (Z.testbit v 19), (Z.testbit v 18), (Z.testbit v 17), (Z.testbit v 16);
      vm_compute; reflexivity.
  - pose proof (UBFX_nibble v) as [Hx Hb]. cbv zeta in Hx, Hb.
    rewrite (Hb i) by lia.
    generalize dependent (UBFX 32 (DecodeReg v) 16 4). intros x Hx _.
    assert (Hcases : i = 0 \/ i = 1 \/ i = 2 \/ i = 3) by lia.
    assert (Hxs : x = 0 \/ x = 1 \/ x = 2 \/ x = 3 \/ x = 4 \/ x = 5 \/ x = 6 \/ x = 7 \/
                  x = 8 \/ x = 9 \/ x = 10 \/ x = 11 \/ x = 12 \/ x = 13 \/ x = 14 \/ x = 15)
      by lia.
    destruct Hcases as [-> | [-> | [-> | ->]]];
      repeat (destruct Hxs as [-> | Hxs]; [vm_compute; reflexivity |]);
      subst x; vm_compute; reflexivity.
Qed.

(** The bytes written for the word [0x50000] (bits 18 and 16 set), byte 2. *)
Lemma SetGEFlagsCompressed_bytes_witness :
  0 <= 2 < 4 /\
  (LDR (EmitA32SetGEFlagsCompressed (Immediate 0x50000) (fun _ => 0)) cpsr_ge
     / 2 ^ (8 * 2)) mod 2 ^ 8
    = (if Z.testbit 0x50000 (16 + 2) then 0xFF else 0) /\
  (LDR (EmitA32SetGEFlagsCompressed (InGpr 0x50000) (fun _ => 0)) cpsr_ge
     / 2 ^ (8 * 2)) mod 2 ^ 8
    = (if Z.testbit 0x50000 (16 + 2) then 0x03 else 0).
Proof.
  split; [lia |].
  exact (SetGEFlagsCompressed_bytes 0x50000 (fun _ => 0) 2 ltac:(lia)).
Defined.

Lemma testbit_high (u i : Z) : 0 <= u < 2 ^ 32 -> 32 <= i -> Z.testbit u i = false.
Proof.
  intros Hu Hi. rewrite <- (SaturationFacts.rd_small 32 u Hu), testbit_rd by lia.
  destruct (Z.ltb_spec i 32); [lia | reflexivity].
Qed.

Lemma land_even_mask (u : Z) : Z.testbit (Z.land u 0xFFFFFFFE) 0 = false.
Proof. rewrite Z.land_spec. apply andb_false_r. Qed.

(** X6. [BXWritePC] with a register computes at run time
    what it computes at translation time for an immediate: bit 0 of the
    target selects Thumb, the guest PC becomes the target with bit 0
    cleared (Thumb) or bits 1 and 0 cleared (ARM), the T bit (bit 0) of
    the upper location descriptor becomes bit 0 of the target, its other
    bits are those of the block's location, and the return stack buffer is
    left alone. *)
Theorem BXWritePC_target (upper pc : Z) (j : BackendA64.A32JitState) :
  let j' := EmitA32BXWritePC upper (InGpr pc) j in
  EmitA32BXWritePC upper (Immediate pc) j = j' /\
  BackendA64.Reg_PC j' =
    Z.land (rd 32 pc) (if Z.testbit pc 0 then 0xFFFFFFFE else 0xFFFFFFFC) /\
  BackendA64.upper_location_descriptor j' =
    Z.lor (Z.land (rd 32 upper) 0xFFFFFFFE) (Z.b2z (Z.testbit pc 0)) /\
  BackendA64.rsb_ptr j' = BackendA64.rsb_ptr j /\
  BackendA64.rsb_location_descriptors j' = BackendA64.rsb_location_descriptors j /\
  BackendA64.rsb_codeptrs j' = BackendA64.rsb_codeptrs j.
Proof.
  cbv zeta.
  unfold EmitA32BXWritePC. cbv zeta. cbn [UseGpr].
  cbn [BackendA64.Reg_PC BackendA64.upper_location_descriptor BackendA64.rsb_ptr
       BackendA64.rsb_location_descriptors BackendA64.rsb_codeptrs].
  set (u := rd 32 (Z.land (rd 32 upper) 0xFFFFFFFE)).
  assert (Hu : u = Z.land (rd 32 upper) 0xFFFFFFFE).
  { unfold u. apply Z.bits_inj'. intros i Hi. bits.
    destruct (Z.ltb_spec i 32); cbn; rewrite ?andb_false_r; reflexivity. }
  assert (Hu0 : Z.testbit u 0 = false) by (rewrite Hu; apply land_even_mask).
  assert (Hur : 0 <= u < 2 ^ 32) by (apply SaturationFacts.rd_range; lia).
  assert (Hbit : ANDI2R 32 (DecodeReg pc) 1 = Z.b2z (Z.testbit pc 0)).
  { unfold ANDI2R, DecodeReg. apply Z.bits_inj'. intros i Hi. bits.
    destruct (Z.eqb_spec i 0) as [-> | Hne]; cbn; rewrite ?andb_false_r, ?andb_true_r;
      reflexivity. }
  assert (Hupper : rd 32 (ADD 32 (MOVI2R 32 u) (ANDI2R 32 (DecodeReg pc) 1))
                   = Z.lor u (Z.b2z (Z.testbit pc 0))).
  { rewrite Hbit. unfold ADD, MOVI2R. rewrite !rd_idem by lia.
    rewrite (SaturationFacts.rd_small 32 u) by exact Hur.
    rewrite (SaturationFacts.rd_small 32 (Z.b2z _)) by (destruct (Z.testbit pc 0); cbn; lia).
    assert (Hdisj : Z.land u (Z.b2z (Z.testbit pc 0)) = 0).
    { apply Z.bits_inj'. intros i Hi. bits. rewrite Z.bits_0.
      destruct (Z.eqb_spec i 0) as [-> | Hne]; [rewrite Hu0 |];
        cbn; rewrite ?andb_false_r; reflexivity. }
    rewrite (Z.add_nocarry_lxor _ _ Hdisj), (Z.lxor_lor _ _ Hdisj).
    apply Z.bits_inj'. intros i Hi. bits.
    destruct (Z.ltb_spec i 32) as [Hlt | Hge]; cbn; [reflexivity |].
    destruct (Z.eqb_spec i 0); [lia |].
    rewrite (testbit_high u i) by lia. reflexivity. }
  assert (Hpc : rd 32 (AND 32 (DecodeReg pc) (SUBI2R 32 (LSL 32 (ANDI2R 32 (DecodeReg pc) 1) 1) 4))
                = Z.land (rd 32 pc) (if Z.testbit pc 0 then 0xFFFFFFFE else 0xFFFFFFFC)).
  { rewrite Hbit. unfold AND, DecodeReg. rewrite !rd_idem by lia.
    assert (Hmask : rd 32 (SUBI2R 32 (LSL 32 (Z.b2z (Z.testbit pc 0)) 1) 4)
                    = if Z.testbit pc 0 then 0xFFFFFFFE else 0xFFFFFFFC).
    { destruct (Z.testbit pc 0); vm_compute; reflexivity. }
    rewrite Hmask.
    apply Z.bits_inj'. intros i Hi. bits.
    destruct (Z.ltb_spec i 32); cbn; rewrite ?andb_false_r; reflexivity. }
  assert (Hpc_imm : rd 32 (MOVI2R 32 (Z.land (rd 32 pc)
                      (if Z.testbit (rd 32 pc) 0 then 0xFFFFFFFE else 0xFFFFFFFC)))
                    = Z.land (rd 32 pc) (if Z.testbit pc 0 then 0xFFFFFFFE else 0xFFFFFFFC)).
  { rewrite (testbit_rd 32 pc 0) by lia. change (0 <? 32) with true. cbn [andb].
    unfold MOVI2R. rewrite rd_idem by lia.
    apply Z.bits_inj'. intros i Hi. bits.
    destruct (Z.ltb_spec i 32); cbn; rewrite ?andb_false_r; reflexivity. }
  assert (Hupper_imm : rd 32 (MOVI2R 32 (Z.lor u (if Z.testbit (rd 32 pc) 0 then 1 else 0)))
                       = Z.lor u (Z.b2z (Z.testbit pc 0))).
  { rewrite (testbit_rd 32 pc 0) by lia. change (0 <? 32) with true. cbn [andb].
    unfold MOVI2R. rewrite rd_idem by lia.
    replace (if Z.testbit pc 0 then 1 else 0) with (Z.b2z (Z.testbit pc 0))
      by (destruct (Z.testbit pc 0); reflexivity).
    apply Z.bits_inj'. intros i Hi. bits.
    destruct (Z.ltb_spec i 32) as [Hlt | Hge]; cbn; [reflexivity |].
    destruct (Z.eqb_spec i 0); [lia |].
    rewrite (testbit_high u i) by lia. reflexivity. }
  rewrite Hpc, Hupper, Hpc_imm, Hupper_imm, <- Hu.
  repeat split; reflexivity.
Qed.


Lemma LDR_range (st : A32JitState) (f : Field) : 0 <= LDR st f < 2 ^ 32.
Proof. apply SaturationFacts.rd_range. lia. Qed.

Lemma shiftr_high_word (value : Z) :
  rd 32 (Z.shiftr (rd 64 value) 32) = Z.shiftr (rd 64 value) 32.
Proof.
  apply SaturationFacts.rd_small. rewrite Z.shiftr_div_pow2 by lia.
  pose proof (SaturationFacts.rd_range 64 value ltac:(lia)) as Hr.
  split; [apply Z.div_pos; lia |].
  apply Z.div_lt_upper_bound; [lia |]. change (2 ^ 32 * 2 ^ 32) with (2 ^ 64). lia.
Qed.

Lemma LDR64_LDR (st : A32JitState) (offset : Z) :
  LDR64 st offset = LDR st (ExtReg offset) + 2 ^ 32 * LDR st (ExtReg (offset + 4)).
Proof. reflexivity. Qed.

Lemma LDR64_STR64_same (value offset : Z) (st : A32JitState) :
  LDR64 (STR64 value offset st) offset = rd 64 value.
Proof.
  rewrite LDR64_LDR. unfold STR64. rewrite !LDR_STR, shiftr_high_word.
  destruct (decide (ExtReg offset = ExtReg (offset + 4))) as [E | _];
    [injection E; lia |].
  destruct (decide (ExtReg offset = ExtReg offset)); [| contradiction].
  destruct (decide (ExtReg (offset + 4) = ExtReg (offset + 4))); [| contradiction].
  rewrite Z.shiftr_div_pow2 by lia.
  pose proof (SaturationFacts.rd_rd 64 32 value ltac:(lia)) as Hlow.
  rewrite <- Hlow. unfold rd at 1.
  pose proof (Z.div_mod (rd 64 value) (2 ^ 32) ltac:(lia)). lia.
Qed.

Lemma LDR64_STR64_other (value offset offset' : Z) (st : A32JitState) :
  offset' + 8 <= offset \/ offset + 8 <= offset' ->
  LDR64 (STR64 value offset st) offset' = LDR64 st offset'.
Proof.
  intros Hdisj. rewrite !LDR64_LDR. unfold STR64. rewrite !LDR_STR.
  destruct (decide (ExtReg offset' = ExtReg (offset + 4))) as [E | _];
    [injection E; lia |].
  destruct (decide (ExtReg offset' = ExtReg offset)) as [E | _];
    [injection E; lia |].
  destruct (decide (ExtReg (offset' + 4) = ExtReg (offset + 4))) as [E | _];
    [injection E; lia |].
  destruct (decide (ExtReg (offset' + 4) = ExtReg offset)) as [E | _];
    [injection E; lia |].
  reflexivity.
Qed.

(** X7. Writing the double register
    [D i] writes the single registers [S (2 i)] (the low word) and
    [S (2 i + 1)] (the high word), as [MJitStateExtReg] places them, and
    no other extended register. *)
Theorem double_register_aliases_singles (i : nat) (arg : Argument Z) (st : A32JitState) :
  exists st',
    EmitA32SetExtendedRegister64 (DReg i) arg st = Some st' /\
    EmitA32GetExtendedRegister64 (DReg i) st' = Some (rd 64 (UseGpr arg)) /\
    EmitA32GetExtendedRegister32 (SReg (2 * i)) st' = Some (rd 32 (UseGpr arg)) /\
    EmitA32GetExtendedRegister32 (SReg (2 * i + 1)) st'
      = Some (Z.shiftr (rd 64 (UseGpr arg)) 32) /\
    (forall k : nat, k <> (2 * i)%nat -> k <> (2 * i + 1)%nat ->
       EmitA32GetExtendedRegister32 (SReg k) st' = EmitA32GetExtendedRegister32 (SReg k) st) /\
    (forall j : nat, j <> i ->
       EmitA32GetExtendedRegister64 (DReg j) st' = EmitA32GetExtendedRegister64 (DReg j) st).
Proof.
  exists (STR64 (UseGpr arg) (8 * Z.of_nat i) st).
  pose proof (shiftr_high_word (UseGpr arg)) as Hhigh.
  split; [| split; [| split; [| split; [| split]]]].
  - unfold EmitA32SetExtendedRegister64. cbn [IsDoubleExtReg MJitStateExtReg].
    destruct (IsInFpr arg); reflexivity.
  - unfold EmitA32GetExtendedRegister64. cbn [IsDoubleExtReg MJitStateExtReg].
    rewrite LDR64_STR64_same. reflexivity.
  - unfold EmitA32GetExtendedRegister32. cbn [IsSingleExtReg MJitStateExtReg].
    unfold STR64. rewrite !LDR_STR.
    replace (4 * Z.of_nat (2 * i)) with (8 * Z.of_nat i) by lia.
    destruct (decide (ExtReg (8 * Z.of_nat i) = ExtReg (8 * Z.of_nat i + 4))) as [E | _];
      [injection E; lia |].
    destruct (decide (ExtReg (8 * Z.of_nat i) = ExtReg (8 * Z.of_nat i))); [reflexivity | contradiction].
  - unfold EmitA32GetExtendedRegister32. cbn [IsSingleExtReg MJitStateExtReg].
    unfold STR64. rewrite !LDR_STR.
    replace (4 * Z.of_nat (2 * i + 1)) with (8 * Z.of_nat i + 4) by lia.
    destruct (decide (ExtReg (8 * Z.of_nat i + 4) = ExtReg (8 * Z.of_nat i + 4)));
      [| contradiction].
    rewrite Hhigh. reflexivity.
  - intros k Hk0 Hk1. unfold EmitA32GetExtendedRegister32. cbn [IsSingleExtReg MJitStateExtReg].
    unfold STR64. rewrite !LDR_STR.
    destruct (decide (ExtReg (4 * Z.of_nat k) = ExtReg (8 * Z.of_nat i + 4))) as [E | _];
      [injection E; lia |].
    destruct (decide (ExtReg (4 * Z.of_nat k) = ExtReg (8 * Z.of_nat i))) as [E | _];
      [injection E; lia | reflexivity].
  - intros j Hj. unfold EmitA32GetExtendedRegister64. cbn [IsDoubleExtReg MJitStateExtReg].
    rewrite LDR64_STR64_other by lia. reflexivity.
Qed.


Section Exclusive.
Context {World : Type}.
Variable RESERVATION_GRANULE_MASK : Z.
Variable bit_size : Z.
Variable fn : Z -> Z -> World -> World.

Local Abbreviation same_granule := (same_granule RESERVATION_GRANULE_MASK).
Local Abbreviation ExclusiveWrite :=
  (ExclusiveWrite RESERVATION_GRANULE_MASK bit_size fn).

Lemma TSTI2R_NEQ_granule (a b : Z) :
  TSTI2R_NEQ 32 (EOR 32 a b) RESERVATION_GRANULE_MASK = false <-> same_granule a b.
Proof.
  unfold TSTI2R_NEQ, EOR, A32Guest.same_granule.
  set (m := rd 32 RESERVATION_GRANULE_MASK).
  rewrite negb_false_iff, Z.eqb_eq.
  assert (Hx : rd 32 (Z.lxor (rd 32 a) (rd 32 b)) = Z.lxor (rd 32 a) (rd 32 b)).
  { apply Z.bits_inj'. intros i Hi. bits.
    destruct (Z.ltb_spec i 32); cbn; reflexivity. }
  rewrite Hx.
  assert (Hd : Z.land (Z.lxor (rd 32 a) (rd 32 b)) m
               = Z.lxor (Z.land (rd 32 a) m) (Z.land (rd 32 b) m)).
  { apply Z.bits_inj'. intros i Hi. rewrite !Z.lxor_spec, !Z.land_spec, Z.lxor_spec.
    destruct (Z.testbit (rd 32 a) i), (Z.testbit (rd 32 b) i), (Z.testbit m i); reflexivity. }
  rewrite Hd. apply Z.lxor_eq_0_iff.
Qed.

Lemma ExclusiveWrite_success (vaddr value : Argument Z) (st : A32JitState) (w : World) :
  LDR st exclusive_state <> 0 ->
  same_granule (UseGpr vaddr) (LDR st exclusive_address) ->
  ExclusiveWrite vaddr value st w =
    (0, STR 0 exclusive_state st, fn (rd 32 (UseGpr vaddr)) (rd bit_size (UseGpr value)) w).
Proof.
  intros Hnz Hsame. unfold A32Guest.ExclusiveWrite. cbv zeta. unfold CBZ.
  assert (Hldr : rd 32 (LDR st exclusive_state) = LDR st exclusive_state)
    by (unfold LDR; apply rd_idem; lia).
  rewrite Hldr. destruct (Z.eqb_spec (LDR st exclusive_state) 0); [contradiction |].
  apply TSTI2R_NEQ_granule in Hsame. rewrite Hsame. reflexivity.
Qed.

Lemma ExclusiveWrite_failure (vaddr value : Argument Z) (st : A32JitState) (w : World) :
  LDR st exclusive_state = 0 \/
  ~ same_granule (UseGpr vaddr) (LDR st exclusive_address) ->
  ExclusiveWrite vaddr value st w = (1, st, w).
Proof.
  intros Hfail. unfold A32Guest.ExclusiveWrite. cbv zeta. unfold CBZ.
  assert (Hldr : rd 32 (LDR st exclusive_state) = LDR st exclusive_state)
    by (unfold LDR; apply rd_idem; lia).
  rewrite Hldr. destruct (Z.eqb_spec (LDR st exclusive_state) 0); [reflexivity |].
  destruct Hfail as [Hz | Hdiff]; [contradiction |].
  destruct (TSTI2R_NEQ 32 _ _) eqn:Htst; [reflexivity |].
  apply TSTI2R_NEQ_granule in Htst. contradiction.
Qed.

Lemma same_granule_dec (a b : Z) : {same_granule a b} + {~ same_granule a b}.
Proof. unfold A32Guest.same_granule. apply Z.eq_dec. Qed.

(** X8. [ExclusiveWrite] stores exactly when the
    local monitor is armed ([exclusive_state] is not zero) and the address
    lies in the granule of [exclusive_address]: it then calls the memory
    write callback once, with the address and the value truncated to the
    access width, disarms the monitor and defines 0; otherwise it defines
    1, calls nothing and leaves the guest state as it is. *)
Theorem ExclusiveWrite_outcome (vaddr value : Argument Z) (st : A32JitState) (w : World) :
  let armed :=
    LDR st exclusive_state <> 0 /\
    same_granule (UseGpr vaddr) (LDR st exclusive_address) in
  let '(passed, st', w') := ExclusiveWrite vaddr value st w in
  (armed ->
     passed = 0 /\
     w' = fn (rd 32 (UseGpr vaddr)) (rd bit_size (UseGpr value)) w /\
     LDR st' exclusive_state = 0 /\
     forall field, field <> exclusive_state -> st' field = st field) /\
  (~ armed -> passed = 1 /\ w' = w /\ st' = st).
Proof.
  cbv zeta.
  destruct (Z.eq_dec (LDR st exclusive_state) 0) as [Hz | Hnz].
  - rewrite ExclusiveWrite_failure by (left; exact Hz).
    split; [intros [Hne _]; contradiction | intros _; repeat split; reflexivity].
  - destruct (same_granule_dec (UseGpr vaddr) (LDR st exclusive_address)) as [Hs | Hd].
    + rewrite ExclusiveWrite_success by assumption.
      split; [intros _ | intros Hnot; exfalso; apply Hnot; split; assumption].
      split; [reflexivity | split; [reflexivity | split]].
      * rewrite LDR_STR.
        destruct (decide (exclusive_state = exclusive_state)); [reflexivity | contradiction].
      * intros field Hne. unfold STR.
        destruct (decide (field = exclusive_state)); [contradiction | reflexivity].
    + rewrite ExclusiveWrite_failure by (right; exact Hd).
      split; [intros [_ Hs]; contradiction | intros _; repeat split; reflexivity].
Qed.

(** X9. After [SetExclusive] (whose
    size argument must be an immediate), an exclusive write to the granule
    marked succeeds, and the exclusive write that follows it fails whatever
    its address: a reservation is used once.  An exclusive write to another
    granule fails and leaves the reservation in place.  After
    [ClearExclusive] an exclusive write fails. *)
Theorem exclusive_reservation_is_used_once
    (address size vaddr value vaddr' value' : Argument Z)
    (st : A32JitState) (w : World) :
  match EmitA32SetExclusive address size st with
  | None => IsImmediate size = false
  | Some st1 =>
      let '(passed, st2, w2) := ExclusiveWrite vaddr value st1 w in
      let '(passed', st3, w3) := ExclusiveWrite vaddr' value' st2 w2 in
      (same_granule (UseGpr vaddr) (UseGpr address) ->
         passed = 0 /\
         w2 = fn (rd 32 (UseGpr vaddr)) (rd bit_size (UseGpr value)) w /\
         passed' = 1 /\ w3 = w2 /\ st3 = st2) /\
      (~ same_granule (UseGpr vaddr) (UseGpr address) ->
         passed = 1 /\ w2 = w /\ st2 = st1)
  end /\
  ExclusiveWrite vaddr value (EmitA32ClearExclusive st) w = (1, EmitA32ClearExclusive st, w).
Proof.
  split.
  - unfold EmitA32SetExclusive. destruct (IsImmediate size); [| reflexivity]. cbv zeta.
    set (st1 := STR (DecodeReg (UseGpr address)) exclusive_address
                  (STR (MOVI2R 32 (rd 8 1)) exclusive_state st)).
    assert (Hstate : LDR st1 exclusive_state = 1).
    { unfold st1. rewrite !LDR_STR.
      destruct (decide (exclusive_state = exclusive_address)); [discriminate |].
      destruct (decide (exclusive_state = exclusive_state)); [reflexivity | contradiction]. }
    assert (Haddr : LDR st1 exclusive_address = rd 32 (UseGpr address)).
    { unfold st1. rewrite LDR_STR.
      destruct (decide (exclusive_address = exclusive_address)); [| contradiction].
      unfold DecodeReg. apply rd_idem. lia. }
    assert (Hg : forall a, same_granule a (LDR st1 exclusive_address)
                           <-> same_granule a (UseGpr address)).
    { intros a. unfold A32Guest.same_granule. rewrite Haddr, rd_idem by lia. reflexivity. }
    destruct (same_granule_dec (UseGpr vaddr) (UseGpr address)) as [Hs | Hd].
    + rewrite (ExclusiveWrite_success vaddr value st1 w
                 ltac:(rewrite Hstate; lia) (proj2 (Hg _) Hs)).
      rewrite ExclusiveWrite_failure.
      * split; [intros _; repeat split; reflexivity | intros Hnot; contradiction].
      * left. rewrite LDR_STR.
        destruct (decide (exclusive_state = exclusive_state)); [reflexivity | contradiction].
    + rewrite (ExclusiveWrite_failure vaddr value st1) by (right; rewrite Hg; exact Hd).
      destruct (ExclusiveWrite vaddr' value' st1 w) as [[passed' st3] w3].
      split; [intros Hs; contradiction | intros _; repeat split; reflexivity].
  - apply ExclusiveWrite_failure. left. unfold EmitA32ClearExclusive.
    rewrite LDR_STR.
    destruct (decide (exclusive_state = exclusive_state)); [reflexivity | contradiction].
Qed.
End Exclusive.

End A32GuestFacts.

(** ** The block terminals *)

Module A32TerminalsFacts.
Import BackendA64 A32Terminals.

Section Terminals.

Variable PC : Z -> Z.
Variable UniqueHash_upper : Z -> Z.
Variable ReturnFromRunCodeAddress : Z.
Variable ForceReturnFromRunCodeAddress : Z.
Variable RSBPtrMask : Z.
Variable MOVI2R_size : Z -> Z.
Variable PushRSBHelper_size : Z.
Variable ReturnFromRunCodeAddress_fpscr_already_exited : Z.
Variable TFlag EFlag : Z -> bool.
Variable enable_fast_dispatch : bool.
Variable terminal_handler_pop_rsb_hint : Z.
Variable terminal_handler_fast_dispatch_hint : Z.
Context {Cond : Type}.
Variable EmitCond : Cond -> Machine -> bool * Machine.
Variable EmitCond_size : Cond -> Z.
Variable SwitchFpscrOnExit : Machine -> Machine.
Variable SwitchFpscrOnExit_size : Z.
Variable InterpreterFallback : Z -> Z -> Machine -> Machine.
Variable EmitCall_size : Z.

Local Abbreviation EmitTerminal :=
  (EmitTerminal PC UniqueHash_upper ReturnFromRunCodeAddress
     ForceReturnFromRunCodeAddress RSBPtrMask MOVI2R_size PushRSBHelper_size
     ReturnFromRunCodeAddress_fpscr_already_exited TFlag EFlag enable_fast_dispatch
     terminal_handler_pop_rsb_hint terminal_handler_fast_dispatch_hint
     EmitCond EmitCond_size SwitchFpscrOnExit SwitchFpscrOnExit_size
     InterpreterFallback EmitCall_size).
Local Abbreviation returns_to_dispatcher :=
  (returns_to_dispatcher ReturnFromRunCodeAddress ForceReturnFromRunCodeAddress
     ReturnFromRunCodeAddress_fpscr_already_exited).
Local Abbreviation EmitSetUpperLocationDescriptor :=
  (EmitSetUpperLocationDescriptor UniqueHash_upper MOVI2R_size).

Local Abbreviation rd := X64.rd.
Local Abbreviation unlinked := (unlinked enable_fast_dispatch).
Local Abbreviation PushRSBHelper := (PushRSBHelper ReturnFromRunCodeAddress RSBPtrMask).

(** What emission keeps of the emitter. *)
Local Abbreviation same_links e e' :=
  (patch_information e' = patch_information e /\
   enable_optimizations e' = enable_optimizations e).

Lemma same_links_refl e : same_links e e.
Proof. split; reflexivity. Qed.

Lemma same_links_trans e1 e2 e3 : same_links e1 e2 -> same_links e2 e3 -> same_links e1 e3.
Proof. intros [H1 H2] [H3 H4]. split; congruence. Qed.

Lemma same_links_emit n e : same_links e (emit n e).
Proof. split; reflexivity. Qed.

Lemma unlinked_same_links s e e' : same_links e e' -> unlinked s e -> unlinked s e'.
Proof.
  intros [_ Hopt] [Hs | [Ho Hf]]; [left; exact Hs | right; split; [congruence | exact Hf]].
Qed.

Lemma unlinked_cases s e :
  unlinked s e -> negb (enable_optimizations e) || s = true /\ enable_fast_dispatch && negb s = false.
Proof.
  intros [-> | [-> ->]]; split; cbn; rewrite ?orb_true_r, ?andb_false_r; reflexivity.
Qed.

(** X10. When single stepping, or with
    optimizations and fast dispatch both disabled, the code emitted for a
    terminal, whatever its variant and nesting, leaves only through the
    dispatcher's return addresses, never to another block or to a handler,
    and emitting it records no patch site. *)
Theorem single_stepping_never_links (terminal : Term Cond)
    (initial_location : Z) (is_single_step : bool)
    (e e' : A32EmitA64) (code : TerminalCode) :
  unlinked is_single_step e ->
  EmitTerminal terminal initial_location is_single_step e = Some (e', code) ->
  patch_information e' = patch_information e /\
  forall m, exists target m', code m = LeaveTo target m' /\ returns_to_dispatcher target.
Proof.
  intros Hun Hemit.
  enough (same_links e e' /\
          forall m, exists target m', code m = LeaveTo target m' /\ returns_to_dispatcher target)
    as [[Hpi _] Hcode] by (split; assumption).
  revert e e' code Hun Hemit.
  induction terminal as [next num | | next | next | | | c then_ IHthen else_ IHelse
                        | then_ IHthen else_ IHelse | else_ IHelse];
    intros e e' code Hun Hemit; cbn [A32Terminals.EmitTerminal] in Hemit.
  - (* Interpret *)
    unfold EmitTerminalImpl_Interpret in Hemit.
    destruct (negb (Bool.eqb (TFlag next) (TFlag initial_location))); [discriminate |].
    destruct (negb (Bool.eqb (EFlag next) (EFlag initial_location))); [discriminate |].
    injection Hemit as <- <-. split; [split; reflexivity |].
    intros m. eexists _, _. split; [reflexivity |]. right. right. reflexivity.
  - (* ReturnToDispatch *)
    injection Hemit as <- <-. split; [split; reflexivity |].
    intros m. eexists _, _. split; [reflexivity |]. left. reflexivity.
  - (* LinkBlock *)
    unfold EmitTerminalImpl_LinkBlock in Hemit.
    pose proof (TerminalFacts.EmitSetUpperLocationDescriptor_emitter UniqueHash_upper
                  MOVI2R_size next initial_location e) as (_ & Hpi & Hopt).
    cbv zeta in Hpi, Hopt.
    destruct (EmitSetUpperLocationDescriptor next initial_location e) as [e1 set_upper].
    cbn [fst] in Hpi, Hopt.
    destruct (unlinked_cases _ _ Hun) as [Hslow _]. rewrite Hopt, Hslow in Hemit.
    injection Hemit as <- <-. split; [split; cbn; assumption |].
    intros m. eexists _, _. split; [reflexivity |]. left. reflexivity.
  - (* LinkBlockFast *)
    unfold EmitTerminalImpl_LinkBlockFast in Hemit.
    pose proof (TerminalFacts.EmitSetUpperLocationDescriptor_emitter UniqueHash_upper
                  MOVI2R_size next initial_location e) as (_ & Hpi & Hopt).
    cbv zeta in Hpi, Hopt.
    destruct (EmitSetUpperLocationDescriptor next initial_location e) as [e1 set_upper].
    cbn [fst] in Hpi, Hopt.
    destruct (unlinked_cases _ _ Hun) as [Hslow _]. rewrite Hopt, Hslow in Hemit.
    injection Hemit as <- <-. split; [split; cbn; assumption |].
    intros m. eexists _, _. split; [reflexivity |]. left. reflexivity.
  - (* PopRSBHint *)
    unfold EmitTerminalImpl_PopRSBHint in Hemit.
    destruct (unlinked_cases _ _ Hun) as [Hslow _]. rewrite Hslow in Hemit.
    injection Hemit as <- <-. split; [split; reflexivity |].
    intros m. eexists _, _. split; [reflexivity |]. left. reflexivity.
  - (* FastDispatchHint *)
    unfold EmitTerminalImpl_FastDispatchHint in Hemit.
    destruct (unlinked_cases _ _ Hun) as [_ Hfast]. rewrite Hfast in Hemit.
    injection Hemit as <- <-. split; [split; reflexivity |].
    intros m. eexists _, _. split; [reflexivity |]. left. reflexivity.
  - (* If *)
    unfold EmitTerminalImpl_If in Hemit. cbv zeta in Hemit.
    destruct (EmitTerminal else_ initial_location is_single_step (emit (EmitCond_size c) e))
      as [[e1 else_code] |] eqn:Helse; [| discriminate].
    cbn in Hemit.
    destruct (EmitTerminal then_ initial_location is_single_step e1)
      as [[e2 then_code] |] eqn:Hthen; [| discriminate].
    cbn in Hemit. injection Hemit as <- <-.
    destruct (IHelse _ _ _ (unlinked_same_links _ _ _ (same_links_emit _ e) Hun) Helse)
      as [Hl1 Hc1].
    assert (Hun1 : unlinked is_single_step e1).
    { eapply unlinked_same_links; [| exact Hun].
      eapply same_links_trans; [apply same_links_emit | exact Hl1]. }
    destruct (IHthen _ _ _ Hun1 Hthen) as [Hl2 Hc2].
    split.
    + eapply same_links_trans; [| exact Hl2].
      eapply same_links_trans; [apply same_links_emit | exact Hl1].
    + intros m. destruct (EmitCond c m) as [[] m']; [apply Hc2 | apply Hc1].
  - (* CheckBit *)
    unfold EmitTerminalImpl_CheckBit in Hemit. cbv zeta in Hemit.
    destruct (EmitTerminal then_ initial_location is_single_step (emit 4 (emit 4 e)))
      as [[e1 then_code] |] eqn:Hthen; [| discriminate].
    cbn in Hemit.
    destruct (EmitTerminal else_ initial_location is_single_step e1)
      as [[e2 else_code] |] eqn:Helse; [| discriminate].
    cbn in Hemit. injection Hemit as <- <-.
    assert (Hl0 : same_links e (emit 4 (emit 4 e))) by (split; reflexivity).
    destruct (IHthen _ _ _ (unlinked_same_links _ _ _ Hl0 Hun) Hthen) as [Hl1 Hc1].
    assert (Hun1 : unlinked is_single_step e1).
    { eapply unlinked_same_links; [| exact Hun].
      eapply same_links_trans; [exact Hl0 | exact Hl1]. }
    destruct (IHelse _ _ _ Hun1 Helse) as [Hl2 Hc2].
    split.
    + eapply same_links_trans; [| exact Hl2].
      eapply same_links_trans; [exact Hl0 | exact Hl1].
    + intros m. cbv zeta. destruct (A32Guest.CBZ 32 _); [apply Hc2 | apply Hc1].
  - (* CheckHalt *)
    unfold EmitTerminalImpl_CheckHalt in Hemit. cbv zeta in Hemit.
    destruct (EmitTerminal else_ initial_location is_single_step (emit 4 (emit 4 (emit 4 e))))
      as [[e1 else_code] |] eqn:Helse; [| discriminate].
    cbn in Hemit. injection Hemit as <- <-.
    assert (Hl0 : same_links e (emit 4 (emit 4 (emit 4 e)))) by (split; reflexivity).
    destruct (IHelse _ _ _ (unlinked_same_links _ _ _ Hl0 Hun) Helse) as [Hl1 Hc1].
    split.
    + eapply same_links_trans; [exact Hl0 | exact Hl1].
    + intros m. cbv zeta. destruct (A32Guest.CBZ 32 _); [apply Hc1 |].
      eexists _, _. split; [reflexivity |]. right. left. reflexivity.
Qed.

Local Abbreviation EmitPatchJmp := (EmitPatchJmp PC ReturnFromRunCodeAddress MOVI2R_size).
Local Abbreviation EmitTerminalImpl_LinkBlockFast :=
  (EmitTerminalImpl_LinkBlockFast PC UniqueHash_upper ReturnFromRunCodeAddress MOVI2R_size).

Lemma EmitPatchJmp_emitter target_desc target_code_ptr e :
  let e' := (EmitPatchJmp target_desc target_code_ptr e).1 in
  code_ptr e' = code_ptr e + 20 /\
  block_descriptors e' = block_descriptors e /\
  patch_information e' = patch_information e.
Proof.
  cbv zeta. unfold A32Terminals.EmitPatchJmp. destruct (negb _); repeat split; reflexivity.
Qed.

(** X11. With optimizations enabled and not single
    stepping, the code emitted for a [LinkBlockFast(next)] terminal does
    not look at the remaining cycles: it jumps to [next]'s entrypoint when
    [next] is compiled, the host state as the upper location update left
    it, and otherwise stores [next]'s PC and returns to the dispatcher, the
    cycles and the return stack buffer untouched.  The site is recorded as
    a [jmp] patch site of [next] and takes 20 bytes in either form. *)
Theorem LinkBlockFast_terminal (next initial_location : Z)
    (e : A32EmitA64) (h : Host) (g : A32Guest.A32JitState) :
  enable_optimizations e = true ->
  let emitted := EmitTerminalImpl_LinkBlockFast next initial_location false e in
  let set_upper := EmitSetUpperLocationDescriptor next initial_location e in
  let h0 := set_upper.2 h in
  let patched_to :=
    match GetBasicBlock e next with
    | Some next_bb => if entrypoint next_bb =? 0 then None else Some (entrypoint next_bb)
    | None => None
    end in
  (exists h',
     match patched_to with
     | Some next_entrypoint =>
         emitted.2 (mkMachine h g) = LeaveTo next_entrypoint (mkMachine h' g) /\ h' = h0
     | None =>
         emitted.2 (mkMachine h g) = LeaveTo ReturnFromRunCodeAddress (mkMachine h' g) /\
         Reg_PC (jit h') = X64.rd 32 (PC next) /\
         X26 h' = X26 h /\
         rsb_ptr (jit h') = rsb_ptr (jit h) /\
         rsb_location_descriptors (jit h') = rsb_location_descriptors (jit h) /\
         rsb_codeptrs (jit h') = rsb_codeptrs (jit h)
     end) /\
  code_ptr emitted.1 = code_ptr set_upper.1 + 20 /\
  (exists info,
     patch_information emitted.1 !! next = Some info /\
     last (jmp info) = Some (code_ptr set_upper.1)).
Proof.
  intros Hopt. cbv zeta.
  unfold A32Terminals.EmitTerminalImpl_LinkBlockFast.
  pose proof (TerminalFacts.EmitSetUpperLocationDescriptor_emitter UniqueHash_upper
                MOVI2R_size next initial_location e) as (Hbd & Hpi & Hopt').
  pose proof (TerminalFacts.EmitSetUpperLocationDescriptor_code UniqueHash_upper
                MOVI2R_size next initial_location e h) as (Hx & Hpc & Hptr & Hlocs & Hptrs).
  cbv zeta in Hbd, Hpi, Hopt', Hx, Hpc, Hptr, Hlocs, Hptrs.
  destruct (EmitSetUpperLocationDescriptor next initial_location e) as [e1 set_upper].
  cbn [fst snd] in *.
  rewrite Hopt', Hopt. cbn [negb orb].
  set (e2 := record_jmp next (code_ptr e1) e1).
  assert (Hget : GetBasicBlock e2 next = GetBasicBlock e next).
  { unfold GetBasicBlock, e2. cbn. rewrite Hbd. reflexivity. }
  rewrite Hget.
  set (target := match GetBasicBlock e next with
                 | Some next_bb => entrypoint next_bb
                 | None => 0
                 end).
  assert (Hsite : (match GetBasicBlock e next with
                   | Some next_bb => EmitPatchJmp next (entrypoint next_bb) e2
                   | None => EmitPatchJmp next 0 e2
                   end) = EmitPatchJmp next target e2).
  { unfold target. destruct (GetBasicBlock e next); reflexivity. }
  rewrite Hsite.
  pose proof (EmitPatchJmp_emitter next target e2) as (Hcp & Hbd3 & Hpi3).
  cbv zeta in Hcp, Hbd3, Hpi3.
  assert (Hcode : forall h1,
            (EmitPatchJmp next target e2).2 h1 =
            if target =? 0
            then Exit ReturnFromRunCodeAddress (STR_SCRATCH1_PC (MOVI2R_SCRATCH1 (PC next) h1))
            else Exit target h1).
  { intros h1. unfold A32Terminals.EmitPatchJmp. destruct (target =? 0); reflexivity. }
  destruct (EmitPatchJmp next target e2) as [e3 patch_site].
  cbn [fst snd] in *.
  split; [| split].
  - unfold on_host. cbn [host guest]. rewrite Hcode. unfold target. clear Hsite Hcode.
    destruct (GetBasicBlock e next) as [bb |].
    + destruct (entrypoint bb =? 0).
      * eexists. split; [reflexivity |]. cbn.
        repeat split; try assumption. apply SaturationFacts.rd_rd. lia.
      * eexists. split; reflexivity.
    + cbn [Z.eqb]. eexists. split; [reflexivity |]. cbn.
      repeat split; try assumption. apply SaturationFacts.rd_rd. lia.
  - rewrite Hcp. reflexivity.
  - rewrite Hpi3. unfold e2, record_jmp. cbn.
    rewrite lookup_insert_eq. eexists. split; [reflexivity |].
    cbn. apply last_snoc.
Qed.

Variable X28 : Z.
Local Abbreviation pop_rsb_hint_handler :=
  (pop_rsb_hint_handler ReturnFromRunCodeAddress RSBPtrMask enable_fast_dispatch X28).

(** X12. The check bit is a byte: after
    [SetCheckBit] the code of a [CheckBit(then, else)] terminal continues
    with the code of [then] exactly when the low byte of the value set (the
    immediate, or the register) is not zero, and with the code of [else]
    otherwise; it leaves that byte in the scratch register. *)
Theorem CheckBit_follows_SetCheckBit (then_ else_ : Term Cond)
    (initial_location : Z) (is_single_step : bool)
    (e e' : A32EmitA64) (code : TerminalCode) :
  EmitTerminal (CheckBit then_ else_) initial_location is_single_step e = Some (e', code) ->
  exists e1 then_code else_code,
    EmitTerminal then_ initial_location is_single_step (emit 4 (emit 4 e))
      = Some (e1, then_code) /\
    EmitTerminal else_ initial_location is_single_step e1 = Some (e', else_code) /\
    forall (arg : A32Guest.Argument bool) (h : Host) (g : A32Guest.A32JitState),
      let byte := rd 8 (A32Guest.UseGprU1 arg) in
      let g' := A32Guest.EmitA32SetCheckBit arg g in
      let m' := mkMachine (set_SCRATCH1 byte h) g' in
      code (mkMachine h g') = if byte =? 0 then else_code m' else then_code m'.
Proof.
  intros Hemit. cbn [A32Terminals.EmitTerminal] in Hemit.
  unfold EmitTerminalImpl_CheckBit in Hemit. cbv zeta in Hemit.
  destruct (EmitTerminal then_ initial_location is_single_step (emit 4 (emit 4 e)))
    as [[e1 then_code] |] eqn:Hthen; [| discriminate].
  cbn in Hemit.
  destruct (EmitTerminal else_ initial_location is_single_step e1)
    as [[e2 else_code] |] eqn:Helse; [| discriminate].
  cbn in Hemit. injection Hemit as <- <-.
  exists e1, then_code, else_code. split; [reflexivity | split; [exact Helse |]].
  intros arg h g. cbv zeta. cbn [host guest].
  assert (Hbyte : A32Guest.LDRB (A32Guest.EmitA32SetCheckBit arg g) A32Guest.check_bit
                  = rd 8 (A32Guest.UseGprU1 arg)).
  { unfold A32Guest.LDRB, A32Guest.EmitA32SetCheckBit, A32Guest.STRB, A32Guest.DecodeReg.
    cbv zeta.
    destruct (decide (A32Guest.check_bit = A32Guest.check_bit)); [| contradiction].
    rewrite (SaturationFacts.rd_rd 8 8) by lia.
    apply SaturationFacts.rd_rd. lia. }
  rewrite Hbyte. unfold A32Guest.CBZ.
  assert (Hsmall : rd 32 (rd 8 (A32Guest.UseGprU1 arg)) = rd 8 (A32Guest.UseGprU1 arg)).
  { apply SaturationFacts.rd_small.
    pose proof (SaturationFacts.rd_range 8 (A32Guest.UseGprU1 arg) ltac:(lia)). lia. }
  rewrite ?Hsmall. reflexivity.
Qed.

Lemma lor_shiftl_32 (lo hi : Z) :
  0 <= lo < 2 ^ 32 -> 0 <= hi < 2 ^ 32 ->
  A32Guest.ORR_LSL 64 lo hi 32 = lo + 2 ^ 32 * hi.
Proof.
  intros Hlo Hhi. unfold A32Guest.ORR_LSL.
  rewrite (SaturationFacts.rd_small 64 lo) by lia.
  rewrite (SaturationFacts.rd_small 64 hi) by lia.
  rewrite Z.shiftl_mul_pow2 by lia.
  rewrite (SaturationFacts.rd_small 64 (hi * 2 ^ 32)) by lia.
  assert (Hdisj : Z.land lo (hi * 2 ^ 32) = 0).
  { apply Z.bits_inj'. intros i Hi. rewrite Z.land_spec, Z.bits_0.
    destruct (Z.lt_ge_cases i 32) as [Hlt | Hge].
    - rewrite Z.mul_pow2_bits_low by lia. apply andb_false_r.
    - rewrite (A32GuestFacts.testbit_high lo i) by lia. reflexivity. }
  rewrite <- (Z.lxor_lor _ _ Hdisj), <- (Z.add_nocarry_lxor _ _ Hdisj). lia.
Qed.

Lemma land_rd_word (a m : Z) : rd 32 (Z.land a (rd 32 m)) = Z.land a (rd 32 m).
Proof.
  apply Z.bits_inj'. intros i Hi.
  rewrite A32GuestFacts.testbit_rd, !Z.land_spec, A32GuestFacts.testbit_rd by lia.
  destruct (i <? 32); cbn; rewrite ?andb_false_r; reflexivity.
Qed.

Lemma CMP_flagZ (a b : Z) (h : Host) :
  0 <= a < 2 ^ 64 -> 0 <= b < 2 ^ 64 ->
  flagZ (nzcv (CMP a b h)) = (a =? b).
Proof.
  intros Ha Hb. unfold CMP. cbn [nzcv flagZ].
  rewrite (SaturationFacts.rd_small 64 a), (SaturationFacts.rd_small 64 b) by lia.
  destruct (Z.eqb_spec a b) as [-> | Hne].
  - rewrite Z.sub_diag. reflexivity.
  - apply Z.eqb_neq. unfold rd.
    destruct (Z.lt_ge_cases a b).
    + replace (a - b) with ((a - b + 2 ^ 64) + (-1) * 2 ^ 64) by lia.
      rewrite Z.mod_add, Z.mod_small by lia. lia.
    + rewrite Z.mod_small by lia. lia.
Qed.

Lemma pop_rsb_hint_handler_run (rsb_cache_miss : Z -> Z -> Code) (h : Host)
    (descriptor codeptr : Z) :
  let j := jit h in
  let index := Z.land (rd 32 (rd 32 (rsb_ptr j) - 1)) (rd 32 RSBPtrMask) in
  let location := rd 32 (Reg_PC j) + 2 ^ 32 * rd 32 (upper_location_descriptor j) in
  rsb_location_descriptors j !! Z.to_nat index = Some descriptor ->
  rsb_codeptrs j !! Z.to_nat index = Some codeptr ->
  0 <= descriptor < 2 ^ 64 ->
  enable_fast_dispatch = false ->
  exists h',
    pop_rsb_hint_handler rsb_cache_miss h
      = Some (Exit (if descriptor =? location then rd 64 codeptr
                    else ReturnFromRunCodeAddress) h') /\
    rsb_ptr (jit h') = index /\
    Reg_PC (jit h') = Reg_PC j /\
    upper_location_descriptor (jit h') = upper_location_descriptor j /\
    rsb_location_descriptors (jit h') = rsb_location_descriptors j /\
    rsb_codeptrs (jit h') = rsb_codeptrs j /\
    X26 h' = X26 h.
Proof.
  cbv zeta. intros Hdesc Hcode Hrange Hfast.
  unfold A32Terminals.pop_rsb_hint_handler, calculate_location_descriptor.
  cbv zeta.
  assert (Hindex : A32Guest.ANDI2R 32 (A32Guest.SUBI2R 32 (rd 32 (rsb_ptr (jit h))) 1)
                     (rd 32 RSBPtrMask)
                   = Z.land (rd 32 (rd 32 (rsb_ptr (jit h)) - 1)) (rd 32 RSBPtrMask)).
  { unfold A32Guest.ANDI2R, A32Guest.SUBI2R.
    rewrite !(SaturationFacts.rd_rd 32 32) by lia. reflexivity. }
  rewrite Hindex.
  set (index := Z.land (rd 32 (rd 32 (rsb_ptr (jit h)) - 1)) (rd 32 RSBPtrMask)) in *.
  cbn [jit STR_rsb_ptr set_SCRATCH1 set_jit rsb_location_descriptors rsb_codeptrs].
  rewrite Hdesc. cbn [mbind option_bind].
  pose proof (SaturationFacts.rd_range 32 (Reg_PC (jit h)) ltac:(lia)) as Hpc.
  pose proof (SaturationFacts.rd_range 32 (upper_location_descriptor (jit h)) ltac:(lia)) as Hup.
  rewrite lor_shiftl_32 by assumption.
  rewrite CMP_flagZ by (try assumption; lia).
  rewrite Hfast.
  rewrite (Z.eqb_sym descriptor).
  destruct (Z.eqb_spec (rd 32 (Reg_PC (jit h)) + 2 ^ 32 * rd 32 (upper_location_descriptor (jit h)))
              descriptor) as [Heq | Hne]; cbn [negb].
  - cbn [CMP jit STR_rsb_ptr set_SCRATCH1 set_jit rsb_codeptrs]. rewrite Hcode. cbn [mbind option_bind].
    eexists. split; [reflexivity |]. cbn.
    repeat split; try reflexivity.
    unfold index. apply land_rd_word.
  - eexists. split; [reflexivity |]. cbn.
    repeat split; try reflexivity.
    unfold index. apply land_rd_word.
Qed.



(** X13. Without fast dispatch, the handler
    of the [PopRSBHint] terminal steps [rsb_ptr] back by one (modulo the
    buffer size) and stores it, compares the entry there with the location
    descriptor made of the guest PC (low half) and the upper location
    descriptor (high half), and jumps to the entry's code pointer when
    they are equal and to the dispatcher's return address when any bit
    differs; the buffer's entries, the PC and the cycles are left alone. *)
Theorem pop_rsb_hint_handler_outcome (rsb_cache_miss : Z -> Z -> Code) (h : Host)
    (descriptor codeptr : Z) :
  let j := jit h in
  let index := Z.land (rd 32 (rd 32 (rsb_ptr j) - 1)) (rd 32 RSBPtrMask) in
  let location := rd 32 (Reg_PC j) + 2 ^ 32 * rd 32 (upper_location_descriptor j) in
  rsb_location_descriptors j !! Z.to_nat index = Some descriptor ->
  rsb_codeptrs j !! Z.to_nat index = Some codeptr ->
  0 <= descriptor < 2 ^ 64 ->
  enable_fast_dispatch = false ->
  exists h',
    pop_rsb_hint_handler rsb_cache_miss h
      = Some (Exit (if descriptor =? location then rd 64 codeptr
                    else ReturnFromRunCodeAddress) h') /\
    rsb_ptr (jit h') = index /\
    Reg_PC (jit h') = Reg_PC j /\
    upper_location_descriptor (jit h') = upper_location_descriptor j /\
    rsb_location_descriptors (jit h') = rsb_location_descriptors j /\
    rsb_codeptrs (jit h') = rsb_codeptrs j /\
    X26 h' = X26 h.
Proof. exact (pop_rsb_hint_handler_run rsb_cache_miss h descriptor codeptr). Qed.

Lemma rsb_index_round_trip (k p : Z) :
  0 <= k <= 32 -> RSBPtrMask = 2 ^ k - 1 -> 0 <= p <= RSBPtrMask ->
  Z.land (rd 32 (rd 32 (Z.land (p + 1) RSBPtrMask) - 1)) (rd 32 RSBPtrMask) = p.
Proof.
  intros Hk HM Hp.
  assert (Hpow : 0 < 2 ^ k <= 2 ^ 32).
  { split; [apply Z.pow_pos_nonneg; lia | apply Z.pow_le_mono_r; lia]. }
  assert (HMr : rd 32 RSBPtrMask = Z.ones k).
  { rewrite Z.ones_equiv. rewrite HM. replace (Z.pred (2 ^ k)) with (2 ^ k - 1) by lia.
    apply SaturationFacts.rd_small. lia. }
  assert (HMo : RSBPtrMask = Z.ones k).
  { rewrite Z.ones_equiv. lia. }
  rewrite HMr, HMo, !Z.land_ones by lia.
  assert (Hsplit : 2 ^ 32 = 2 ^ (32 - k) * 2 ^ k).
  { rewrite <- Z.pow_add_r by lia. f_equal. lia. }
  assert (Hq : 0 < 2 ^ (32 - k)) by (apply Z.pow_pos_nonneg; lia).
  destruct (Z.eq_dec (p + 1) (2 ^ k)) as [Htop | Hlow].
  - rewrite Htop, Z.mod_same by lia. change (rd 32 0) with 0.
    assert (Hm1 : rd 32 (0 - 1) = 2 ^ 32 - 1).
    { unfold X64.rd. symmetry. apply (Z.mod_unique_pos _ _ (-1)); lia. }
    rewrite Hm1. symmetry.
    apply (Z.mod_unique_pos _ _ (2 ^ (32 - k) - 1)); nia.
  - rewrite (Z.mod_small (p + 1)) by lia.
    rewrite (SaturationFacts.rd_small 32 (p + 1)) by lia.
    replace (p + 1 - 1) with p by lia.
    rewrite (SaturationFacts.rd_small 32 p) by lia.
    apply Z.mod_small. lia.
Qed.

(** X14. A push on the return stack buffer followed by
    the [PopRSBHint] handler (no fast dispatch, the buffer's size a power
    of two, [rsb_ptr] inside it): if the guest PC and upper location
    descriptor at the return make up the descriptor pushed, the handler
    jumps to the code pointer pushed with it, and otherwise it returns to
    the dispatcher; either way [rsb_ptr] is back where it was before the
    push.  The push is [PushRSBHelper] as modelled from the spec. *)
Theorem rsb_push_then_pop (rsb_cache_miss : Z -> Z -> Code) (e : A32EmitA64)
    (target : Z) (h : Host) (k pc upper : Z) :
  0 <= k <= 32 -> RSBPtrMask = 2 ^ k - 1 ->
  0 <= rsb_ptr (jit h) <= RSBPtrMask ->
  length (rsb_location_descriptors (jit h)) = Z.to_nat (RSBPtrMask + 1) ->
  length (rsb_codeptrs (jit h)) = Z.to_nat (RSBPtrMask + 1) ->
  0 <= target < 2 ^ 64 ->
  enable_fast_dispatch = false ->
  let pushed := PushRSBHelper e target h in
  let returning :=
    set_jit (mkA32JitState pc upper (rsb_ptr (jit pushed))
               (rsb_location_descriptors (jit pushed)) (rsb_codeptrs (jit pushed)))
      pushed in
  let target_code_ptr :=
    match GetBasicBlock e target with
    | Some bb => entrypoint bb
    | None => ReturnFromRunCodeAddress
    end in
  exists h',
    pop_rsb_hint_handler rsb_cache_miss returning
      = Some (Exit (if target =? rd 32 pc + 2 ^ 32 * rd 32 upper
                    then rd 64 target_code_ptr
                    else ReturnFromRunCodeAddress) h') /\
    rsb_ptr (jit h') = rsb_ptr (jit h).
Proof.
  intros Hk HM Hp Hlen1 Hlen2 Htarget Hfast. cbv zeta.
  pose proof (rsb_index_round_trip k (rsb_ptr (jit h)) Hk HM Hp) as Hidx.
  assert (Hpow : 0 < 2 ^ k) by (apply Z.pow_pos_nonneg; lia).
  assert (Hin : (Z.to_nat (rsb_ptr (jit h)) < Z.to_nat (RSBPtrMask + 1))%nat) by lia.
  edestruct (pop_rsb_hint_handler_run rsb_cache_miss
               (set_jit (mkA32JitState pc upper
                           (rsb_ptr (jit (PushRSBHelper e target h)))
                           (rsb_location_descriptors (jit (PushRSBHelper e target h)))
                           (rsb_codeptrs (jit (PushRSBHelper e target h))))
                  (PushRSBHelper e target h))
               target
               (match GetBasicBlock e target with
                | Some bb => entrypoint bb
                | None => ReturnFromRunCodeAddress
                end))
    as (h' & Hrun & Hptr & _); try assumption.
  - cbn. rewrite Hidx. apply list_lookup_insert_eq. lia.
  - cbn. rewrite Hidx. apply list_lookup_insert_eq. lia.
  - exists h'. split; [exact Hrun |]. rewrite Hptr. cbn. exact Hidx.
Qed.


End Terminals.

(** A run of [single_stepping_never_links] on a nested terminal. *)
Lemma single_stepping_never_links_witness :
  let terminal := CheckHalt (If true (LinkBlock 0x2000) PopRSBHint) in
  unlinked false true example_emitter /\
  exists e' code,
    example_EmitTerminal terminal 0x1000 true example_emitter = Some (e', code) /\
    patch_information e' = patch_information example_emitter /\
    forall m, exists target m',
      code m = LeaveTo target m' /\ returns_to_dispatcher 1000 1008 1016 target.
Proof.
  cbv zeta. split; [left; reflexivity |].
  eexists _, _. split; [reflexivity |].
  exact (single_stepping_never_links (fun d : Z => d mod 2 ^ 32) (fun d : Z => d / 2 ^ 32)
           1000 1008 7 (fun _ => 8) 40 1016 (fun _ => false) (fun _ => false) false
           2000 2016 (fun (c : bool) (m : Machine) => (c, m)) (fun _ => 8) (fun m => m) 8
           (fun _ _ m => m) 16
           (CheckHalt (If true (LinkBlock 0x2000) PopRSBHint)) 0x1000 true
           example_emitter _ _ (or_introl eq_refl) eq_refl).
Defined.

(** A run of [LinkBlockFast_terminal]: the terminal leaves for the entrypoint. *)
Lemma LinkBlockFast_terminal_witness :
  enable_optimizations example_emitter = true /\
  exists h',
    (EmitTerminalImpl_LinkBlockFast (fun d : Z => d mod 2 ^ 32) (fun d : Z => d / 2 ^ 32)
       1000 (fun _ => 8) 0x2000 0x1000 false example_emitter).2
      (mkMachine example_host (fun _ => 0))
    = LeaveTo 8192 (mkMachine h' (fun _ => 0)).
Proof.
  split; [reflexivity |].
  destruct (LinkBlockFast_terminal (fun d : Z => d mod 2 ^ 32) (fun d : Z => d / 2 ^ 32)
              1000 (fun _ => 8) 0x2000 0x1000 example_emitter example_host (fun _ => 0)
              eq_refl) as [[h' Hrun] _].
  exists h'. exact (proj1 Hrun).
Defined.

(** A run of [CheckBit_follows_SetCheckBit]. *)
Lemma CheckBit_follows_SetCheckBit_witness :
  exists e' code,
    example_EmitTerminal (CheckBit ReturnToDispatch PopRSBHint) 0x1000 false example_emitter
      = Some (e', code) /\
    exists e1 then_code else_code,
      example_EmitTerminal ReturnToDispatch 0x1000 false (emit 4 (emit 4 example_emitter))
        = Some (e1, then_code) /\
      example_EmitTerminal PopRSBHint 0x1000 false e1 = Some (e', else_code) /\
      forall (arg : A32Guest.Argument bool) (h : Host) (g : A32Guest.A32JitState),
        let byte := X64.rd 8 (A32Guest.UseGprU1 arg) in
        let g' := A32Guest.EmitA32SetCheckBit arg g in
        let m' := mkMachine (set_SCRATCH1 byte h) g' in
        code (mkMachine h g') = if byte =? 0 then else_code m' else then_code m'.
Proof.
  eexists _, _. split; [reflexivity |].
  exact (CheckBit_follows_SetCheckBit (fun d : Z => d mod 2 ^ 32) (fun d : Z => d / 2 ^ 32)
           1000 1008 7 (fun _ => 8) 40 1016 (fun _ => false) (fun _ => false) false
           2000 2016 (fun (c : bool) (m : Machine) => (c, m)) (fun _ => 8) (fun m => m) 8
           (fun _ _ m => m) 16
           ReturnToDispatch PopRSBHint 0x1000 false example_emitter _ _ eq_refl).
Defined.

(** A run of the handler that hits. *)
Lemma pop_rsb_hint_handler_outcome_witness :
  rsb_location_descriptors (jit example_returning) !! 0%nat = Some 0x2000 /\
  rsb_codeptrs (jit example_returning) !! 0%nat = Some 8192 /\
  exists h',
    pop_rsb_hint_handler 1000 7 false 65536 (fun _ _ => Exit 0) example_returning
      = Some (Exit 8192 h') /\
    rsb_ptr (jit h') = 0.
Proof.
  split; [reflexivity | split; [reflexivity |]].
  destruct (pop_rsb_hint_handler_outcome 1000 7 false 65536 (fun _ _ => Exit 0)
              example_returning 0x2000 8192 eq_refl eq_refl ltac:(lia) eq_refl)
    as (h' & Hrun & Hptr & _).
  exists h'. split; [exact Hrun | exact Hptr].
Defined.

(** A push of [0x2000] and the return to it. *)
Lemma rsb_push_then_pop_witness :
  let pushed := PushRSBHelper 1000 7 example_emitter 0x2000 example_host in
  let returning :=
    set_jit (mkA32JitState 0x2000 0 (rsb_ptr (jit pushed))
               (rsb_location_descriptors (jit pushed)) (rsb_codeptrs (jit pushed)))
      pushed in
  0 <= 3 <= 32 /\ 7 = 2 ^ 3 - 1 /\
  exists h',
    pop_rsb_hint_handler 1000 7 false 65536 (fun _ _ => Exit 0) returning
      = Some (Exit 8192 h') /\
    rsb_ptr (jit h') = 0.
Proof.
  cbv zeta. split; [lia | split; [reflexivity |]].
  exact (rsb_push_then_pop 1000 7 false 65536 (fun _ _ => Exit 0) example_emitter 0x2000
           example_host 3 0x2000 0 ltac:(lia) eq_refl ltac:(cbn; lia) eq_refl eq_refl
           ltac:(lia) eq_refl).
Defined.

End A32TerminalsFacts.

(** ** The fastmem patch handlers *)

Module FastmemHandlerFacts.

Import BackendA64 FastmemInvariants.

Section Handlers.
Variable page_table_lookup_size : Z.
Variable thunk_size : Z.
Hypothesis page_table_lookup_size_nonneg : 0 <= page_table_lookup_size.

Local Abbreviation AccessMemory := (AccessMemory page_table_lookup_size).
Local Abbreviation EmitInstructions := (EmitInstructions page_table_lookup_size).
Local Abbreviation Emit := (Emit page_table_lookup_size).
Local Abbreviation FastmemCallback := (FastmemCallback thunk_size).
Local Abbreviation perform := (perform page_table_lookup_size thunk_size).
Local Abbreviation run := (run page_table_lookup_size thunk_size).

Lemma grows_refl e : grows e e.
Proof. repeat split; [lia | tauto | tauto]. Qed.

Lemma grows_trans e1 e2 e3 : grows e1 e2 -> grows e2 e3 -> grows e1 e3.
Proof.
  intros (H1 & H2 & H3) (H4 & H5 & H6). repeat split; [lia | tauto | auto].
Qed.

Lemma grows_emit n e : 0 <= n -> grows e (emit n e).
Proof.
  intros Hn. repeat split; cbn; [lia | | tauto].
  intros Hb p Hp. specialize (Hb p Hp). cbn. lia.
Qed.

Lemma AccessMemory_grows is_read bit_size ctx inst e :
  patches_below e ->
  let r := AccessMemory is_read bit_size ctx inst e in
  grows e r.1 /\
  (forall p, r.2 = FastmemAccess p ->
     exists info, fastmem_patch_info r.1 !! p = Some info /\
                  patch_marker info = (Location ctx, inst)).
Proof.
  intros Hbelow. cbv zeta. unfold BackendA64.AccessMemory.
  destruct (ShouldFastmem e _).
  - assert (Hfresh : fastmem_patch_info e !! code_ptr e = None).
    { destruct (fastmem_patch_info e !! code_ptr e) eqn:Hl; [| reflexivity].
      specialize (Hbelow (code_ptr e) ltac:(eauto)). lia. }
    cbn [fst snd]. unfold emplace. cbn [fastmem_patch_info emit set_code_ptr].
    rewrite Hfresh. split.
    + repeat split; cbn.
      * lia.
      * intros _ p [info Hp]. destruct (decide (code_ptr e = p)) as [Heq | Hne]; [rewrite <- Heq; cbn; lia |].
        cbn in Hp. rewrite lookup_insert_ne in Hp by exact Hne.
        specialize (Hbelow p ltac:(eauto)). cbn. lia.
      * intros p info Hp. destruct (decide (code_ptr e = p)) as [<- | Hne]; [congruence |].
        rewrite lookup_insert_ne by exact Hne. exact Hp.
    + intros p [= <-]. eexists. cbn. rewrite lookup_insert_eq. split; reflexivity.
  - destruct (negb _); cbn [fst snd]; (split; [| intros p; discriminate]).
    + apply grows_emit. destruct is_read; lia.
    + apply grows_emit. exact page_table_lookup_size_nonneg.
Qed.

Lemma EmitInstructions_grows ctx insts inst e :
  nonnegative_insts insts ->
  patches_below e ->
  let r := EmitInstructions ctx insts inst e in
  grows e r.1 /\
  (forall (k : nat) p, r.2 !! k = Some (Some (FastmemAccess p)) ->
     exists info, fastmem_patch_info r.1 !! p = Some info /\
                  patch_marker info = (Location ctx, inst + Z.of_nat k)).
Proof.
  revert inst e. induction insts as [| i rest IH]; intros inst e Hnn Hbelow; cbv zeta.
  - split; [apply grows_refl | intros k p Hk; discriminate].
  - inversion Hnn as [| ? ? Hi Hrest]; subst.
    cbn [BackendA64.EmitInstructions].
    assert (Hstep : exists e1 form,
               (let '(e, form) :=
                  match i with
                  | A32ReadMemory bit_size =>
                      let '(e, f) := ReadMemory page_table_lookup_size bit_size ctx inst e in
                      (e, Some f)
                  | A32WriteMemory bit_size =>
                      let '(e, f) := WriteMemory page_table_lookup_size bit_size ctx inst e in
                      (e, Some f)
                  | OtherInst host_size => (emit host_size e, None)
                  end in
                let '(e, forms) := EmitInstructions ctx rest (inst + 1) e in
                (e, form :: forms))
               = (let '(e2, forms) := EmitInstructions ctx rest (inst + 1) e1 in
                  (e2, form :: forms)) /\
               grows e e1 /\
               (forall p, form = Some (FastmemAccess p) ->
                  exists info, fastmem_patch_info e1 !! p = Some info /\
                               patch_marker info = (Location ctx, inst))).
    { destruct i as [bit_size | bit_size | host_size].
      - unfold ReadMemory.
        pose proof (AccessMemory_grows true bit_size ctx inst e Hbelow) as [Hg Hf].
        destruct (AccessMemory true bit_size ctx inst e) as [e1 f]. cbn [fst snd] in *.
        exists e1, (Some f). split; [reflexivity | split; [exact Hg |]].
        intros p [= ->]. apply Hf. reflexivity.
      - unfold WriteMemory.
        pose proof (AccessMemory_grows false bit_size ctx inst e Hbelow) as [Hg Hf].
        destruct (AccessMemory false bit_size ctx inst e) as [e1 f]. cbn [fst snd] in *.
        exists e1, (Some f). split; [reflexivity | split; [exact Hg |]].
        intros p [= ->]. apply Hf. reflexivity.
      - exists (emit host_size e), None.
        split; [reflexivity | split; [apply grows_emit; exact Hi | intros p; discriminate]]. }
    destruct Hstep as (e1 & form & -> & Hg1 & Hform).
    assert (Hbelow1 : patches_below e1) by (apply Hg1; exact Hbelow).
    specialize (IH (inst + 1) e1 Hrest Hbelow1). cbv zeta in IH.
    destruct (EmitInstructions ctx rest (inst + 1) e1) as [e2 forms]. cbn [fst snd] in *.
    destruct IH as [Hg2 Hforms]. split; [eapply grows_trans; eassumption |].
    intros [| k] p Hk.
    + cbn in Hk. injection Hk as ->. destruct (Hform p eq_refl) as (info & Hl & Hm).
      exists info. split; [apply Hg2; exact Hl |].
      rewrite Hm. f_equal. lia.
    + cbn in Hk. destruct (Hforms k p Hk) as (info & Hl & Hm).
      exists info. split; [exact Hl |]. rewrite Hm. f_equal. lia.
Qed.

Lemma AlignCode16_grows e : grows e (AlignCode16 e).
Proof.
  repeat split; cbn; [| | tauto].
  - pose proof (Z.mod_pos_bound (- code_ptr e) 16 ltac:(lia)). lia.
  - intros Hb p Hp. specialize (Hb p Hp). cbn.
    pose proof (Z.mod_pos_bound (- code_ptr e) 16 ltac:(lia)). lia.
Qed.

Lemma Emit_handled block e :
  nonnegative_sizes (OpEmit block) ->
  handled e -> patches_below e ->
  handled (Emit block e).1 /\ patches_below (Emit block e).1.
Proof.
  intros (Hpre & Hterm & Hinsts) Hh Hbelow. unfold BackendA64.Emit.
  set (e0 := emit (prelude_size block) (AlignCode16 e)).
  assert (Hg0 : grows e e0).
  { eapply grows_trans; [apply AlignCode16_grows | apply grows_emit; exact Hpre]. }
  assert (Hbelow0 : patches_below e0) by (apply Hg0; exact Hbelow).
  pose proof (EmitInstructions_grows block (instructions block) 0 e0 Hinsts Hbelow0)
    as [Hg1 Hforms].
  pose proof (FastmemFacts.EmitInstructions_state page_table_lookup_size
                block (instructions block) 0 e0) as [_ Hbd].
  cbv zeta in Hg1, Hforms.
  destruct (EmitInstructions block (instructions block) 0 e0) as [e1 forms].
  cbn [fst snd] in *.
  set (bd := mkBlockDescriptor _ _ forms).
  assert (Hg : grows e (emit (terminal_size block) e1)).
  { eapply grows_trans; [exact Hg0 |].
    eapply grows_trans; [exact Hg1 | apply grows_emit; exact Hterm]. }
  split.
  - intros marker p. unfold cached_form.
    rewrite FastmemFacts.RegisterBlock_lookup.
    change (block_descriptors (emit (terminal_size block) e1)) with (block_descriptors e1).
    rewrite Hbd. change (block_descriptors e0) with (block_descriptors e).
    change (fastmem_patch_info (RegisterBlock (Location block) bd
                                  (emit (terminal_size block) e1)))
      with (fastmem_patch_info e1).
    pose proof (Hh marker p) as Hold. unfold cached_form in Hold.
    destruct (block_descriptors e !! marker.1) as [present |].
    + intros Hc. destruct (Hold Hc) as (info & Hl & Hm).
      exists info. split; [| exact Hm].
      destruct Hg1 as (_ & _ & Hkeep1). destruct Hg0 as (_ & _ & Hkeep0).
      apply Hkeep1, Hkeep0. exact Hl.
    + destruct (decide (Location block = marker.1)) as [E | E]; [| discriminate].
      cbn [host_accesses bd].
      destruct (Z.leb_spec 0 marker.2) as [Hoff | Hoff]; [| discriminate].
      destruct (forms !! Z.to_nat marker.2) as [[f' |] |] eqn:Hk; try discriminate.
      intros [= ->]. destruct (Hforms _ _ Hk) as (info & Hl & Hm).
      exists info. split; [exact Hl |]. rewrite Hm.
      rewrite Z2Nat.id, Z.add_0_l, E by exact Hoff. destruct marker; reflexivity.
  - destruct Hg as (_ & Hb & _). exact (Hb Hbelow).
Qed.

Lemma FastmemCallback_handled PC e e' :
  handled e -> patches_below e ->
  FastmemCallback PC e = Some e' ->
  handled e' /\ patches_below e'.
Proof.
  intros Hh Hbelow Hcall. unfold BackendA64.FastmemCallback in Hcall.
  destruct (fastmem_patch_info e !! PC) as [info |] eqn:Hinfo; [| discriminate].
  injection Hcall as <-. split.
  - intros marker p Hc.
    assert (Hc0 : cached_form e marker = Some (FastmemAccess p)).
    { unfold FastmemPatch, DoNotFastmem in Hc.
      apply FastmemFacts.cached_form_invalidate in Hc. exact Hc. }
    assert (Hloc : marker.1 <> (patch_marker info).1).
    { intros Heq. unfold cached_form, FastmemPatch, DoNotFastmem, InvalidateBasicBlocks in Hc.
      cbn in Hc.
      destruct (filter _ (block_descriptors e) !! marker.1) as [bd |] eqn:Hl; [| discriminate].
      apply map_lookup_filter_Some in Hl as [_ Hnot]. cbn in Hnot. set_solver. }
    destruct (Hh marker p Hc0) as (info' & Hl & Hm).
    exists info'. split; [| exact Hm].
    cbn. rewrite lookup_delete_ne; [exact Hl |].
    intros <-. rewrite Hinfo in Hl. injection Hl as <-. apply Hloc. rewrite Hm. reflexivity.
  - intros p [info' Hp]. cbn in Hp.
    destruct (decide (PC = p)) as [<- | Hne]; [rewrite lookup_delete_eq in Hp; discriminate |].
    rewrite lookup_delete_ne in Hp by exact Hne.
    specialize (Hbelow p ltac:(eauto)). exact Hbelow.
Qed.

Lemma perform_handled op e e' :
  nonnegative_sizes op -> handled e -> patches_below e ->
  perform op e = Some e' -> handled e' /\ patches_below e'.
Proof.
  intros Hnn Hh Hbelow Hop. destruct op as [block | | locations | PC]; cbn in Hop.
  - injection Hop as <-. apply Emit_handled; assumption.
  - injection Hop as <-. split.
    + intros marker p. unfold cached_form. cbn. rewrite lookup_empty. discriminate.
    + intros p [info Hp]. cbn in Hp. rewrite lookup_empty in Hp. discriminate.
  - injection Hop as <-. split.
    + intros marker p Hc. apply FastmemFacts.cached_form_invalidate in Hc.
      exact (Hh marker p Hc).
    + exact Hbelow.
  - eapply FastmemCallback_handled; eassumption.
Qed.

Lemma run_handled ops e e' :
  Forall nonnegative_sizes ops -> handled e -> patches_below e ->
  run ops e = Some e' -> handled e' /\ patches_below e'.
Proof.
  revert e. induction ops as [| op ops IH]; intros e Hnn Hh Hbelow Hrun; cbn in Hrun.
  - injection Hrun as <-. split; assumption.
  - inversion Hnn as [| ? ? Hop Hrest]; subst.
    destruct (perform op e) as [e1 |] eqn:Hp; [| discriminate].
    destruct (perform_handled op e e1 Hop Hh Hbelow Hp) as [Hh1 Hb1].
    apply (IH e1); assumption.
Qed.

(** X15. Every fastmem access of a cached block has its handler.  From an
    emitter with no block and no handler, after every run of [Emit]
    (with byte counts that are not negative), [ClearCache],
    [InvalidateCacheRanges] and [FastmemCallback] that fails no assertion: a
    fastmem access at host address [p] that the cache holds at [marker] has
    a handler registered under [p]; the handler's marker is [marker];
    [FastmemCallback p] succeeds, and after it the marker is in
    [do_not_fastmem] and the cache holds no block for the marker's
    location. *)
Theorem cached_fastmem_sites_have_handlers (ops : list Operation) (e e' : A32EmitA64)
    (marker : Z * Z) (p : Z) :
  Forall nonnegative_sizes ops ->
  fastmem_patch_info e = ∅ -> block_descriptors e = ∅ ->
  run ops e = Some e' ->
  cached_form e' marker = Some (FastmemAccess p) ->
  exists info e'',
    fastmem_patch_info e' !! p = Some info /\
    patch_marker info = marker /\
    FastmemCallback p e' = Some e'' /\
    marker ∈ do_not_fastmem e'' /\
    cached_form e'' marker = None.
Proof.
  intros Hnn Hpatch Hblocks Hrun Hc.
  assert (Hh0 : handled e).
  { intros m q. unfold cached_form. rewrite Hblocks, lookup_empty. discriminate. }
  assert (Hb0 : patches_below e).
  { intros q [info Hq]. rewrite Hpatch, lookup_empty in Hq. discriminate. }
  destruct (run_handled ops e e' Hnn Hh0 Hb0 Hrun) as [Hh _].
  destruct (Hh marker p Hc) as (info & Hl & Hm).
  unfold BackendA64.FastmemCallback. rewrite Hl.
  eexists info, _. split; [reflexivity | split; [exact Hm | split; [reflexivity |]]].
  split.
  - cbn. rewrite Hm. set_solver.
  - unfold cached_form. cbn. rewrite Hm.
    rewrite map_lookup_filter. 
    destruct (block_descriptors e' !! marker.1) as [bd |]; [| reflexivity].
    cbn. rewrite option_guard_False by set_solver. reflexivity.
Qed.

End Handlers.

Section Unavailable.
Variable page_table_lookup_size : Z.
Variable thunk_size : Z.

Local Abbreviation AccessMemory := (AccessMemory page_table_lookup_size).
Local Abbreviation EmitInstructions := (EmitInstructions page_table_lookup_size).
Local Abbreviation Emit := (Emit page_table_lookup_size).
Local Abbreviation FastmemCallback := (FastmemCallback thunk_size).
Local Abbreviation perform := (perform page_table_lookup_size thunk_size).
Local Abbreviation run := (run page_table_lookup_size thunk_size).

Lemma ShouldFastmem_unavailable e marker :
  fastmem_unavailable e -> ShouldFastmem e marker = false.
Proof.
  unfold ShouldFastmem. intros [H | H]; rewrite H; [reflexivity |].
  rewrite andb_false_r. reflexivity.
Qed.

Lemma AccessMemory_unavailable is_read bit_size ctx inst e :
  fastmem_unavailable e ->
  let r := AccessMemory is_read bit_size ctx inst e in
  fastmem_unavailable r.1 /\
  fastmem_patch_info r.1 = fastmem_patch_info e /\
  is_fastmem r.2 = false.
Proof.
  intros Hu. cbv zeta. unfold BackendA64.AccessMemory.
  rewrite ShouldFastmem_unavailable by exact Hu.
  destruct (negb _); cbn; (split; [exact Hu | split; reflexivity]).
Qed.

Lemma EmitInstructions_unavailable ctx insts inst e :
  fastmem_unavailable e ->
  let r := EmitInstructions ctx insts inst e in
  fastmem_unavailable r.1 /\
  fastmem_patch_info r.1 = fastmem_patch_info e /\
  (forall (k : nat) p, r.2 !! k <> Some (Some (FastmemAccess p))).
Proof.
  revert inst e. induction insts as [| i rest IH]; intros inst e Hu; cbv zeta.
  - split; [exact Hu | split; [reflexivity | intros k p; discriminate]].
  - cbn [BackendA64.EmitInstructions].
    assert (Hstep : exists e1 form,
               (let '(e, form) :=
                  match i with
                  | A32ReadMemory bit_size =>
                      let '(e, f) := ReadMemory page_table_lookup_size bit_size ctx inst e in
                      (e, Some f)
                  | A32WriteMemory bit_size =>
                      let '(e, f) := WriteMemory page_table_lookup_size bit_size ctx inst e in
                      (e, Some f)
                  | OtherInst host_size => (emit host_size e, None)
                  end in
                let '(e, forms) := EmitInstructions ctx rest (inst + 1) e in
                (e, form :: forms))
               = (let '(e2, forms) := EmitInstructions ctx rest (inst + 1) e1 in
                  (e2, form :: forms)) /\
               fastmem_unavailable e1 /\
               fastmem_patch_info e1 = fastmem_patch_info e /\
               (forall p, form <> Some (FastmemAccess p))).
    { destruct i as [bit_size | bit_size | host_size].
      - unfold ReadMemory.
        pose proof (AccessMemory_unavailable true bit_size ctx inst e Hu) as (H1 & H2 & H3).
        destruct (AccessMemory true bit_size ctx inst e) as [e1 f]. cbn [fst snd] in *.
        exists e1, (Some f). repeat split; try assumption.
        intros p [= ->]. discriminate.
      - unfold WriteMemory.
        pose proof (AccessMemory_unavailable false bit_size ctx inst e Hu) as (H1 & H2 & H3).
        destruct (AccessMemory false bit_size ctx inst e) as [e1 f]. cbn [fst snd] in *.
        exists e1, (Some f). repeat split; try assumption.
        intros p [= ->]. discriminate.
      - exists (emit host_size e), None. repeat split; try assumption.
        intros p; discriminate. }
    destruct Hstep as (e1 & form & -> & Hu1 & Hp1 & Hform).
    specialize (IH (inst + 1) e1 Hu1). cbv zeta in IH.
    destruct (EmitInstructions ctx rest (inst + 1) e1) as [e2 forms]. cbn [fst snd] in *.
    destruct IH as (Hu2 & Hp2 & Hforms).
    split; [exact Hu2 | split; [congruence |]].
    intros [| k] p Hk; cbn in Hk.
    + injection Hk as ->. exact (Hform p eq_refl).
    + exact (Hforms k p Hk).
Qed.

Lemma perform_unavailable op e e' :
  fastmem_unavailable e -> fastmem_patch_info e = ∅ -> no_fastmem_forms e ->
  perform op e = Some e' ->
  fastmem_unavailable e' /\ fastmem_patch_info e' = ∅ /\ no_fastmem_forms e' /\
  (forall PC, op <> OpFastmemCallback PC).
Proof.
  intros Hu Hpatch Hforms Hop. destruct op as [block | | locations | PC]; cbn in Hop.
  - injection Hop as <-. unfold BackendA64.Emit.
    set (e0 := emit (prelude_size block) (AlignCode16 e)).
    pose proof (EmitInstructions_unavailable block (instructions block) 0 e0 Hu)
      as (Hu1 & Hp1 & Hf1).
    pose proof (FastmemFacts.EmitInstructions_state page_table_lookup_size
                  block (instructions block) 0 e0) as [_ Hbd].
    cbv zeta in Hu1, Hp1, Hf1.
    destruct (EmitInstructions block (instructions block) 0 e0) as [e1 forms].
    cbn [fst snd] in *.
    split; [exact Hu1 |]. split; [rewrite <- Hpatch; exact Hp1 |].
    split; [| discriminate].
    intros marker p. unfold cached_form.
    rewrite FastmemFacts.RegisterBlock_lookup.
    change (block_descriptors (emit (terminal_size block) e1)) with (block_descriptors e1).
    rewrite Hbd. change (block_descriptors e0) with (block_descriptors e).
    pose proof (Hforms marker p) as Hold. unfold cached_form in Hold.
    destruct (block_descriptors e !! marker.1) as [present |]; [exact Hold |].
    destruct (decide (Location block = marker.1)) as [E | E]; [| discriminate].
    cbn [host_accesses].
    destruct (0 <=? marker.2); [| discriminate].
    destruct (forms !! Z.to_nat marker.2) as [[f' |] |] eqn:Hk; try discriminate.
    intros [= ->]. exact (Hf1 _ _ Hk).
  - injection Hop as <-. split; [exact Hu |]. split; [reflexivity |].
    split; [| discriminate].
    intros marker p. unfold cached_form. cbn. rewrite lookup_empty. discriminate.
  - injection Hop as <-. split; [exact Hu |]. split; [exact Hpatch |].
    split; [| discriminate].
    intros marker p Hc. apply FastmemFacts.cached_form_invalidate in Hc.
    exact (Hforms marker p Hc).
  - unfold BackendA64.FastmemCallback in Hop. rewrite Hpatch, lookup_empty in Hop.
    discriminate.
Qed.

(** X16. Without a fastmem arena, or with an exception handler that cannot
    recover from faults, no fastmem code is ever emitted: after every run
    that fails no assertion no handler is registered and no cached block
    has an access in fastmem form; and such a run contains no
    [FastmemCallback], whose assertion fails there. *)
Theorem no_fastmem_unless_available (ops : list Operation) (e e' : A32EmitA64) :
  fastmem_pointer e = None \/ SupportsFastmem e = false ->
  fastmem_patch_info e = ∅ -> block_descriptors e = ∅ ->
  run ops e = Some e' ->
  fastmem_patch_info e' = ∅ /\
  (forall (marker : Z * Z) (p : Z), cached_form e' marker <> Some (FastmemAccess p)) /\
  (forall PC, OpFastmemCallback PC ∉ ops).
Proof.
  intros Hu Hpatch Hblocks.
  assert (Hforms : no_fastmem_forms e).
  { intros m q. unfold cached_form. rewrite Hblocks, lookup_empty. discriminate. }
  clear Hblocks. revert e Hu Hpatch Hforms.
  induction ops as [| op ops IH]; intros e Hu Hpatch Hforms Hrun; cbn in Hrun.
  - injection Hrun as <-. split; [exact Hpatch |]. split; [exact Hforms |].
    intros PC Hin. inversion Hin.
  - destruct (perform op e) as [e1 |] eqn:Hp; [| discriminate].
    destruct (perform_unavailable op e e1 Hu Hpatch Hforms Hp) as (Hu1 & Hp1 & Hf1 & Hop).
    destruct (IH e1 Hu1 Hp1 Hf1 Hrun) as (H1 & H2 & H3).
    split; [exact H1 |]. split; [exact H2 |].
    intros PC Hin. apply elem_of_cons in Hin as [Heq | Hin].
    + exact (Hop PC (eq_sym Heq)).
    + exact (H3 PC Hin).
Qed.

End Unavailable.

(** A run of [cached_fastmem_sites_have_handlers]: the read at offset 1 of a
    block at location 100. *)
Lemma cached_fastmem_sites_have_handlers_witness :
  let e0 := mkA32EmitA64 (Some 0x10000) None true false true 4096 65536 ∅ ∅ ∅ ∅ ∅ in
  let block := mkBlock 100 [OtherInst 8; A32ReadMemory 32; A32WriteMemory 8] 0 12 in
  let e' := (Emit 40 block e0).1 in
  Forall nonnegative_sizes [OpEmit block] /\
  run 40 16 [OpEmit block] e0 = Some e' /\
  cached_form e' (100, 1) = Some (FastmemAccess 4104) /\
  exists info e'',
    fastmem_patch_info e' !! 4104 = Some info /\
    patch_marker info = (100, 1) /\
    FastmemCallback 16 4104 e' = Some e'' /\
    (100, 1) ∈ do_not_fastmem e'' /\
    cached_form e'' (100, 1) = None.
Proof.
  cbv zeta.
  assert (Hnn : Forall nonnegative_sizes
                  [OpEmit (mkBlock 100 [OtherInst 8; A32ReadMemory 32; A32WriteMemory 8] 0 12)]).
  { repeat constructor; cbn; lia. }
  split; [exact Hnn |]. split; [reflexivity |].
  assert (Hc : cached_form
                 (Emit 40 (mkBlock 100 [OtherInst 8; A32ReadMemory 32; A32WriteMemory 8] 0 12)
                    (mkA32EmitA64 (Some 0x10000) None true false true 4096 65536 ∅ ∅ ∅ ∅ ∅)).1
                 (100, 1) = Some (FastmemAccess 4104)).
  { vm_compute. reflexivity. }
  split; [exact Hc |].
  exact (cached_fastmem_sites_have_handlers 40 16 ltac:(lia)
           [OpEmit (mkBlock 100 [OtherInst 8; A32ReadMemory 32; A32WriteMemory 8] 0 12)]
           (mkA32EmitA64 (Some 0x10000) None true false true 4096 65536 ∅ ∅ ∅ ∅ ∅) _ _ _
           Hnn eq_refl eq_refl eq_refl Hc).
Defined.

(** A run of [no_fastmem_unless_available]: the same block, compiled by an
    emitter without a fastmem arena. *)
Lemma no_fastmem_unless_available_witness :
  let e0 := mkA32EmitA64 None None true false true 4096 65536 ∅ ∅ ∅ ∅ ∅ in
  let block := mkBlock 100 [OtherInst 8; A32ReadMemory 32; A32WriteMemory 8] 0 12 in
  let e' := (Emit 40 block e0).1 in
  run 40 16 [OpEmit block] e0 = Some e' /\
  fastmem_patch_info e' = ∅ /\
  (forall (marker : Z * Z) (p : Z), cached_form e' marker <> Some (FastmemAccess p)) /\
  (forall PC, OpFastmemCallback PC ∉ [OpEmit block]).
Proof.
  cbv zeta. split; [reflexivity |].
  exact (no_fastmem_unless_available 40 16
           [OpEmit (mkBlock 100 [OtherInst 8; A32ReadMemory 32; A32WriteMemory 8] 0 12)]
           (mkA32EmitA64 None None true false true 4096 65536 ∅ ∅ ∅ ∅ ∅) _
           (or_introl eq_refl) eq_refl eq_refl eq_refl).
Defined.

End FastmemHandlerFacts.

(** ** Matchers that match nothing *)

Module DecoderProperties.

Import Decoder.

Section DeadMatcher.

Context {Visitor instruction_return_type : Type}.
Local Abbreviation matcher := (Matcher Visitor instruction_return_type).

(** X17. A matcher matches some instruction word exactly when its expected
    value has no bit outside its mask.  A matcher that has such a bit is
    dead: [Matches] is false for every word, [call] never runs its handler,
    and no table lookup answers it. *)
Theorem matcher_matches_something_iff (m : matcher) :
  ((exists w, Matches m w = true) <-> Z.land (expected m) (mask m) = expected m) /\
  (Z.land (expected m) (mask m) <> expected m ->
     (forall w, Matches m w = false) /\
     (forall v w, call m v w = None) /\
     (forall table w, Decode table w <> Some m)).
Proof.
  assert (Hiff : (exists w, Matches m w = true) <-> Z.land (expected m) (mask m) = expected m).
  { split.
    - intros [w Hw]. apply Z.eqb_eq in Hw. rewrite <- Hw at 1.
      rewrite <- Z.land_assoc, Z.land_diag. exact Hw.
    - intros He. exists (expected m). apply Z.eqb_eq. exact He. }
  split; [exact Hiff |].
  intros Hdead.
  assert (Hnone : forall w, Matches m w = false).
  { intros w. destruct (Matches m w) eqn:Hw; [| reflexivity].
    exfalso. apply Hdead, Hiff. exists w. exact Hw. }
  split; [exact Hnone | split].
  - intros v w. unfold call. rewrite Hnone. reflexivity.
  - intros table w Hd. unfold Decode in Hd. apply find_some in Hd as [_ Hm].
    rewrite Hnone in Hm. discriminate.
Qed.

End DeadMatcher.

End DecoderProperties.

(** ** When the doubling multiplies saturate *)

Module SaturationProperties.

Import X64 Saturation SaturationFacts.

Lemma product_at_most (w u v : Z) :
  0 < w ->
  - 2 ^ (w - 1) <= u < 2 ^ (w - 1) -> - 2 ^ (w - 1) <= v < 2 ^ (w - 1) ->
  (2 ^ (w - 1) <= Z.shiftr (2 * (u * v)) w <-> u = - 2 ^ (w - 1) /\ v = - 2 ^ (w - 1)).
Proof.
  intros Hw Hu Hv.
  pose proof (pow2_pos (w - 1) ltac:(lia)) as Hpos.
  rewrite shiftr_double, Z.shiftr_div_pow2 by lia.
  split.
  - intros Hge.
    assert (Hp : 2 ^ (w - 1) * 2 ^ (w - 1) <= u * v).
    { pose proof (Z.mul_div_le (u * v) (2 ^ (w - 1)) ltac:(lia)). nia. }
    destruct (Z.neg_nonneg_cases u), (Z.neg_nonneg_cases v); try nia.
  - intros [-> ->].
    replace (- 2 ^ (w - 1) * - 2 ^ (w - 1)) with (2 ^ (w - 1) * 2 ^ (w - 1)) by lia.
    rewrite Z.div_mul by lia. lia.
Qed.

Lemma signed_min_iff (w r : Z) :
  0 < w -> (signed w r = - 2 ^ (w - 1) <-> rd w r = 2 ^ (w - 1)).
Proof.
  intros Hw. unfold signed. pose proof (rd_range w r ltac:(lia)) as Hr.
  pose proof (pow2_half w Hw).
  destruct (Z.ltb_spec (rd w r) (2 ^ (w - 1))); lia.
Qed.

Lemma signed_min_eqb (w r : Z) :
  0 < w -> (signed w r =? - 2 ^ (w - 1)) = (rd w r =? 2 ^ (w - 1)).
Proof.
  intros Hw. pose proof (signed_min_iff w r Hw) as Hi.
  destruct (Z.eqb_spec (signed w r) (- 2 ^ (w - 1))), (Z.eqb_spec (rd w r) (2 ^ (w - 1)));
    try reflexivity; tauto.
Qed.

(** X18. The doubling multiplies saturate at one pair of arguments only: the
    overflow value of the 16-bit (32-bit) routine is set exactly when both
    arguments are [0x8000] ([0x80000000]), the most negative number, and
    the result is then [0x7FFF] ([0x7FFFFFFF]). *)
Theorem doubling_multiply_saturates_only_at_minimum (x y scratch : Z) :
  let r16 := EmitSignedSaturatedDoublingMultiplyReturnHigh16 true x y scratch in
  let r32 := EmitSignedSaturatedDoublingMultiplyReturnHigh32 true x y scratch in
  flag_of (snd r16) = Some ((rd 16 x =? 0x8000) && (rd 16 y =? 0x8000)) /\
  flag_of (snd r32) = Some ((rd 32 x =? 0x80000000) && (rd 32 y =? 0x80000000)) /\
  (rd 16 x = 0x8000 -> rd 16 y = 0x8000 -> signed 16 (fst r16) = 0x7FFF) /\
  (rd 32 x = 0x80000000 -> rd 32 y = 0x80000000 -> signed 32 (fst r32) = 0x7FFFFFFF).
Proof.
  cbv zeta.
  assert (Hgen : forall w e u v, 0 < w ->
            e = Z.shiftr (2 * (u * v)) w ->
            - 2 ^ (w - 1) <= u < 2 ^ (w - 1) -> - 2 ^ (w - 1) <= v < 2 ^ (w - 1) ->
            negb (clamp (signed_min w) (signed_max w) e =? e)
            = (u =? - 2 ^ (w - 1)) && (v =? - 2 ^ (w - 1)) /\
            (u = - 2 ^ (w - 1) -> v = - 2 ^ (w - 1) ->
             clamp (signed_min w) (signed_max w) e = signed_max w)).
  { intros w e u v Hw -> Hu Hv.
    pose proof (product_at_most w u v Hw Hu Hv) as Hsat.
    pose proof (pow2_pos (w - 1) ltac:(lia)) as Hpos.
    assert (Hlow : - 2 ^ (w - 1) < Z.shiftr (2 * (u * v)) w).
    { pose proof (product_range w u v Hw Hu Hv) as Hp.
      rewrite shiftr_double, Z.shiftr_div_pow2 by lia.
      assert (- 2 ^ (w - 1) + 1 <= u * v / 2 ^ (w - 1)); [| lia].
      apply Z.div_le_lower_bound; [lia |].
      destruct (Z.neg_nonneg_cases u), (Z.neg_nonneg_cases v); nia. }
    unfold clamp, signed_min, signed_max in *.
    set (e := Z.shiftr (2 * (u * v)) w) in *.
    split.
    - destruct (Z.eqb_spec u (- 2 ^ (w - 1))) as [Eu | Nu];
        destruct (Z.eqb_spec v (- 2 ^ (w - 1))) as [Ev | Nv]; cbn [andb].
      + apply negb_true_iff, Z.eqb_neq. assert (2 ^ (w - 1) <= e) by (apply Hsat; tauto). lia.
      + apply negb_false_iff, Z.eqb_eq.
        assert (~ 2 ^ (w - 1) <= e) by (intros H; apply Hsat in H; tauto). lia.
      + apply negb_false_iff, Z.eqb_eq.
        assert (~ 2 ^ (w - 1) <= e) by (intros H; apply Hsat in H; tauto). lia.
      + apply negb_false_iff, Z.eqb_eq.
        assert (~ 2 ^ (w - 1) <= e) by (intros H; apply Hsat in H; tauto). lia.
    - intros Eu Ev. assert (2 ^ (w - 1) <= e) by (apply Hsat; tauto). lia. }
  pose proof (signed_range 16 x ltac:(lia)) as Rx16.
  pose proof (signed_range 16 y ltac:(lia)) as Ry16.
  pose proof (signed_range 32 x ltac:(lia)) as Rx32.
  pose proof (signed_range 32 y ltac:(lia)) as Ry32.
  destruct (EmitSignedSaturatedDoublingMultiplyReturnHigh16_correct true x y scratch)
    as [Hv16 Hf16].
  destruct (EmitSignedSaturatedDoublingMultiplyReturnHigh32_correct true x y scratch)
    as [Hv32 Hf32].
  cbv zeta in Hv16, Hf16, Hv32, Hf32.
  destruct (Hgen 16 _ (signed 16 x) (signed 16 y) ltac:(lia) eq_refl Rx16 Ry16) as [Hb16 Hs16].
  destruct (Hgen 32 _ (signed 32 x) (signed 32 y) ltac:(lia) eq_refl Rx32 Ry32) as [Hb32 Hs32].
  split; [| split; [| split]].
  - rewrite Hf16, Hb16, !(signed_min_eqb 16) by lia. reflexivity.
  - rewrite Hf32, Hb32, !(signed_min_eqb 32) by lia. reflexivity.
  - intros Hx Hy. rewrite Hv16. apply Hs16; apply signed_min_iff; try lia; assumption.
  - intros Hx Hy. rewrite Hv32. apply Hs32; apply signed_min_iff; try lia; assumption.
Qed.

End SaturationProperties.

(** ** What the AES lowerings leave alone *)

Module AESProperties.

Import AES.

Section Frame.

Variable aes_fn : AESFn -> State -> State.
Variable ABI_SHADOW_SPACE : Z.
Variable junk_mem : Z -> Byte.byte.
Variable junk_xmm : nat -> State.
Variable junk_gpr : Z.

Local Abbreviation run := (run aes_fn ABI_SHADOW_SPACE junk_mem junk_xmm junk_gpr).
Local Abbreviation EmitAESFunction := (EmitAESFunction ABI_SHADOW_SPACE).
Local Abbreviation EmitAESInverseMixColumns := (EmitAESInverseMixColumns ABI_SHADOW_SPACE).

Lemma store16_above (m : Z -> Byte.byte) (addr a : Z) (s : State) :
  addr + 16 <= a -> store16 m addr s a = m a.
Proof.
  intros Ha. unfold store16.
  destruct (Z.leb_spec addr a), (Z.ltb_spec a (addr + 16)); cbn; try reflexivity; lia.
Qed.

(** X19. The trampoline of [EmitAESFunction] works below the stack pointer
    only: whatever the called routine does to the registers and to the
    stack below, the memory at and above the stack pointer of the entry is
    as before and the stack pointer is restored.  The [aesimc] lowering of
    [EmitAESInverseMixColumns] touches neither memory nor the stack pointer
    nor the parameter registers nor any vector register but its own. *)
Theorem AES_lowerings_frame (fn : AESFn) (input result : nat) (m : Machine) :
  let software := EmitAESFunction input result fn in
  let hardware := EmitAESInverseMixColumns true input result in
  (forall a, rsp m <= a -> mem (run software.1 m) a = mem m a) /\
  rsp (run software.1 m) = rsp m /\
  mem (run hardware.1 m) = mem m /\
  rsp (run hardware.1 m) = rsp m /\
  param1 (run hardware.1 m) = param1 m /\
  param2 (run hardware.1 m) = param2 m /\
  (forall r, r <> input -> xmm (run hardware.1 m) r = xmm m r).
Proof.
  cbv zeta. split; [| split; [| repeat split]].
  - intros a Ha. unfold AES.EmitAESFunction, AES.run.
    cbn [fold_left AES.exec fst snd rsp param1 param2 xmm mem].
    set (sp := rsp m - (16 * 2 + ABI_SHADOW_SPACE)).
    destruct (Z.ltb_spec a (sp + ABI_SHADOW_SPACE)) as [Hlt | _]; [unfold sp in Hlt; lia |].
    rewrite !store16_above by (unfold sp; lia). reflexivity.
  - unfold AES.EmitAESFunction, AES.run.
    cbn [fold_left AES.exec fst snd rsp param1 param2 xmm mem]. lia.
  - intros r Hr. unfold AES.EmitAESInverseMixColumns, AES.run.
    cbn [fold_left AES.exec fst snd xmm]. unfold set_xmm.
    destruct (Nat.eqb_spec r input); [contradiction | reflexivity].
Qed.

End Frame.

End AESProperties.

(** ** A reservation that is used at once *)

Module MonitorProperties.

Import ExclusiveMonitor.

Section Values.

Context {World : Type}.

Lemma memcpy_round_trip (old value size : Z) :
  0 <= size -> memcpy_from (memcpy_to old value size) size = value mod 2 ^ (8 * size).
Proof.
  intros Hs. unfold memcpy_from, memcpy_to.
  assert (Hpos : 0 < 2 ^ (8 * size)) by (apply Z.pow_pos_nonneg; lia).
  pose proof (Z.div_mod old (2 ^ (8 * size)) ltac:(lia)) as Hd.
  replace (old - old mod 2 ^ (8 * size) + value mod 2 ^ (8 * size))
    with (value mod 2 ^ (8 * size) + (old / 2 ^ (8 * size)) * 2 ^ (8 * size)) by lia.
  rewrite Z.mod_add by lia. apply Z.mod_mod. lia.
Qed.

(** X20. A [DoExclusiveOperation] that follows the [ReadAndMark] of the same
    processor at the same address, with nothing between, runs its
    operation: the operation receives the low [size] bytes of the value
    that was read, its answer and its effect on memory are what the call
    returns, and afterwards the monitor is unlocked, the processor's
    reservation is gone and the saved values are as [ReadAndMark] left
    them. *)
Theorem ReadAndMark_then_DoExclusiveOperation (size : Z) (m m1 : Monitor) (w w1 : World)
    (processor_id : nat) (address value : Z)
    (read : World -> Z * World) (store : Z -> World -> bool * World) :
  0 <= size ->
  ReadAndMark size m w processor_id address read = Some (value, m1, w1) ->
  read w = (value, w1) /\
  exists m2,
    DoExclusiveOperation size m1 w1 processor_id address store
      = Some ((store (value mod 2 ^ (8 * size)) w1).1, m2,
              (store (value mod 2 ^ (8 * size)) w1).2) /\
    is_locked m2 = false /\
    exclusive_addresses m2 !! processor_id = Some INVALID_EXCLUSIVE_ADDRESS /\
    exclusive_values m2 = exclusive_values m1.
Proof.
  intros Hsize Hread.
  unfold ReadAndMark, Lock in Hread. cbv zeta in Hread.
  destruct (is_locked m) eqn:Hlock; [discriminate |].
  cbn [mbind option_bind exclusive_addresses exclusive_values is_locked] in Hread.
  destruct (exclusive_addresses m !! processor_id) as [a0 |] eqn:Haddr; [| discriminate].
  cbn [mbind option_bind] in Hread.
  destruct (read w) as [v w'] eqn:Hop.
  cbn [exclusive_values exclusive_addresses is_locked] in Hread.
  destruct (exclusive_values m !! processor_id) as [old |] eqn:Hval; [| discriminate].
  cbn [mbind option_bind] in Hread.
  injection Hread as <- <- <-.
  split; [reflexivity |].
  set (m1 := Unlock _).
  assert (Hlt : (processor_id < length (exclusive_addresses m))%nat)
    by (apply lookup_lt_is_Some; eauto).
  assert (Hlt' : (processor_id < length (exclusive_values m))%nat)
    by (apply lookup_lt_is_Some; eauto).
  assert (Haddr1 : exclusive_addresses m1 !! processor_id
                   = Some (Z.land address RESERVATION_GRANULE_MASK)).
  { unfold m1, Unlock. cbn [exclusive_addresses]. apply list_lookup_insert_eq. exact Hlt. }
  assert (Hval1 : exclusive_values m1 !! processor_id = Some (memcpy_to old v size)).
  { unfold m1, Unlock. cbn [exclusive_values]. apply list_lookup_insert_eq. exact Hlt'. }
  assert (Hlock1 : is_locked m1 = false) by reflexivity.
  clearbody m1.
  unfold DoExclusiveOperation, CheckAndClear, Lock. rewrite Hlock1.
  cbn. rewrite Haddr1. cbn. rewrite Z.eqb_refl. cbn. rewrite Hval1. cbn.
  rewrite memcpy_round_trip by exact Hsize.
  destruct (store (v mod 2 ^ (8 * size)) w') as [r w2] eqn:Hstore.
  eexists. split; [reflexivity |]. cbn.
  split; [reflexivity | split; [| reflexivity]].
  rewrite list_lookup_fmap, Haddr1.
  cbn. rewrite Z.eqb_refl. reflexivity.
Qed.

End Values.

(** A run of [ReadAndMark_then_DoExclusiveOperation]: processor 1 of two
    reads the word at 64 and stores 7 there. *)
Lemma ReadAndMark_then_DoExclusiveOperation_witness :
  let w : gmap Z Z := {[64 := 5]} in
  let m := new 2 in
  let m1 := mkMonitor false [INVALID_EXCLUSIVE_ADDRESS; 64] [0; 5] in
  ReadAndMark 4 m w 1 64 (load_word 64) = Some (5, m1, w) /\
  exists m2,
    DoExclusiveOperation 4 m1 w 1 64 (store_word_if_unchanged 64 7)
      = Some ((store_word_if_unchanged 64 7 (5 mod 2 ^ (8 * 4)) w).1, m2,
              (store_word_if_unchanged 64 7 (5 mod 2 ^ (8 * 4)) w).2) /\
    is_locked m2 = false /\
    exclusive_addresses m2 !! 1%nat = Some INVALID_EXCLUSIVE_ADDRESS /\
    exclusive_values m2 = exclusive_values m1.
Proof.
  cbv zeta.
  assert (Hread : ReadAndMark 4 (new 2) ({[64 := 5]} : gmap Z Z) 1 64 (load_word 64)
                  = Some (5, mkMonitor false [INVALID_EXCLUSIVE_ADDRESS; 64] [0; 5],
                          ({[64 := 5]} : gmap Z Z))).
  { vm_compute. reflexivity. }
  split; [exact Hread |].
  exact (proj2 (ReadAndMark_then_DoExclusiveOperation 4 _ _ _ _ 1 64 5 (load_word 64)
                  (store_word_if_unchanged 64 7) ltac:(lia) Hread)).
Defined.

End MonitorProperties.

(** ** The metaprogramming library [mp] *)

Module MpFacts.

Import Mp.

Section Typelist.

Context {E : Type}.

Lemma drop_impl_skipn (n : nat) (L : list E) :
  Z.of_nat n < 2 ^ 64 -> drop_impl (Z.of_nat n) L = skipn n L.
Proof.
  revert L. induction n as [| n IH]; intros L Hn.
  - destruct L; reflexivity.
  - destruct L as [| E1 Es]; [reflexivity |].
    cbn [drop_impl skipn].
    destruct (Z.eqb_spec (Z.of_nat (S n)) 0) as [H0 | _]; [lia |].
    replace ((Z.of_nat (S n) - 1) mod 2 ^ 64) with (Z.of_nat n)
      by (rewrite Z.mod_small; lia).
    apply IH. lia.
Qed.

Lemma drop_skipn (N : Z) (L : list E) :
  0 <= N < 2 ^ 64 -> drop N L = skipn (Z.to_nat N) L.
Proof.
  intros HN. unfold drop. rewrite <- (Z2Nat.id N) at 1 by lia.
  apply drop_impl_skipn. lia.
Qed.

(** X21. [drop<N, L>], for a [size_t] [N], is the list [L] without its
    first [N] elements: it has [N] elements fewer (none when the list has
    at most [N]: dropping past the end is the empty list, not an error),
    and [drop<0, L>] is [L]. *)
Theorem drop_is_skipn (N : Z) (L : list E) :
  0 <= N < 2 ^ 64 ->
  drop N L = skipn (Z.to_nat N) L /\
  length (drop N L) = (length L - Z.to_nat N)%nat /\
  (Z.of_nat (length L) <= N -> drop N L = []) /\
  drop 0 L = L.
Proof.
  intros HN. pose proof (drop_skipn N L HN) as Hs.
  split; [exact Hs | split; [| split]].
  - rewrite Hs. apply length_skipn.
  - intros Hlen. rewrite Hs. apply skipn_all2. lia.
  - destruct L; reflexivity.
Qed.

(** X22. Dropping composes: [drop<N, drop<M, L>>] is [drop<N + M, L>], as
    long as [N + M] is a [size_t]. *)
Theorem drop_drop (N M : Z) (L : list E) :
  0 <= N -> 0 <= M -> N + M < 2 ^ 64 ->
  drop N (drop M L) = drop (N + M) L.
Proof.
  intros HN HM Hsum.
  rewrite !drop_skipn by lia.
  rewrite skipn_skipn. f_equal. lia.
Qed.

End Typelist.

Section Metavalues.

Context {metavalue : Type}.
Variable value : metavalue -> bool.
Variable false_type : metavalue.
Variable logic_if : metavalue -> metavalue -> metavalue -> metavalue.

(** [logic_if<V, T, F>] is [T] when the value of [V] is true and [F]
    otherwise. *)
Hypothesis logic_if_selects :
  forall V T F, logic_if V T F = if value V then T else F.

Local Abbreviation conjunction_impl := (conjunction_impl false_type logic_if).
Local Abbreviation disjunction_impl := (disjunction_impl false_type logic_if).
Local Abbreviation conjunction := (conjunction false_type logic_if).
Local Abbreviation disjunction := (disjunction false_type logic_if).

Lemma conjunction_impl_cons (V1 V2 : metavalue) (Vs : list metavalue) :
  conjunction_impl (V1 :: V2 :: Vs)
  = if value V1 then conjunction_impl (V2 :: Vs) else V1.
Proof. cbn [Mp.conjunction_impl]. apply logic_if_selects. Qed.

Lemma disjunction_impl_cons (V1 V2 : metavalue) (Vs : list metavalue) :
  disjunction_impl (V1 :: V2 :: Vs)
  = if value V1 then V1 else disjunction_impl (V2 :: Vs).
Proof. cbn [Mp.disjunction_impl]. apply logic_if_selects. Qed.

(** X23. [conjunction<Vs...>] is the first of the metavalues whose value is
    false, and the last one when there is none ([false_type] for no
    metavalues): it is one of its arguments ("type preservation"), and its
    value is the conjunction of their values. *)
Theorem conjunction_first_false (Vs : list metavalue) :
  conjunction Vs =
    match find (fun V => negb (value V)) Vs with
    | Some V => V
    | None => List.last Vs false_type
    end /\
  (Vs <> [] ->
     In (conjunction Vs) Vs /\
     value (conjunction Vs) = forallb value Vs).
Proof.
  unfold Mp.conjunction. split.
  - induction Vs as [| V1 [| V2 Vs] IH].
    + reflexivity.
    + cbn. destruct (value V1); reflexivity.
    + rewrite conjunction_impl_cons. cbn [find].
      destruct (value V1); cbn [negb]; [| reflexivity].
      rewrite IH. reflexivity.
  - intros Hne. induction Vs as [| V1 [| V2 Vs] IH]; [contradiction | |].
    + cbn. split; [left; reflexivity | rewrite andb_true_r; reflexivity].
    + rewrite conjunction_impl_cons. cbn [forallb].
      destruct (value V1) eqn:H1.
      * destruct (IH ltac:(discriminate)) as [Hin Hb].
        split; [right; exact Hin | exact Hb].
      * split; [left; reflexivity | exact H1].
Qed.

(** X24. [disjunction<Vs...>] is the first of the metavalues whose value is
    true, and the last one when there is none ([false_type] for no
    metavalues): it is one of its arguments, and its value is the
    disjunction of their values. *)
Theorem disjunction_first_true (Vs : list metavalue) :
  disjunction Vs =
    match find value Vs with
    | Some V => V
    | None => List.last Vs false_type
    end /\
  (Vs <> [] ->
     In (disjunction Vs) Vs /\
     value (disjunction Vs) = existsb value Vs).
Proof.
  unfold Mp.disjunction. split.
  - induction Vs as [| V1 [| V2 Vs] IH].
    + reflexivity.
    + cbn. destruct (value V1); reflexivity.
    + rewrite disjunction_impl_cons. cbn [find].
      destruct (value V1); [reflexivity |].
      rewrite IH. reflexivity.
  - intros Hne. induction Vs as [| V1 [| V2 Vs] IH]; [contradiction | |].
    + cbn. split; [left; reflexivity | rewrite orb_false_r; reflexivity].
    + rewrite disjunction_impl_cons. cbn [existsb].
      destruct (value V1) eqn:H1.
      * split; [left; reflexivity | exact H1].
      * destruct (IH ltac:(discriminate)) as [Hin Hb].
        split; [right; exact Hin | exact Hb].
Qed.

End Metavalues.

(** A run of [drop_is_skipn]. *)
Lemma drop_is_skipn_witness :
  0 <= 2 < 2 ^ 64 /\
  drop 2 [10; 20; 30] = skipn (Z.to_nat 2) [10; 20; 30] /\
  length (drop 2 [10; 20; 30]) = (length [10; 20; 30] - Z.to_nat 2)%nat /\
  (Z.of_nat (length [10; 20; 30]) <= 2 -> drop 2 [10; 20; 30] = []) /\
  drop 0 [10; 20; 30] = [10; 20; 30].
Proof.
  split; [lia |]. apply (drop_is_skipn 2 [10; 20; 30]). lia.
Defined.

(** A run of [drop_drop]. *)
Lemma drop_drop_witness :
  drop 1 (drop 2 [10; 20; 30; 40]) = drop (1 + 2) [10; 20; 30; 40].
Proof.
  apply (drop_drop 1 2 [10; 20; 30; 40]); lia.
Defined.

(** A run of [conjunction_first_false] on boolean constants. *)
Lemma conjunction_first_false_witness :
  conjunction false example_logic_if [true; false; true] = false /\
  ([true; false; true] <> [] ->
     In (conjunction false example_logic_if [true; false; true]) [true; false; true] /\
     id (conjunction false example_logic_if [true; false; true])
     = forallb id [true; false; true]).
Proof.
  exact (conjunction_first_false id false example_logic_if (fun V T F => eq_refl)
           [true; false; true]).
Defined.

(** A run of [disjunction_first_true] on boolean constants. *)
Lemma disjunction_first_true_witness :
  disjunction false example_logic_if [false; true; false] = true /\
  ([false; true; false] <> [] ->
     In (disjunction false example_logic_if [false; true; false]) [false; true; false] /\
     id (disjunction false example_logic_if [false; true; false])
     = existsb id [false; true; false]).
Proof.
  exact (disjunction_first_true id false example_logic_if (fun V T F => eq_refl)
           [false; true; false]).
Defined.

End MpFacts.
